(** * find_intersecting_snps_2: allele-swapped candidate reads

    A shallow embedding of [mapping/find_intersecting_snps_2.py] and the
    properties of its candidate-sequence generator and of its triage and
    emission step.

    Conventions of the embedding.
    - A Python [str] holding a read, a quality line or an allele string is a
      [list ascii]; [s[i]] is the list lookup [s !! i], which is [None] where
      Python raises [IndexError].
    - Dictionary keys that are names (chromosomes, query names, disposition
      tags) are [string]s.
    - Reference positions are [Z], query offsets are [nat] (pysam reports
      non-negative offsets).
    - A function that can raise returns an [option]; [None] is the raised
      exception.
    - File objects are the lists of what has been written to them; the lists
      are threaded through the functions that write. *)

From Stdlib Require Import ZArith List Ascii String Lia.
From stdpp Require Import base option list gmap strings fin_maps.

Local Open Scope string_scope.
Local Open Scope list_scope.
Local Open Scope nat_scope.

(** ** Data model *)

Abbreviation seq_t := (list ascii).

(** [str s] spells a sequence as a literal. *)
Definition str (s : string) : seq_t := list_ascii_of_string s.

(** The fields of a pysam [AlignedSegment] that the program reads.
    [aligned_pairs] is the value of [get_aligned_pairs(matches_only=True)]:
    pairs of a query offset and a reference position; the reference position
    is optional because [get_read_seqs] tests it against [None]. *)
Record AlignedSegment : Type := mkRead {
  qname : string;
  seq : seq_t;
  qual : seq_t;
  reference_name : string;
  pos : Z;
  is_reverse : bool;
  is_read1 : bool;
  is_read2 : bool;
  is_proper_pair : bool;
  aligned_pairs : list (nat * option Z)
}.

(** [snp_dict]: chromosome -> position -> allele string, a
    [defaultdict(dict)]. *)
Abbreviation SnpDict := (gmap string (gmap Z seq_t)).

(** [indel_dict]: chromosome -> position -> flag, a [defaultdict] of
    [defaultdict(bool)]. *)
Abbreviation IndelDict := (gmap string (gmap Z bool)).

(** [snp_dict[chrom]]: a missing chromosome reads as the empty dict. *)
Definition snp_chrom (snp_dict : SnpDict) (chrom : string) : gmap Z seq_t :=
  default ∅ (snp_dict !! chrom).

(** [indel_dict[chrom][ref_pos]]: a missing entry reads as [False]. (The
    access also stores the default in the [defaultdict]; the stored [False]
    reads the same as the missing entry, so the store is not modelled.) *)
Definition indel_flag (indel_dict : IndelDict) (chrom : string) (ref_pos : Z) : bool :=
  default false (default ∅ (indel_dict !! chrom) !! ref_pos).

(** [dispositions]: a [Counter] keyed by tag. *)
Abbreviation Counter := (gmap string nat).

Definition count (d : Counter) (k : string) : nat := default 0 (d !! k).

(** [dispositions[k] += 1] *)
Definition incr (k : string) (d : Counter) : Counter := <[k := S (count d k)]> d.

Definition MAX_SEQS_PER_READ : nat := 1024.

(** [product(iterable)]: [reduce(mul, iterable, 1)]. *)
Definition product (l : list nat) : nat := foldl Nat.mul 1 l.

(** ** reverse_complement *)

(** [RC_TABLE], as [str.translate] applies it: a symbol with an entry is
    replaced, any other symbol is kept. *)
Definition RC_TABLE (c : ascii) : ascii :=
  if decide (c = "A"%char) then "T"%char
  else if decide (c = "T"%char) then "A"%char
  else if decide (c = "C"%char) then "G"%char
  else if decide (c = "G"%char) then "C"%char
  else c.

(** [seq.translate(RC_TABLE)[::-1]] *)
Definition reverse_complement (s : seq_t) : seq_t := reverse (RC_TABLE <$> s).

(** ** get_indels *)

(** The test of [get_indels] on one allele string. [alleles] is a [str], so
    the generator [len(i) for i in alleles] yields 1 for every symbol; [max]
    of an empty generator raises [ValueError]. *)
Definition indel_test (alleles : seq_t) : option bool :=
  if bool_decide ("-"%char ∈ alleles) then Some true
  else match alleles with
       | [] => None
       | _ => Some (1 <? foldr Nat.max 0 ((λ _, 1) <$> alleles))
       end.

(** [indel_dict[chrom][pos] = True] *)
Definition indel_set (chrom : string) (p : Z) (ind : IndelDict) : IndelDict :=
  <[chrom := <[p := true]> (default ∅ (ind !! chrom))]> ind.

Fixpoint get_indels_items (chrom : string) (items : list (Z * seq_t))
    (ind : IndelDict) : option IndelDict :=
  match items with
  | [] => Some ind
  | (p, alleles) :: rest =>
      b ← indel_test alleles;
      get_indels_items chrom rest (if b : bool then indel_set chrom p ind else ind)
  end.

Fixpoint get_indels_chroms (chroms : list (string * gmap Z seq_t))
    (ind : IndelDict) : option IndelDict :=
  match chroms with
  | [] => Some ind
  | (chrom, m) :: rest =>
      ind' ← get_indels_items chrom (map_to_list m) ind;
      get_indels_chroms rest ind'
  end.

(** The two nested loops of [get_indels] over the items of [snp_dict]. The
    loops only set flags, so the order in which the items come does not show
    in the result. *)
Definition get_indels (snp_dict : SnpDict) : option IndelDict :=
  get_indels_chroms (map_to_list snp_dict) ∅.

(** ** get_read_seqs *)

(** [seq[:read_pos] + new_allele + seq[read_pos+1:]]: Python slices clip at
    the end of the string, as [take] and [drop] do. *)
Definition subst_at (read_pos : nat) (allele : ascii) (s : seq_t) : seq_t :=
  take read_pos s ++ allele :: drop (S read_pos) s.

(** The loop [for new_allele in alleles] of [get_read_seqs]: every allele
    that differs from the read's base appends, for each sequence of a copy
    of the list taken when that allele is reached, its substituted sequence. *)
Definition expand_alleles (read_pos : nat) (read_base : ascii)
    (alleles : seq_t) (seqs : list seq_t) : list seq_t :=
  foldl (λ seqs new_allele,
           if decide (new_allele = read_base) then seqs
           else seqs ++ (subst_at read_pos new_allele <$> seqs))
        seqs alleles.

(** The loop over the aligned pairs and the code after it. The result is the
    returned list with the updated counter. ([num_snps] is written and never
    read; it is left out.) *)
Fixpoint get_read_seqs_loop (read_seq : seq_t) (snps : gmap Z seq_t)
    (indel : Z → bool) (pairs : list (nat * option Z))
    (seqs : list seq_t) (dispositions : Counter)
    : option (list seq_t * Counter) :=
  match pairs with
  | [] =>
      if decide (length seqs = 1)
      then Some (seqs, incr "no_snps" dispositions)
      else Some (seqs, incr "has_snps" dispositions)
  | (read_pos, None) :: rest =>
      get_read_seqs_loop read_seq snps indel rest seqs dispositions
  | (read_pos, Some ref_pos) :: rest =>
      if indel ref_pos then Some ([], incr "toss_indel" dispositions)
      else if decide (MAX_SEQS_PER_READ < length seqs)
      then Some ([], incr "toss_manysnps" dispositions)
      else match snps !! ref_pos with
           | Some alleles =>
               read_base ← read_seq !! read_pos;
               if bool_decide (read_base ∈ alleles)
               then get_read_seqs_loop read_seq snps indel rest
                      (expand_alleles read_pos read_base alleles seqs)
                      (incr "ref_match" dispositions)
               else get_read_seqs_loop read_seq snps indel rest seqs
                      (incr "no_match" dispositions)
           | None => get_read_seqs_loop read_seq snps indel rest seqs dispositions
           end
  end.

Definition get_read_seqs (read : AlignedSegment) (snp_dict : SnpDict)
    (indel_dict : IndelDict) (dispositions : Counter)
    : option (list seq_t * Counter) :=
  let chrom := reference_name read in
  get_read_seqs_loop (seq read) (snp_chrom snp_dict chrom)
    (indel_flag indel_dict chrom) (aligned_pairs read) [seq read] dispositions.

(** ** get_dual_read_seqs *)

(** [snps = {}]: a dict iterates in the order in which its keys were first
    inserted, and the generator's output order follows that iteration, so
    the dict is an association list; assigning to a key already present
    keeps the key's place. *)
Fixpoint dict_set {V : Type} (k : Z) (v : V) (d : list (Z * V)) : list (Z * V) :=
  match d with
  | [] => [(k, v)]
  | (k', v') :: d' =>
      if decide (k = k') then (k, v) :: d' else (k', v') :: dict_set k v d'
  end.

(** [read_posns = defaultdict(lambda: [None, None])] *)
Abbreviation ReadPosns := (gmap Z (option nat * option nat)).

Definition read_posns_get (read_posns : ReadPosns) (ref_pos : Z)
    : option nat * option nat :=
  default (None, None) (read_posns !! ref_pos).

(** [read_posns[ref_pos][slot] = read_pos]; slot [false] is index 0. *)
Definition read_posns_set (slot : bool) (ref_pos : Z) (read_pos : nat)
    (read_posns : ReadPosns) : ReadPosns :=
  let '(p1, p2) := read_posns_get read_posns ref_pos in
  <[ref_pos := if slot then (p1, Some read_pos) else (Some read_pos, p2)]> read_posns.

(** One of the two loops over a mate's aligned pairs. [None] is the early
    return on an indel-flagged position. A reference position [None] is not
    flagged and is no key of the variant dict, so such a pair is passed over. *)
Fixpoint scan_mate (slot : bool) (snps_chrom : gmap Z seq_t) (indel : Z → bool)
    (pairs : list (nat * option Z))
    (snps : list (Z * seq_t)) (read_posns : ReadPosns)
    : option (list (Z * seq_t) * ReadPosns) :=
  match pairs with
  | [] => Some (snps, read_posns)
  | (read_pos, None) :: rest =>
      scan_mate slot snps_chrom indel rest snps read_posns
  | (read_pos, Some ref_pos) :: rest =>
      if indel ref_pos then None
      else match snps_chrom !! ref_pos with
           | Some alleles =>
               scan_mate slot snps_chrom indel rest
                 (dict_set ref_pos alleles snps)
                 (read_posns_set slot ref_pos read_pos read_posns)
           | None => scan_mate slot snps_chrom indel rest snps read_posns
           end
  end.

(** The variables the loop over [snps] reads and writes. [seq1] and [seq2]
    start as the reads' sequences and are rebound by every
    [for seq1, seq2 in zip(seqs1, seqs2)]. *)
Record DualState : Type := mkDual {
  seq1 : seq_t;
  seq2 : seq_t;
  seqs1 : list seq_t;
  seqs2 : list seq_t
}.

(** The variables of one iteration's allele loop: the rebound [seq1] and
    [seq2], and the lists [new_seqs1] and [new_seqs2]. *)
Record AlleleState : Type := mkAllele {
  cur1 : seq_t;
  cur2 : seq_t;
  new_seqs1 : list seq_t;
  new_seqs2 : list seq_t
}.

(** [for seq1, seq2 in zip(seqs1, seqs2)]: append [f1 seq1] to [new_seqs1]
    and [f2 seq2] to [new_seqs2]. *)
Definition zip_loop (f1 f2 : seq_t → seq_t) (zs : list (seq_t * seq_t))
    (a : AlleleState) : AlleleState :=
  foldl (λ a '(s1, s2),
           mkAllele s1 s2 (new_seqs1 a ++ [f1 s1]) (new_seqs2 a ++ [f2 s2]))
        a zs.

(** [for allele in alleles]: skip the allele equal to the observed base,
    which is read anew from the current [seq1], [seq2] for every allele
    ([observed]), and run the zip loop for the others. The three branches of
    [get_dual_read_seqs] instantiate [observed], [f1] and [f2]. *)
Fixpoint allele_loop (observed : seq_t → seq_t → option ascii)
    (f1 f2 : ascii → seq_t → seq_t) (zs : list (seq_t * seq_t))
    (alleles : seq_t) (a : AlleleState) : option AlleleState :=
  match alleles with
  | [] => Some a
  | allele :: rest =>
      base ← observed (cur1 a) (cur2 a);
      if decide (allele = base)
      then allele_loop observed f1 f2 zs rest a
      else allele_loop observed f1 f2 zs rest (zip_loop (f1 allele) (f2 allele) zs a)
  end.

(** What one iteration of [for ref_pos in snps] does. *)
Inductive DualStep : Type :=
  | StepNext (st : DualState)
  | StepAnomalous.

(** [seqs1.extend(new_seqs1); seqs2.extend(new_seqs2)] *)
Definition extend_state (st : DualState) (a : AlleleState) : DualState :=
  mkDual (cur1 a) (cur2 a) (seqs1 st ++ new_seqs1 a) (seqs2 st ++ new_seqs2 a).

Definition dual_step (read_posns : ReadPosns) (st : DualState)
    (entry : Z * seq_t) : option DualStep :=
  let '(ref_pos, alleles) := entry in
  let '(pos1, pos2) := read_posns_get read_posns ref_pos in
  let zs := zip (seqs1 st) (seqs2 st) in
  let a0 := mkAllele (seq1 st) (seq2 st) [] [] in
  match pos1, pos2 with
  | None, None =>
      (* [seq2[None]] raises [TypeError] as soon as an allele is compared *)
      a ← allele_loop (λ _ _, None) (λ _ s, s) (λ _ s, s) zs alleles a0;
      Some (StepNext (extend_state st a))
  | None, Some p2 =>
      a ← allele_loop (λ _ s2, s2 !! p2)
            (λ _ s, s)
            (λ allele s, subst_at p2 allele s)
            zs alleles a0;
      Some (StepNext (extend_state st a))
  | Some p1, None =>
      a ← allele_loop (λ s1 _, s1 !! p1)
            (λ allele s, subst_at p1 allele s)
            (λ _ s, s)
            zs alleles a0;
      Some (StepNext (extend_state st a))
  | Some p1, Some p2 =>
      b1 ← seq1 st !! p1;
      b2 ← seq2 st !! p2;
      if decide (b1 = b2)
      then a ← allele_loop (λ _ s2, s2 !! p2)
                  (λ allele s, subst_at p1 allele s)
                  (λ allele s, subst_at p2 allele s)
                  zs alleles a0;
           Some (StepNext (extend_state st a))
      else Some StepAnomalous
  end.

(** [for ref_pos in snps]: the dict is not changed inside the loop. *)
Fixpoint dual_loop (read_posns : ReadPosns) (snps : list (Z * seq_t))
    (st : DualState) : option DualStep :=
  match snps with
  | [] => Some (StepNext st)
  | entry :: rest =>
      r ← dual_step read_posns st entry;
      match r with
      | StepNext st' => dual_loop read_posns rest st'
      | StepAnomalous => Some StepAnomalous
      end
  end.

Definition get_dual_read_seqs (read1 read2 : AlignedSegment)
    (snp_dict : SnpDict) (indel_dict : IndelDict) (dispositions : Counter)
    : option (list seq_t * list seq_t * Counter) :=
  let chrom := reference_name read1 in
  let snps_chrom := snp_chrom snp_dict chrom in
  let indel := indel_flag indel_dict chrom in
  match scan_mate false snps_chrom indel (aligned_pairs read1) [] ∅ with
  | None => Some ([], [], incr "toss_indel" dispositions)
  | Some (snps, read_posns) =>
      match scan_mate true snps_chrom indel (aligned_pairs read2) snps read_posns with
      | None => Some ([], [], incr "toss_indel" dispositions)
      | Some (snps, read_posns) =>
          if decide (MAX_SEQS_PER_READ < product (length <$> snps.*2))
          then Some ([], [], incr "toss_manysnps" dispositions)
          else
            r ← dual_loop read_posns snps
                  (mkDual (seq read1) (seq read2) [seq read1] [seq read2]);
            match r with
            | StepAnomalous => Some ([], [], incr "toss_anomalous_phase" dispositions)
            | StepNext st =>
                if decide (length (seqs1 st) = 1)
                then Some (seqs1 st, seqs2 st, incr "no_snps" dispositions)
                else Some (seqs1 st, seqs2 st, incr "has_snps" dispositions)
            end
      end
  end.

(** ** write_read_seqs *)

(** The identifier line [loc_line], field by field in the order in which
    the format string joins them with colons. *)
Record LocLine : Type := mkLoc {
  loc_remap_num : nat;
  loc_chrom : string;
  loc_left : Z;
  loc_right : Z;
  loc_count : nat
}.

(** One write to a FASTQ file: the text
    [@loc_line \n seq \n +loc_line \n qual \n]. *)
Record FastqRecord : Type := mkFastq {
  fq_loc : LocLine;
  fq_seq : seq_t;
  fq_qual : seq_t
}.

(** The files [write_read_seqs] is handed; [dropped] is its optional
    argument. *)
Record Files : Type := mkFiles {
  keep : list AlignedSegment;
  remap_bam : list AlignedSegment;
  fastqs : list (list FastqRecord);
  dropped : option (list AlignedSegment)
}.

(** [itertools.product] applied to the lists of [seqs]: all ways to pick one entry from every list,
    the last list varying fastest. *)
Fixpoint it_product {A : Type} (ls : list (list A)) : list (list A) :=
  match ls with
  | [] => [[]]
  | l :: rest => x ← l; (cons x) <$> it_product rest
  end.

(** [min(r.pos for r in reads)] and [max(r.pos for r in reads)] on a
    non-empty tuple. *)
Definition min_pos (r : AlignedSegment) (rs : list AlignedSegment) : Z :=
  foldl (λ m r', Z.min m (pos r')) (pos r) rs.

Definition max_pos (r : AlignedSegment) (rs : list AlignedSegment) : Z :=
  foldl (λ m r', Z.max m (pos r')) (pos r) rs.

(** The record written for one mate of one combination. *)
Definition fastq_record (loc_line : LocLine) (s : seq_t) (read : AlignedSegment)
    : FastqRecord :=
  mkFastq loc_line (if is_reverse read then reverse_complement s else s) (qual read).

(** [for seq, read, fastq in zip(read_seqs, reads, fastqs): fastq.write(..)] *)
Fixpoint write_combo (loc_line : LocLine) (read_seqs : list seq_t)
    (reads : list AlignedSegment) (fqs : list (list FastqRecord))
    : list (list FastqRecord) :=
  match read_seqs, reads, fqs with
  | s :: read_seqs', read :: reads', fq :: fqs' =>
      (fq ++ [fastq_record loc_line s read]) :: write_combo loc_line read_seqs' reads' fqs'
  | _, _, _ => fqs
  end.

(** [write_read_seqs(both_read_seqs, keep, remap_bam, fastqs, dropped,
    remap_num)]: the returned number and the files after the call. [None] is
    the [ValueError] of unpacking the transposed empty list or a failed
    [assert]. *)
Definition write_read_seqs (both_read_seqs : list (AlignedSegment * list seq_t))
    (fl : Files) (remap_num : nat) : option (nat * Files) :=
  match both_read_seqs with
  | [] => None
  | first_pair :: other_pairs =>
      let reads := both_read_seqs.*1 in
      let seqs := both_read_seqs.*2 in
      if decide (length reads = length (fastqs fl)) then
        let num_seqs := product (length <$> seqs) in
        if decide (num_seqs = 0 ∨ MAX_SEQS_PER_READ < num_seqs) then
          match dropped fl with
          | Some d =>
              Some (0, mkFiles (keep fl) (remap_bam fl) (fastqs fl) (Some (d ++ reads)))
          | None => Some (0, fl)
          end
        else if decide (num_seqs = 1) then
          Some (0, mkFiles (keep fl ++ reads) (remap_bam fl) (fastqs fl) (dropped fl))
        else
          let left_pos := min_pos first_pair.1 other_pairs.*1 in
          let right_pos := max_pos first_pair.1 other_pairs.*1 in
          (* [read] is what the loop over [reads] left in it: the last read *)
          let read := List.last reads first_pair.1 in
          let loc_line :=
            mkLoc remap_num (reference_name read) left_pos right_pos (num_seqs - 1) in
          let fqs :=
            foldl (λ fqs read_seqs, write_combo loc_line read_seqs reads fqs)
                  (fastqs fl) (drop 1 (it_product seqs)) in
          Some (1, mkFiles (keep fl) (remap_bam fl ++ reads) fqs (dropped fl))
      else None
  end.

(** ** assign_reads *)

(** The variables of the loop of [assign_reads]: the two dicts of reads that
    wait for their mate, the counter, the batch number and the output files. *)
Record RunState : Type := mkRun {
  unpaired_reads : gmap string AlignedSegment * gmap string AlignedSegment;
  read_results : Counter;
  remap_num : nat;
  keep_file : list AlignedSegment;
  remap_file : list AlignedSegment;
  dropped_bam : list AlignedSegment;
  fastq_files : list (list FastqRecord)
}.

(** Indexing a two-element list with a boolean: [False] is 0, [True] is 1. *)
Definition slot_get {A : Type} (slot : bool) (p : A * A) : A :=
  if slot then p.2 else p.1.

Definition slot_set {A : Type} (slot : bool) (x : A) (p : A * A) : A * A :=
  if slot then (p.1, x) else (x, p.2).

(** The state before the first read: one FASTQ file per mate role when the
    input is paired, one file otherwise. *)
Definition init_state (is_paired : bool) : RunState :=
  mkRun (∅, ∅) ∅ 1 [] [] [] (if is_paired then [[]; []] else [[]]).

(** The body of [for i, read in enumerate(insam)] (the progress line printed
    every 1000 reads aside). *)
Definition assign_step (snp_dict : SnpDict) (indel_dict : IndelDict)
    (is_paired : bool) (st : RunState) (read : AlignedSegment) : option RunState :=
  if negb is_paired then
    '(read_seqs, results) ← get_read_seqs read snp_dict indel_dict (read_results st);
    (* neither [dropped] nor [remap_num] is passed; the result is not used *)
    '(_, fl) ← write_read_seqs [(read, read_seqs)]
                 (mkFiles (keep_file st) (remap_file st) (fastq_files st) None) 0;
    Some (mkRun (unpaired_reads st) results (remap_num st)
            (keep fl) (remap_bam fl) (dropped_bam st) (fastqs fl))
  else if is_proper_pair read then
    let slot_self := is_read2 read in
    let slot_other := is_read1 read in
    match slot_get slot_other (unpaired_reads st) !! qname read with
    | Some other =>
        let unpaired :=
          slot_set slot_other
            (delete (qname read) (slot_get slot_other (unpaired_reads st)))
            (unpaired_reads st) in
        let both_reads :=
          slot_set slot_other (Some other) (slot_set slot_self (Some read) (None, None)) in
        (* a mate left at [None] raises [AttributeError] in the generator *)
        read1 ← both_reads.1;
        read2 ← both_reads.2;
        '(both_seqs1, both_seqs2, results) ←
          get_dual_read_seqs read1 read2 snp_dict indel_dict (read_results st);
        '(n, fl) ← write_read_seqs [(read1, both_seqs1); (read2, both_seqs2)]
                     (mkFiles (keep_file st) (remap_file st) (fastq_files st)
                        (Some (dropped_bam st)))
                     (remap_num st);
        Some (mkRun unpaired results (remap_num st + n)
                (keep fl) (remap_bam fl) (default (dropped_bam st) (dropped fl))
                (fastqs fl))
    | None =>
        Some (mkRun
                (slot_set slot_self
                   (<[qname read := read]> (slot_get slot_self (unpaired_reads st)))
                   (unpaired_reads st))
                (read_results st) (remap_num st)
                (keep_file st) (remap_file st) (dropped_bam st) (fastq_files st))
    end
  else
    Some (mkRun (unpaired_reads st) (incr "not_proper_pair" (read_results st))
            (remap_num st) (keep_file st) (remap_file st) (dropped_bam st)
            (fastq_files st)).

(** [assign_reads(insam, snp_dict, indel_dict, is_paired)]: the state after
    the last read of [insam]. *)
Definition assign_reads (insam : list AlignedSegment) (snp_dict : SnpDict)
    (indel_dict : IndelDict) (is_paired : bool) : option RunState :=
  foldl (λ st read, st ← st; assign_step snp_dict indel_dict is_paired st read)
        (Some (init_state is_paired)) insam.

(** * Properties *)

(** ** The counter *)

Lemma count_incr_eq (k : string) (d : Counter) : count (incr k d) k = S (count d k).
Proof. unfold count at 1, incr. by rewrite lookup_insert_eq. Qed.

Lemma count_incr_ne (k k' : string) (d : Counter) :
  k ≠ k' → count (incr k d) k' = count d k'.
Proof. intros Hne. unfold count, incr. by rewrite lookup_insert_ne. Qed.

(** ** reverse_complement *)

Lemma RC_TABLE_involutive (c : ascii) : RC_TABLE (RC_TABLE c) = c.
Proof.
  unfold RC_TABLE.
  destruct (decide (c = "A"%char)) as [->|HA]; [done|].
  destruct (decide (c = "T"%char)) as [->|HT]; [done|].
  destruct (decide (c = "C"%char)) as [->|HC]; [done|].
  destruct (decide (c = "G"%char)) as [->|HG]; [done|].
  repeat case_decide; congruence.
Qed.

(** C10: [reverse_complement] undoes itself on every string, whatever its
    symbols: a symbol outside the table is kept by both applications, a
    symbol of the table is swapped and swapped back, and the two reversals
    cancel. *)
Theorem reverse_complement_involutive (s : seq_t) :
  reverse_complement (reverse_complement s) = s.
Proof.
  unfold reverse_complement.
  rewrite fmap_reverse, reverse_involutive, <- list_fmap_compose.
  induction s as [|c s IH]; [done|].
  cbn [fmap list_fmap compose]. cbn [fmap] in IH.
  by rewrite RC_TABLE_involutive, IH.
Qed.

(** ** get_indels flags only positions of the variant dict *)

Lemma indel_flag_empty (chrom : string) (p : Z) : indel_flag ∅ chrom p = false.
Proof. unfold indel_flag. by rewrite lookup_empty. Qed.

Lemma indel_flag_set (chrom c : string) (p q : Z) (ind : IndelDict) :
  indel_flag (indel_set chrom p ind) c q = true →
  (c = chrom ∧ q = p) ∨ indel_flag ind c q = true.
Proof.
  unfold indel_flag, indel_set.
  destruct (decide (chrom = c)) as [->|Hc].
  - rewrite lookup_insert_eq. cbn.
    destruct (decide (p = q)) as [->|Hq]; [by left|].
    rewrite lookup_insert_ne by done. by right.
  - rewrite lookup_insert_ne by done. by right.
Qed.

Lemma get_indels_items_flag chrom items ind ind' c q :
  get_indels_items chrom items ind = Some ind' →
  indel_flag ind' c q = true →
  indel_flag ind c q = true ∨ (c = chrom ∧ ∃ alleles, (q, alleles) ∈ items).
Proof.
  revert ind. induction items as [|[p alleles] rest IH]; intros ind Hrun Hflag.
  - cbn in Hrun. left. congruence.
  - cbn in Hrun. destruct (indel_test alleles) as [b|]; [|done]. cbn in Hrun.
    destruct (IH _ Hrun Hflag) as [Hprev|[-> [al Hal]]].
    + destruct b; [|by left].
      apply indel_flag_set in Hprev as [[-> ->]|Hprev]; [|by left].
      right. split; [done|]. exists alleles. apply elem_of_cons. by left.
    + right. split; [done|]. exists al. apply elem_of_cons. by right.
Qed.

Lemma get_indels_chroms_flag chroms ind ind' c q :
  get_indels_chroms chroms ind = Some ind' →
  indel_flag ind' c q = true →
  indel_flag ind c q = true ∨
  ∃ m alleles, (c, m) ∈ chroms ∧ (q, alleles) ∈ map_to_list m.
Proof.
  revert ind. induction chroms as [|[chrom m] rest IH]; intros ind Hrun Hflag.
  - cbn in Hrun. left. congruence.
  - cbn in Hrun.
    destruct (get_indels_items chrom (map_to_list m) ind) as [ind1|] eqn:Hitems;
      [|done]. cbn in Hrun.
    destruct (IH _ Hrun Hflag) as [Hprev|(m' & al & Hm & Hal)].
    + destruct (get_indels_items_flag _ _ _ _ _ _ Hitems Hprev) as [?|[-> [al Hal]]];
        [by left|].
      right. exists m, al. split; [|done]. apply elem_of_cons. by left.
    + right. exists m', al. split; [|done]. apply elem_of_cons. by right.
Qed.

Lemma get_indels_flag snp_dict indel_dict chrom p :
  get_indels snp_dict = Some indel_dict →
  indel_flag indel_dict chrom p = true →
  is_Some (snp_chrom snp_dict chrom !! p).
Proof.
  intros Hrun Hflag. unfold get_indels in Hrun.
  destruct (get_indels_chroms_flag _ _ _ _ _ Hrun Hflag) as [Hempty|(m & al & Hm & Hal)].
  - by rewrite indel_flag_empty in Hempty.
  - apply elem_of_map_to_list in Hm. apply elem_of_map_to_list in Hal.
    unfold snp_chrom. rewrite Hm. cbn. by exists al.
Qed.

(** ** Reads that overlap no variant *)

(** The aligned pairs [pairs] cover the reference position [p]. *)
Definition covers (pairs : list (nat * option Z)) (p : Z) : Prop :=
  ∃ read_pos, (read_pos, Some p) ∈ pairs.

(** Some aligned position is a key of the chromosome's variant dict. *)
Definition overlaps_variant (snps : gmap Z seq_t) (pairs : list (nat * option Z)) : Prop :=
  ∃ p, covers pairs p ∧ is_Some (snps !! p).

(** The code after the loop of [get_read_seqs]. *)
Definition tally (seqs : list seq_t) (d : Counter) : list seq_t * Counter :=
  if decide (length seqs = 1) then (seqs, incr "no_snps" d) else (seqs, incr "has_snps" d).

Lemma get_read_seqs_loop_nil read_seq snps indel seqs d :
  get_read_seqs_loop read_seq snps indel [] seqs d = Some (tally seqs d).
Proof. unfold tally. cbn. by case_decide. Qed.

Lemma covers_cons_inv pair pairs p :
  covers pairs p → covers (pair :: pairs) p.
Proof. intros [rp H]. exists rp. apply elem_of_cons. by right. Qed.

Lemma covers_here read_pos p pairs : covers ((read_pos, Some p) :: pairs) p.
Proof. exists read_pos. apply elem_of_cons. by left. Qed.

Lemma get_read_seqs_loop_plain read_seq snps indel pairs seqs d :
  (∀ p, covers pairs p → snps !! p = None ∧ indel p = false) →
  length seqs ≤ MAX_SEQS_PER_READ →
  get_read_seqs_loop read_seq snps indel pairs seqs d = Some (tally seqs d).
Proof.
  intros Hplain Hlen. induction pairs as [|[read_pos [p|]] rest IH].
  - apply get_read_seqs_loop_nil.
  - destruct (Hplain p (covers_here _ _ _)) as [Hsnp Hind].
    cbn [get_read_seqs_loop]. rewrite Hind, Hsnp.
    rewrite decide_False by lia.
    apply IH. intros q Hq. apply Hplain. by apply covers_cons_inv.
  - cbn [get_read_seqs_loop].
    apply IH. intros q Hq. apply Hplain. by apply covers_cons_inv.
Qed.

Lemma scan_mate_plain slot snps_chrom indel pairs snps read_posns :
  (∀ p, covers pairs p → snps_chrom !! p = None ∧ indel p = false) →
  scan_mate slot snps_chrom indel pairs snps read_posns = Some (snps, read_posns).
Proof.
  intros Hplain. induction pairs as [|[read_pos [p|]] rest IH]; [done| |].
  - destruct (Hplain p (covers_here _ _ _)) as [Hsnp Hind].
    cbn [scan_mate]. rewrite Hind, Hsnp.
    apply IH. intros q Hq. apply Hplain. by apply covers_cons_inv.
  - cbn [scan_mate].
    apply IH. intros q Hq. apply Hplain. by apply covers_cons_inv.
Qed.

Lemma no_overlap_plain snp_dict indel_dict chrom pairs :
  get_indels snp_dict = Some indel_dict →
  ¬ overlaps_variant (snp_chrom snp_dict chrom) pairs →
  ∀ p, covers pairs p →
    snp_chrom snp_dict chrom !! p = None ∧ indel_flag indel_dict chrom p = false.
Proof.
  intros Hind Hno p Hp.
  assert (snp_chrom snp_dict chrom !! p = None) as Hnone.
  { apply eq_None_not_Some. intros Hsome. apply Hno. by exists p. }
  split; [done|].
  destruct (indel_flag indel_dict chrom p) eqn:Hflag; [|done].
  apply (get_indels_flag _ _ _ _ Hind) in Hflag.
  rewrite Hnone in Hflag. by destruct Hflag.
Qed.

(** C6: with the indel table built from the variant dict by [get_indels],
    a single-end read none of whose aligned positions is a key of its
    chromosome's variants gets the one-entry list holding its own sequence,
    and [no_snps] is incremented; so does a mate pair neither of whose mates
    covers a variant of mate 1's chromosome (the chromosome the generator
    looks both mates up in): each mate's list is its own sequence alone. *)
Theorem no_variant_single_candidate (snp_dict : SnpDict) (indel_dict : IndelDict)
    (Hindels : get_indels snp_dict = Some indel_dict) :
  (∀ read d,
     ¬ overlaps_variant (snp_chrom snp_dict (reference_name read)) (aligned_pairs read) →
     get_read_seqs read snp_dict indel_dict d = Some ([seq read], incr "no_snps" d))
  ∧
  (∀ read1 read2 d,
     ¬ overlaps_variant (snp_chrom snp_dict (reference_name read1)) (aligned_pairs read1) →
     ¬ overlaps_variant (snp_chrom snp_dict (reference_name read1)) (aligned_pairs read2) →
     get_dual_read_seqs read1 read2 snp_dict indel_dict d
     = Some ([seq read1], [seq read2], incr "no_snps" d)).
Proof.
  split.
  - intros read d Hno. unfold get_read_seqs.
    rewrite get_read_seqs_loop_plain.
    + done.
    + by apply no_overlap_plain.
    + cbn. unfold MAX_SEQS_PER_READ. lia.
  - intros read1 read2 d Hno1 Hno2. unfold get_dual_read_seqs.
    rewrite scan_mate_plain by (by apply no_overlap_plain).
    rewrite scan_mate_plain by (by apply no_overlap_plain).
    done.
Qed.

(** ** One biallelic SNP under a single-end read *)

Lemma expand_alleles_biallelic read_pos base other alleles s :
  base ≠ other →
  alleles = [base; other] ∨ alleles = [other; base] →
  expand_alleles read_pos base alleles [s] = [s; subst_at read_pos other s].
Proof.
  intros Hne [-> | ->]; unfold expand_alleles; cbn [foldl].
  - rewrite (decide_True (P := base = base)) by done.
    by rewrite (decide_False (P := other = base)) by congruence.
  - rewrite (decide_False (P := other = base)) by congruence.
    by rewrite (decide_True (P := base = base)) by done.
Qed.

Lemma get_read_seqs_loop_app_plain read_seq snps indel pre post seqs d :
  (∀ p, covers pre p → snps !! p = None ∧ indel p = false) →
  length seqs ≤ MAX_SEQS_PER_READ →
  get_read_seqs_loop read_seq snps indel (pre ++ post) seqs d
  = get_read_seqs_loop read_seq snps indel post seqs d.
Proof.
  intros Hplain Hlen. induction pre as [|[read_pos [p|]] rest IH]; [done| |].
  - destruct (Hplain p (covers_here _ _ _)) as [Hsnp Hind].
    cbn [app get_read_seqs_loop]. rewrite Hind, Hsnp.
    rewrite decide_False by lia.
    apply IH. intros q Hq. apply Hplain. by apply covers_cons_inv.
  - cbn [app get_read_seqs_loop].
    apply IH. intros q Hq. apply Hplain. by apply covers_cons_inv.
Qed.

(** C7: a single-end read whose aligned pairs meet the variant dict at one
    pair only, [(read_pos, p)], where [p] is not indel-flagged and carries two
    different allele symbols of which one is the base the read shows at
    [read_pos], gets exactly two candidates: its own sequence, then that
    sequence with the other allele at [read_pos]. [has_snps] is incremented
    (after [ref_match], which the matching base increments). *)
Theorem one_biallelic_snp_two_candidates (snp_dict : SnpDict) (indel_dict : IndelDict)
    (read : AlignedSegment) (d : Counter)
    (pre post : list (nat * option Z)) (read_pos : nat) (p : Z)
    (alleles : seq_t) (base other : ascii)
    (Hindels : get_indels snp_dict = Some indel_dict)
    (Hpairs : aligned_pairs read = pre ++ (read_pos, Some p) :: post)
    (Hpre : ¬ overlaps_variant (snp_chrom snp_dict (reference_name read)) pre)
    (Hpost : ¬ overlaps_variant (snp_chrom snp_dict (reference_name read)) post)
    (Hsnp : snp_chrom snp_dict (reference_name read) !! p = Some alleles)
    (Heligible : indel_flag indel_dict (reference_name read) p = false)
    (Hbase : seq read !! read_pos = Some base)
    (Htwo : alleles = [base; other] ∨ alleles = [other; base])
    (Hdiff : base ≠ other) :
  get_read_seqs read snp_dict indel_dict d
  = Some ([seq read; subst_at read_pos other (seq read)],
          incr "has_snps" (incr "ref_match" d)).
Proof.
  unfold get_read_seqs. rewrite Hpairs.
  rewrite get_read_seqs_loop_app_plain;
    [|by apply no_overlap_plain|cbn; unfold MAX_SEQS_PER_READ; lia].
  cbn [get_read_seqs_loop]. rewrite Heligible, Hsnp.
  rewrite decide_False by (cbn; unfold MAX_SEQS_PER_READ; lia).
  rewrite Hbase. cbn [mbind option_bind].
  rewrite bool_decide_eq_true_2
    by (destruct Htwo as [-> | ->]; repeat constructor).
  rewrite (expand_alleles_biallelic _ _ other) by done.
  rewrite get_read_seqs_loop_plain;
    [done|by apply no_overlap_plain|cbn; unfold MAX_SEQS_PER_READ; lia].
Qed.

(** ** Shape of the candidate lists *)

(** Entry 0 is [orig] and every entry is as long as [orig]. *)
Definition shaped (orig : seq_t) (l : list seq_t) : Prop :=
  l !! 0 = Some orig ∧ Forall (λ s, length s = length orig) l.

Lemma length_subst_at read_pos allele (s : seq_t) :
  read_pos < length s → length (subst_at read_pos allele s) = length s.
Proof.
  intros Hlt. unfold subst_at.
  rewrite length_app, length_take. cbn [length]. rewrite length_drop. lia.
Qed.

Lemma shaped_app orig l l' :
  shaped orig l → Forall (λ s, length s = length orig) l' → shaped orig (l ++ l').
Proof.
  intros [Hhd Hall] Hall'. split.
  - rewrite lookup_app_l; [done|]. by apply lookup_lt_Some in Hhd.
  - by apply Forall_app.
Qed.

Lemma expand_alleles_shaped orig read_pos base alleles seqs :
  read_pos < length orig →
  shaped orig seqs → shaped orig (expand_alleles read_pos base alleles seqs).
Proof.
  intros Hlt. unfold expand_alleles. revert seqs.
  induction alleles as [|allele rest IH]; intros seqs Hshaped; [done|].
  cbn [foldl]. apply IH. case_decide; [done|].
  apply shaped_app; [done|].
  apply Forall_fmap. eapply Forall_impl; [apply Hshaped|].
  intros s Hs. cbn in *. rewrite length_subst_at; lia.
Qed.

Lemma get_read_seqs_loop_shaped read_seq snps indel pairs seqs d l d' :
  shaped read_seq seqs →
  get_read_seqs_loop read_seq snps indel pairs seqs d = Some (l, d') →
  l = [] ∨ shaped read_seq l.
Proof.
  revert seqs d. induction pairs as [|[read_pos [p|]] rest IH]; intros seqs d Hshaped Hrun.
  - cbn in Hrun. right. case_decide; by simplify_eq.
  - cbn [get_read_seqs_loop] in Hrun.
    destruct (indel p); [left; by simplify_eq|].
    case_decide; [left; by simplify_eq|].
    destruct (snps !! p) as [alleles|]; [|by eapply IH].
    destruct (read_seq !! read_pos) as [base|] eqn:Hbase; [|done].
    cbn [mbind option_bind] in Hrun.
    case_bool_decide; [|by eapply IH].
    eapply IH; [|done].
    apply expand_alleles_shaped; [|done]. by apply lookup_lt_Some in Hbase.
  - cbn [get_read_seqs_loop] in Hrun. by eapply IH.
Qed.

(** What holds of the allele loop's variables: the rebound sequences satisfy
    [P1], [P2], as the zipped entries do, and what has been appended
    satisfies [Q1], [Q2]. *)
Definition allele_inv (P1 P2 Q1 Q2 : seq_t → Prop) (a : AlleleState) : Prop :=
  P1 (cur1 a) ∧ P2 (cur2 a) ∧ Forall Q1 (new_seqs1 a) ∧ Forall Q2 (new_seqs2 a).

Lemma zip_loop_inv (P1 P2 Q1 Q2 : seq_t → Prop) f1 f2 zs a :
  (∀ x, P1 x → Q1 (f1 x)) →
  (∀ x, P2 x → Q2 (f2 x)) →
  Forall (λ z, P1 z.1 ∧ P2 z.2) zs →
  allele_inv P1 P2 Q1 Q2 a →
  allele_inv P1 P2 Q1 Q2 (zip_loop f1 f2 zs a).
Proof.
  intros Hf1 Hf2 Hzs. unfold zip_loop. revert a.
  induction Hzs as [|[s1 s2] zs [Hs1 Hs2] _ IH]; intros a (Hc1 & Hc2 & Hn1 & Hn2);
    [done|].
  cbn [foldl]. apply IH. cbn in Hs1, Hs2. repeat split; cbn; [done|done| |].
  - apply Forall_app. split; [done|]. apply Forall_singleton. by apply Hf1.
  - apply Forall_app. split; [done|]. apply Forall_singleton. by apply Hf2.
Qed.

Lemma allele_loop_inv (P1 P2 Q1 Q2 : seq_t → Prop) observed f1 f2 zs alleles a a' :
  (∀ s1 s2 b, P1 s1 → P2 s2 → observed s1 s2 = Some b →
     ∀ allele, (∀ x, P1 x → Q1 (f1 allele x)) ∧ (∀ x, P2 x → Q2 (f2 allele x))) →
  Forall (λ z, P1 z.1 ∧ P2 z.2) zs →
  allele_inv P1 P2 Q1 Q2 a →
  allele_loop observed f1 f2 zs alleles a = Some a' →
  allele_inv P1 P2 Q1 Q2 a'.
Proof.
  intros Hobs Hzs. revert a.
  induction alleles as [|allele rest IH]; intros a Hinv Hrun.
  - cbn in Hrun. by simplify_eq.
  - cbn [allele_loop] in Hrun.
    destruct (observed (cur1 a) (cur2 a)) as [base|] eqn:Hbase; [|done].
    cbn [mbind option_bind] in Hrun.
    case_decide; [by eapply IH|].
    eapply IH; [|done].
    destruct Hinv as (Hc1 & Hc2 & Hn1 & Hn2).
    destruct (Hobs _ _ _ Hc1 Hc2 Hbase allele) as [Hf1 Hf2].
    by apply zip_loop_inv.
Qed.

(** The same of the variables of the loop over [snps]. *)
Definition dual_inv (P1 P2 : seq_t → Prop) (st : DualState) : Prop :=
  P1 (seq1 st) ∧ P2 (seq2 st) ∧ Forall P1 (seqs1 st) ∧ Forall P2 (seqs2 st).

Lemma Forall_zip_both (P1 P2 : seq_t → Prop) (l1 l2 : list seq_t) :
  Forall P1 l1 → Forall P2 l2 → Forall (λ z, P1 z.1 ∧ P2 z.2) (zip l1 l2).
Proof.
  intros H1. revert l2. induction H1 as [|x l1 Hx _ IH]; intros l2 H2; [done|].
  destruct H2 as [|y l2 Hy H2]; [done|]. cbn. constructor; [done|]. by apply IH.
Qed.

Lemma extend_state_inv (P1 P2 Q1 Q2 : seq_t → Prop) st a :
  (∀ x, P1 x → Q1 x) → (∀ x, P2 x → Q2 x) →
  dual_inv P1 P2 st → allele_inv P1 P2 Q1 Q2 a →
  dual_inv Q1 Q2 (extend_state st a).
Proof.
  intros H1 H2 (_ & _ & Hs1 & Hs2) (Hc1 & Hc2 & Hn1 & Hn2).
  repeat split; cbn; [by apply H1|by apply H2| |].
  - apply Forall_app. split; [|done]. by eapply Forall_impl.
  - apply Forall_app. split; [|done]. by eapply Forall_impl.
Qed.

(** One iteration of the loop over [snps] that does not return takes a
    state whose sequences satisfy [P1], [P2] to one whose sequences satisfy
    [Q1], [Q2], when a substitution at an offset some [P]-sequence can be
    indexed at leads from [P] to [Q]. The lists only grow. *)
Lemma dual_step_inv (P1 P2 Q1 Q2 : seq_t → Prop) read_posns st ref_pos alleles st' :
  (∀ x, P1 x → Q1 x) → (∀ x, P2 x → Q2 x) →
  (∀ p1 y b, (read_posns_get read_posns ref_pos).1 = Some p1 → P1 y → y !! p1 = Some b →
     ∀ allele x, P1 x → Q1 (subst_at p1 allele x)) →
  (∀ p2 y b, (read_posns_get read_posns ref_pos).2 = Some p2 → P2 y → y !! p2 = Some b →
     ∀ allele x, P2 x → Q2 (subst_at p2 allele x)) →
  dual_inv P1 P2 st →
  dual_step read_posns st (ref_pos, alleles) = Some (StepNext st') →
  dual_inv Q1 Q2 st' ∧
  ∃ new1 new2, seqs1 st' = seqs1 st ++ new1 ∧ seqs2 st' = seqs2 st ++ new2.
Proof.
  intros HPQ1 HPQ2 Hsub1 Hsub2 Hinv Hstep.
  assert (Forall (λ z, P1 z.1 ∧ P2 z.2) (zip (seqs1 st) (seqs2 st))) as Hzs.
  { destruct Hinv as (_ & _ & ? & ?). by apply Forall_zip_both. }
  assert (allele_inv P1 P2 Q1 Q2 (mkAllele (seq1 st) (seq2 st) [] [])) as Ha0.
  { destruct Hinv as (? & ? & _ & _). by repeat split. }
  assert (∀ a, allele_inv P1 P2 Q1 Q2 a →
             dual_inv Q1 Q2 (extend_state st a) ∧
             ∃ new1 new2, seqs1 (extend_state st a) = seqs1 st ++ new1
                          ∧ seqs2 (extend_state st a) = seqs2 st ++ new2) as Hext.
  { intros a Ha. split; [by eapply extend_state_inv|]. by eexists _, _. }
  unfold dual_step in Hstep.
  destruct (read_posns_get read_posns ref_pos) as [[p1|] [p2|]]; cbn in Hsub1, Hsub2.
  - destruct (seq1 st !! p1) as [b1|] eqn:Hb1; [|done].
    destruct (seq2 st !! p2) as [b2|] eqn:Hb2; [|done].
    cbn [mbind option_bind] in Hstep. case_decide; [|done].
    destruct (allele_loop _ _ _ _ _ _) as [a|] eqn:Hloop; [|done].
    cbn in Hstep. simplify_eq. apply Hext.
    eapply allele_loop_inv; [|done|done|done].
    intros s1 s2 b Hs1 Hs2 Hobs allele. split.
    + destruct Hinv as (Hseq1 & _). by apply (Hsub1 p1 (seq1 st) _ eq_refl Hseq1 Hb1).
    + by apply (Hsub2 p2 s2 b).
  - destruct (allele_loop _ _ _ _ _ _) as [a|] eqn:Hloop; [|done].
    cbn in Hstep. simplify_eq. apply Hext.
    eapply allele_loop_inv; [|done|done|done].
    intros s1 s2 b Hs1 Hs2 Hobs allele. split; [by apply (Hsub1 p1 s1 b)|done].
  - destruct (allele_loop _ _ _ _ _ _) as [a|] eqn:Hloop; [|done].
    cbn in Hstep. simplify_eq. apply Hext.
    eapply allele_loop_inv; [|done|done|done].
    intros s1 s2 b Hs1 Hs2 Hobs allele. split; [done|by apply (Hsub2 p2 s2 b)].
  - destruct (allele_loop _ _ _ _ _ _) as [a|] eqn:Hloop; [|done].
    cbn in Hstep. simplify_eq. apply Hext.
    eapply allele_loop_inv; [|done|done|done].
    intros s1 s2 b Hs1 Hs2 Hobs allele. done.
Qed.

Lemma dual_loop_shaped read_posns orig1 orig2 snps st st' :
  length (seq1 st) = length orig1 → length (seq2 st) = length orig2 →
  shaped orig1 (seqs1 st) → shaped orig2 (seqs2 st) →
  dual_loop read_posns snps st = Some (StepNext st') →
  shaped orig1 (seqs1 st') ∧ shaped orig2 (seqs2 st').
Proof.
  revert st. induction snps as [|[ref_pos alleles] rest IH];
    intros st Hl1 Hl2 Hsh1 Hsh2 Hrun.
  - cbn in Hrun. by simplify_eq.
  - cbn [dual_loop] in Hrun.
    destruct (dual_step read_posns st (ref_pos, alleles)) as [[st1|]|] eqn:Hstep;
      [|done|done].
    cbn [mbind option_bind] in Hrun.
    pose (P1 := λ s : seq_t, length s = length orig1).
    pose (P2 := λ s : seq_t, length s = length orig2).
    destruct (dual_step_inv P1 P2 P1 P2 _ _ _ _ _
                ltac:(done) ltac:(done)
                ltac:(by intros p y b _ Hy Hb%lookup_lt_Some allele x Hx;
                      unfold P1 in *; rewrite length_subst_at; lia)
                ltac:(by intros p y b _ Hy Hb%lookup_lt_Some allele x Hx;
                      unfold P2 in *; rewrite length_subst_at; lia)
                ltac:(by destruct Hsh1, Hsh2)
                Hstep) as ((Hc1 & Hc2 & Hall1 & Hall2) & new1 & new2 & Hn1 & Hn2).
    apply (IH st1); [done|done| | |done].
    + split; [|done]. rewrite Hn1. destruct Hsh1 as [Hhd _].
      rewrite lookup_app_l; [done|]. by apply lookup_lt_Some in Hhd.
    + split; [|done]. rewrite Hn2. destruct Hsh2 as [Hhd _].
      rewrite lookup_app_l; [done|]. by apply lookup_lt_Some in Hhd.
Qed.

(** C8: a non-empty list the generator returns starts with the read's own
    sequence and holds only sequences of that length; for a pair this holds
    of each mate's list against that mate's sequence. *)
Theorem candidates_shaped :
  (∀ read snp_dict indel_dict d l d',
     get_read_seqs read snp_dict indel_dict d = Some (l, d') →
     l ≠ [] →
     l !! 0 = Some (seq read) ∧ Forall (λ s, length s = length (seq read)) l)
  ∧
  (∀ read1 read2 snp_dict indel_dict d l1 l2 d',
     get_dual_read_seqs read1 read2 snp_dict indel_dict d = Some (l1, l2, d') →
     (l1 ≠ [] →
      l1 !! 0 = Some (seq read1) ∧ Forall (λ s, length s = length (seq read1)) l1)
     ∧
     (l2 ≠ [] →
      l2 !! 0 = Some (seq read2) ∧ Forall (λ s, length s = length (seq read2)) l2)).
Proof.
  split.
  - intros read snp_dict indel_dict d l d' Hrun Hne. unfold get_read_seqs in Hrun.
    apply get_read_seqs_loop_shaped in Hrun as [->|Hshaped]; [done|done|].
    split; [done|]. by repeat constructor.
  - intros read1 read2 snp_dict indel_dict d l1 l2 d' Hrun.
    unfold get_dual_read_seqs in Hrun.
    destruct (scan_mate false _ _ _ _ _) as [[snps1 posns1]|];
      [|by simplify_eq].
    destruct (scan_mate true _ _ _ _ _) as [[snps posns]|];
      [|by simplify_eq].
    case_decide; [by simplify_eq|].
    destruct (dual_loop _ _ _) as [[st|]|] eqn:Hloop;
      cbn [mbind option_bind] in Hrun; [|by simplify_eq|done].
    apply (dual_loop_shaped _ (seq read1) (seq read2)) in Hloop
      as [Hsh1 Hsh2]; [|done|done|split; [done|by repeat constructor]..].
    case_decide; by simplify_eq.
Qed.

(** ** Emission of the synthetic records *)

Lemma foldl_mul_acc (a : nat) (l : list nat) : foldl Nat.mul a l = a * foldl Nat.mul 1 l.
Proof.
  revert a. induction l as [|x l IH]; intros a; cbn [foldl]; [lia|].
  rewrite (IH (a * x)), (IH (1 * x)). lia.
Qed.

Lemma product_cons (x : nat) (l : list nat) : product (x :: l) = x * product l.
Proof. unfold product. cbn [foldl]. rewrite foldl_mul_acc. lia. Qed.

Lemma length_it_product {A : Type} (ls : list (list A)) :
  length (it_product ls) = product (length <$> ls).
Proof.
  induction ls as [|l ls IH]; [done|].
  cbn [it_product fmap list_fmap]. rewrite product_cons, <- IH.
  induction l as [|x l IHl]; [done|].
  cbn [mbind list_bind]. rewrite length_app, length_fmap. cbn in IHl. rewrite IHl.
  cbn. lia.
Qed.

Lemma it_product_widths {A : Type} (ls : list (list A)) :
  Forall (λ c, length c = length ls) (it_product ls).
Proof.
  induction ls as [|l ls IH]; [by repeat constructor|].
  cbn [it_product]. apply Forall_bind. apply Forall_forall. intros x _.
  apply Forall_fmap. eapply Forall_impl; [exact IH|].
  intros c Hc. cbn. by rewrite Hc.
Qed.

Lemma it_product_entries {A : Type} (ls : list (list A)) :
  Forall (λ c, Forall2 (λ x l, x ∈ l) c ls) (it_product ls).
Proof.
  induction ls as [|l ls IH]; [by repeat constructor|].
  cbn [it_product]. apply Forall_bind. apply Forall_forall. intros x Hx.
  apply Forall_fmap. eapply Forall_impl; [exact IH|].
  intros c Hc. cbn. by constructor.
Qed.

Lemma write_combo_length loc_line read_seqs reads fqs :
  length (write_combo loc_line read_seqs reads fqs) = length fqs.
Proof.
  revert reads fqs. induction read_seqs as [|s read_seqs IH];
    intros [|read reads] [|fq fqs]; cbn; try done. by rewrite IH.
Qed.

Lemma write_combo_lookup loc_line read_seqs reads fqs k read fq :
  length read_seqs = length reads →
  reads !! k = Some read → fqs !! k = Some fq →
  ∃ s, read_seqs !! k = Some s ∧
       write_combo loc_line read_seqs reads fqs !! k
       = Some (fq ++ [fastq_record loc_line s read]).
Proof.
  revert read_seqs reads fqs.
  induction k as [|k IH]; intros [|s read_seqs] [|r reads] [|f fqs] Hlen Hr Hf;
    cbn in *; try done.
  - simplify_eq. by exists s.
  - apply (IH read_seqs reads fqs); [lia|done|done].
Qed.

Lemma write_combos_lookup loc_line reads combos fqs k read fq :
  Forall (λ c, length c = length reads) combos →
  reads !! k = Some read → fqs !! k = Some fq →
  ∃ chosen,
    Forall2 (λ s c, c !! k = Some s) chosen combos ∧
    foldl (λ fqs c, write_combo loc_line c reads fqs) fqs combos !! k
    = Some (fq ++ ((λ s, fastq_record loc_line s read) <$> chosen)).
Proof.
  intros Hcombos Hread. revert fqs fq.
  induction Hcombos as [|c combos Hc _ IH]; intros fqs fq Hfq.
  - exists []. split; [constructor|]. cbn. by rewrite app_nil_r.
  - cbn [foldl].
    destruct (write_combo_lookup loc_line c reads fqs k read fq Hc Hread Hfq)
      as (s & Hs & Hw).
    destruct (IH _ _ Hw) as (chosen & Hchosen & Hrun).
    exists (s :: chosen). split; [by constructor|].
    rewrite Hrun. cbn [fmap list_fmap]. by rewrite <- app_assoc.
Qed.

(** C5: when the product [n] of the candidate-list lengths lies in
    [2 .. 1024] (and there is one FASTQ file per read, which the function
    asserts), [write_read_seqs] returns 1, appends every original read to the
    remap file and leaves the keep and dropped files alone, and appends to
    the FASTQ file of each read exactly [n - 1] records, one per combination
    of [itertools.product] after the first, in order: the record carries
    that read's sequence of the combination, reverse-complemented when the
    read is on the reverse strand and as it is otherwise, and the read's own
    quality string. All records of the call carry one identifier, with the
    batch number passed in and the count [n - 1]. *)
Theorem remap_emission (both_read_seqs : list (AlignedSegment * list seq_t))
    (fl : Files) (remap_num : nat)
    (Hfiles : length both_read_seqs = length (fastqs fl))
    (Hlow : 1 < product (length <$> both_read_seqs.*2))
    (Hhigh : product (length <$> both_read_seqs.*2) ≤ MAX_SEQS_PER_READ) :
  ∃ loc_line fqs,
    write_read_seqs both_read_seqs fl remap_num
    = Some (1, mkFiles (keep fl) (remap_bam fl ++ both_read_seqs.*1) fqs (dropped fl))
    ∧ loc_remap_num loc_line = remap_num
    ∧ loc_count loc_line = product (length <$> both_read_seqs.*2) - 1
    ∧ length fqs = length (fastqs fl)
    ∧ ∀ k read seqs fq,
        both_read_seqs !! k = Some (read, seqs) →
        fastqs fl !! k = Some fq →
        ∃ chosen,
          fqs !! k
          = Some (fq ++ ((λ s, mkFastq loc_line
                                 (if is_reverse read then reverse_complement s else s)
                                 (qual read)) <$> chosen))
          ∧ length chosen = product (length <$> both_read_seqs.*2) - 1
          ∧ Forall2 (λ s combo, combo !! k = Some s) chosen
              (drop 1 (it_product both_read_seqs.*2))
          ∧ Forall (λ s, s ∈ seqs) chosen.
Proof.
  unfold write_read_seqs.
  destruct both_read_seqs as [|first_pair other_pairs] eqn:Hbrs; [cbn in Hlow; lia|].
  rewrite <- Hbrs in *.
  assert (length both_read_seqs.*1 = length (fastqs fl)) as Hreads
    by (by rewrite length_fmap).
  destruct (decide (length both_read_seqs.*1 = length (fastqs fl))); [|done].
  destruct (decide (_ ∨ _)) as [Hout|_]; [exfalso; lia|].
  destruct (decide (_ = 1)) as [Hone|_]; [exfalso; lia|].
  eexists (mkLoc remap_num _ _ _ (product (length <$> both_read_seqs.*2) - 1)), _.
  split; [reflexivity|]. split; [done|]. split; [done|].
  assert (Forall (λ c, length c = length both_read_seqs.*1)
            (drop 1 (it_product both_read_seqs.*2))) as Hwidths.
  { apply Forall_drop. eapply Forall_impl; [apply it_product_widths|].
    intros c Hc. cbn in Hc. by rewrite Hc, !length_fmap. }
  split.
  - clear Hwidths. generalize (fastqs fl).
    induction (drop 1 (it_product both_read_seqs.*2)) as [|c combos IH];
      intros fqs; [done|].
    cbn [foldl]. by rewrite IH, write_combo_length.
  - intros k read seqs fq Hk Hfq.
    assert (both_read_seqs.*1 !! k = Some read) as Hread.
    { by rewrite list_lookup_fmap, Hk. }
    match goal with
    | |- context [foldl (λ fqs c, write_combo ?loc c _ fqs) _ _] =>
        destruct (write_combos_lookup loc _ _ _ _ _ _ Hwidths Hread Hfq)
          as (chosen & Hchosen & Hrun)
    end.
    exists chosen. split; [exact Hrun|]. split; [|split; [done|]].
    + apply Forall2_length in Hchosen. rewrite Hchosen, length_drop.
      by rewrite length_it_product.
    + assert (both_read_seqs.*2 !! k = Some seqs) as Hseqs.
      { by rewrite list_lookup_fmap, Hk. }
      assert (Forall (λ c, Forall2 (λ x l, x ∈ l) c both_read_seqs.*2)
                (drop 1 (it_product both_read_seqs.*2))) as Hentries.
      { apply Forall_drop, it_product_entries. }
      clear Hrun Hwidths.
      induction Hchosen as [|s c chosen combos Hs _ IH]; [constructor|].
      apply Forall_cons in Hentries as [Hc Hentries].
      constructor; [|by apply IH].
      eapply Forall2_lookup_lr in Hc; [|exact Hs|exact Hseqs]. done.
Qed.

(** ** The scan of a mate's aligned pairs *)

Lemma scan_mate_indel slot snps_chrom indel pairs snps read_posns p :
  covers pairs p → indel p = true →
  scan_mate slot snps_chrom indel pairs snps read_posns = None.
Proof.
  intros [read_pos Hin] Hflag. revert snps read_posns.
  induction pairs as [|[rp [q|]] rest IH]; intros snps read_posns.
  - by apply elem_of_nil in Hin.
  - cbn [scan_mate]. apply elem_of_cons in Hin as [Heq|Hin].
    + simplify_eq. by rewrite Hflag.
    + destruct (indel q); [done|]. destruct (snps_chrom !! q); by apply IH.
  - cbn [scan_mate]. apply elem_of_cons in Hin as [Heq|Hin]; [done|]. by apply IH.
Qed.

Lemma scan_mate_clean slot snps_chrom indel pairs snps read_posns :
  (∀ p, covers pairs p → indel p = false) →
  is_Some (scan_mate slot snps_chrom indel pairs snps read_posns).
Proof.
  revert snps read_posns. induction pairs as [|[rp [q|]] rest IH];
    intros snps read_posns Hclean; [done| |].
  - cbn [scan_mate]. rewrite (Hclean q (covers_here _ _ _)).
    destruct (snps_chrom !! q); apply IH; intros p Hp; apply Hclean;
      by apply covers_cons_inv.
  - cbn [scan_mate]. apply IH. intros p Hp. apply Hclean. by apply covers_cons_inv.
Qed.

Lemma dict_set_keys {V : Type} (k : Z) (v : V) (d : list (Z * V)) :
  (dict_set k v d).*1 = if decide (k ∈ d.*1) then d.*1 else d.*1 ++ [k].
Proof.
  induction d as [|[k0 v0] d IH]; cbn [dict_set].
  - rewrite decide_False; [done|]. apply not_elem_of_nil.
  - destruct (decide (k = k0)) as [->|Hne].
    + rewrite decide_True; [done|]. apply elem_of_cons. by left.
    + change ((k0, v0) :: dict_set k v d).*1 with (k0 :: (dict_set k v d).*1).
      change (((k0, v0) :: d).*1) with (k0 :: d.*1). rewrite IH.
      destruct (decide (k ∈ d.*1)) as [Hin|Hnin].
      * rewrite decide_True; [done|]. apply elem_of_cons. by right.
      * rewrite decide_False; [done|]. rewrite elem_of_cons. tauto.
Qed.

Lemma dict_set_Forall {V : Type} (P : Z * V → Prop) k v d :
  P (k, v) → Forall P d → Forall P (dict_set k v d).
Proof.
  intros Hkv Hd. induction Hd as [|[k0 v0] d H0 Hd IH]; cbn [dict_set].
  - by repeat constructor.
  - case_decide; by constructor.
Qed.

(** What a scan that meets no indel leaves in [snps]: the keys stay
    distinct, the new keys are the covered positions of the variant dict,
    and every key carries its allele string of the variant dict. *)
Lemma scan_mate_snps slot snps_chrom indel pairs snps read_posns snps' read_posns' :
  scan_mate slot snps_chrom indel pairs snps read_posns = Some (snps', read_posns') →
  NoDup snps.*1 →
  Forall (λ e, snps_chrom !! e.1 = Some e.2) snps →
  NoDup snps'.*1
  ∧ Forall (λ e, snps_chrom !! e.1 = Some e.2) snps'
  ∧ ∀ k, k ∈ snps'.*1 ↔ k ∈ snps.*1 ∨ (covers pairs k ∧ is_Some (snps_chrom !! k)).
Proof.
  revert snps read_posns. induction pairs as [|[rp [q|]] rest IH];
    intros snps read_posns Hrun Hnodup Hvals.
  - cbn in Hrun. simplify_eq. split; [done|]. split; [done|].
    intros k. split; [by left|]. intros [?|[[? Hin] _]]; [done|].
    by apply elem_of_nil in Hin.
  - cbn [scan_mate] in Hrun. destruct (indel q); [done|].
    destruct (snps_chrom !! q) as [alleles|] eqn:Hq.
    + apply IH in Hrun as (Hnd & Hv & Hkeys).
      * split; [done|]. split; [done|]. intros k. rewrite Hkeys, dict_set_keys.
        split.
        -- intros [Hk|[Hc Hs]]; [|right; split; [by apply covers_cons_inv|done]].
           case_decide; [by left|].
           apply elem_of_app in Hk as [Hk|Hk]; [by left|].
           apply list_elem_of_singleton in Hk as ->.
           right. split; [apply covers_here|by rewrite Hq].
        -- intros [Hk|[[rp' Hc] Hs]].
           ++ left. case_decide; [done|]. apply elem_of_app. by left.
           ++ apply elem_of_cons in Hc as [Heq|Hc].
              ** simplify_eq. left. case_decide; [done|].
                 apply elem_of_app. right. by apply list_elem_of_singleton.
              ** right. split; [by exists rp'|done].
      * rewrite dict_set_keys. case_decide; [done|].
        apply NoDup_app. split; [done|]. split; [|apply NoDup_singleton].
        intros x Hx Hx'. by apply list_elem_of_singleton in Hx' as ->.
      * by apply dict_set_Forall.
    + apply IH in Hrun as (Hnd & Hv & Hkeys); [|done|done].
      split; [done|]. split; [done|]. intros k. rewrite Hkeys. split.
      * intros [?|[Hc Hs]]; [by left|]. right. split; [by apply covers_cons_inv|done].
      * intros [?|[[rp' Hc] Hs]]; [by left|].
        apply elem_of_cons in Hc as [Heq|Hc].
        -- simplify_eq. rewrite Hq in Hs. by destruct Hs.
        -- right. split; [by exists rp'|done].
  - cbn [scan_mate] in Hrun.
    apply IH in Hrun as (Hnd & Hv & Hkeys); [|done|done].
    split; [done|]. split; [done|]. intros k. rewrite Hkeys. split.
    + intros [?|[Hc Hs]]; [by left|]. right. split; [by apply covers_cons_inv|done].
    + intros [?|[[rp' Hc] Hs]]; [by left|].
      apply elem_of_cons in Hc as [Heq|Hc]; [done|].
      right. split; [by exists rp'|done].
Qed.

(** ** The size of the expansion *)

Lemma product_Permutation (l l' : list nat) : l ≡ₚ l' → product l = product l'.
Proof.
  induction 1 as [|x l l' _ IH|x y l|l l' l'' _ IH1 _ IH2].
  - done.
  - by rewrite !product_cons, IH.
  - rewrite !product_cons. lia.
  - by rewrite IH1.
Qed.

(** [ps] lists, once each, the positions of the chromosome's variants that
    the aligned pairs of the read, or of either mate, cover. *)
Definition overlap_list (snps_chrom : gmap Z seq_t)
    (pairs1 pairs2 : list (nat * option Z)) (ps : list Z) : Prop :=
  NoDup ps ∧
  ∀ p, p ∈ ps ↔ (covers pairs1 p ∨ covers pairs2 p) ∧ is_Some (snps_chrom !! p).

(** The product over the positions [ps] of the length of the allele
    string. *)
Definition combinatorial_size (snps_chrom : gmap Z seq_t) (ps : list Z) : nat :=
  product ((λ p, length (default [] (snps_chrom !! p))) <$> ps).

Lemma scanned_size snps_chrom (snps : list (Z * seq_t)) ps :
  NoDup snps.*1 →
  Forall (λ e, snps_chrom !! e.1 = Some e.2) snps →
  NoDup ps →
  (∀ p, p ∈ snps.*1 ↔ p ∈ ps) →
  product (length <$> snps.*2) = combinatorial_size snps_chrom ps.
Proof.
  intros Hnd Hvals Hps Hsame. unfold combinatorial_size.
  transitivity (product ((λ p, length (default [] (snps_chrom !! p))) <$> snps.*1)).
  - f_equal. clear Hnd Hsame. induction Hvals as [|[k v] snps Hkv _ IH]; [done|].
    cbn in Hkv. cbn [fmap list_fmap snd fst] in *. rewrite Hkv. cbn. by f_equal.
  - apply product_Permutation, fmap_Permutation. by apply NoDup_Permutation.
Qed.

(** The number of alleles of [alleles] that differ from [base]. *)
Definition differing (base : ascii) (alleles : seq_t) : nat :=
  length (filter (λ a, a ≠ base) alleles).

Lemma length_expand_alleles read_pos base alleles seqs :
  length (expand_alleles read_pos base alleles seqs)
  = length seqs * 2 ^ differing base alleles.
Proof.
  unfold expand_alleles, differing. revert seqs.
  induction alleles as [|allele rest IH]; intros seqs; cbn [foldl].
  - cbn. lia.
  - rewrite IH, filter_cons. destruct (decide (allele = base)) as [->|Hne].
    + by rewrite decide_False by (by intros []).
    + rewrite decide_True by done. rewrite length_app, length_fmap.
      cbn [length]. rewrite Nat.pow_succ_r'. lia.
Qed.

(** How often the list of [get_read_seqs] doubles along [pairs]: once for
    each allele that differs from the read's base at a variant position whose
    allele string holds that base. *)
Fixpoint doublings (read_seq : seq_t) (snps : gmap Z seq_t)
    (pairs : list (nat * option Z)) : nat :=
  match pairs with
  | [] => 0
  | (read_pos, Some ref_pos) :: rest =>
      match snps !! ref_pos, read_seq !! read_pos with
      | Some alleles, Some base =>
          if bool_decide (base ∈ alleles)
          then differing base alleles + doublings read_seq snps rest
          else doublings read_seq snps rest
      | _, _ => doublings read_seq snps rest
      end
  | (_, None) :: rest => doublings read_seq snps rest
  end.

(** [d'] differs from [d] in the two bookkeeping tags at most. *)
Definition bookkeeping (d d' : Counter) : Prop :=
  ∀ k, k ≠ "ref_match" → k ≠ "no_match" → count d' k = count d k.

Lemma bookkeeping_refl d : bookkeeping d d.
Proof. by intros k _ _. Qed.

Lemma bookkeeping_ref_match d d' : bookkeeping (incr "ref_match" d) d' → bookkeeping d d'.
Proof. intros H k H1 H2. rewrite H by done. by rewrite count_incr_ne. Qed.

Lemma bookkeeping_no_match d d' : bookkeeping (incr "no_match" d) d' → bookkeeping d d'.
Proof. intros H k H1 H2. rewrite H by done. by rewrite count_incr_ne. Qed.

(** The loop of [get_read_seqs] along a prefix [pre] of the pairs that
    meets no indel and indexes the read in range: either the cap check fires
    inside [pre], or the loop goes on behind [pre] with a list that has
    doubled [doublings pre] times. *)
Lemma get_read_seqs_loop_prefix read_seq snps indel pre rest seqs d :
  (∀ p, covers pre p → indel p = false) →
  (∀ read_pos p, (read_pos, Some p) ∈ pre → read_pos < length read_seq) →
  (∃ d1, bookkeeping d d1
         ∧ get_read_seqs_loop read_seq snps indel (pre ++ rest) seqs d
           = Some ([], incr "toss_manysnps" d1)
         ∧ MAX_SEQS_PER_READ < length seqs * 2 ^ doublings read_seq snps pre)
  ∨
  (∃ seqs' d1, bookkeeping d d1
         ∧ length seqs' = length seqs * 2 ^ doublings read_seq snps pre
         ∧ get_read_seqs_loop read_seq snps indel (pre ++ rest) seqs d
           = get_read_seqs_loop read_seq snps indel rest seqs' d1).
Proof.
  revert seqs d. induction pre as [|[read_pos [p|]] pre IH]; intros seqs d Hclean Hrange.
  - right. exists seqs, d. split; [apply bookkeeping_refl|]. split; [cbn; lia|done].
  - assert (∀ q, covers pre q → indel q = false) as Hclean'.
    { intros q Hq. apply Hclean. by apply covers_cons_inv. }
    assert (∀ rp q, (rp, Some q) ∈ pre → rp < length read_seq) as Hrange'.
    { intros rp q Hq. apply (Hrange rp q). apply elem_of_cons. by right. }
    cbn [app get_read_seqs_loop doublings].
    rewrite (Hclean p (covers_here _ _ _)).
    destruct (decide (MAX_SEQS_PER_READ < length seqs)) as [Hcap|Hcap].
    { left. exists d. split; [apply bookkeeping_refl|]. split; [done|].
      pose proof (Nat.pow_nonzero 2 (doublings read_seq snps ((read_pos, Some p) :: pre))
                    ltac:(lia)). cbn [doublings] in H. nia. }
    destruct (snps !! p) as [alleles|]; [|by apply IH].
    destruct (lookup_lt_is_Some_2 read_seq read_pos) as [base Hbase].
    { apply (Hrange read_pos p). apply elem_of_cons. by left. }
    rewrite Hbase. cbn [mbind option_bind].
    case_bool_decide; [|destruct (IH seqs (incr "no_match" d) Hclean' Hrange')
                         as [(d1 & Hb & Hrun & Hbig)|(seqs' & d1 & Hb & Hlen & Hrun)];
                         [left; exists d1|right; exists seqs', d1];
                         (split; [by apply bookkeeping_no_match|done])].
    destruct (IH (expand_alleles read_pos base alleles seqs) (incr "ref_match" d)
                Hclean' Hrange')
      as [(d1 & Hb & Hrun & Hbig)|(seqs' & d1 & Hb & Hlen & Hrun)].
    + left. exists d1. split; [by apply bookkeeping_ref_match|]. split; [done|].
      rewrite length_expand_alleles in Hbig. rewrite Nat.pow_add_r. lia.
    + right. exists seqs', d1. split; [by apply bookkeeping_ref_match|].
      split; [|done].
      rewrite length_expand_alleles in Hlen. rewrite Nat.pow_add_r. lia.
  - cbn [app get_read_seqs_loop doublings]. apply IH.
    + intros q Hq. apply Hclean. by apply covers_cons_inv.
    + intros rp q Hq. apply (Hrange rp q). apply elem_of_cons. by right.
Qed.

(** ** The cap on the number of candidates *)

(** C2, as the code has it. A mate pair that covers no indel-flagged
    position and whose combinatorial size (the product, over the variant
    positions either mate covers, of the allele-string length) exceeds 1024
    gets two empty lists, and [toss_manysnps] is incremented. For a
    single-end read the cap is on the candidates built so far, tested when a
    further aligned pair is reached: if the pairs [pre] before an aligned
    pair have doubled the list to more than 1024 entries, no
    indel-flagged position is met up to and including that pair, and [pre]
    indexes the read in range, the list returned is empty and
    [toss_manysnps] is incremented, the other tags but the two bookkeeping
    ones keeping their counts. *)
Theorem cap_enforced (snp_dict : SnpDict) (indel_dict : IndelDict) :
  (∀ read1 read2 d ps,
     (∀ p, covers (aligned_pairs read1) p ∨ covers (aligned_pairs read2) p →
           indel_flag indel_dict (reference_name read1) p = false) →
     overlap_list (snp_chrom snp_dict (reference_name read1))
       (aligned_pairs read1) (aligned_pairs read2) ps →
     MAX_SEQS_PER_READ < combinatorial_size (snp_chrom snp_dict (reference_name read1)) ps →
     get_dual_read_seqs read1 read2 snp_dict indel_dict d
     = Some ([], [], incr "toss_manysnps" d))
  ∧
  (∀ read d pre read_pos p post,
     aligned_pairs read = pre ++ (read_pos, Some p) :: post →
     (∀ q, covers (pre ++ [(read_pos, Some p)]) q →
           indel_flag indel_dict (reference_name read) q = false) →
     (∀ rp q, (rp, Some q) ∈ pre → rp < length (seq read)) →
     MAX_SEQS_PER_READ
       < 2 ^ doublings (seq read) (snp_chrom snp_dict (reference_name read)) pre →
     ∃ d', get_read_seqs read snp_dict indel_dict d = Some ([], d')
           ∧ count d' "toss_manysnps" = S (count d "toss_manysnps")
           ∧ ∀ k, k ≠ "toss_manysnps" → k ≠ "ref_match" → k ≠ "no_match" →
                  count d' k = count d k).
Proof.
  split.
  - intros read1 read2 d ps Hclean [Hps Hmem] Hbig. unfold get_dual_read_seqs.
    destruct (scan_mate_clean false (snp_chrom snp_dict (reference_name read1))
                (indel_flag indel_dict (reference_name read1))
                (aligned_pairs read1) [] ∅) as [[snps1 posns1] Hscan1].
    { intros p Hp. apply Hclean. by left. }
    rewrite Hscan1.
    destruct (scan_mate_clean true (snp_chrom snp_dict (reference_name read1))
                (indel_flag indel_dict (reference_name read1))
                (aligned_pairs read2) snps1 posns1) as [[snps posns] Hscan2].
    { intros p Hp. apply Hclean. by right. }
    rewrite Hscan2.
    apply scan_mate_snps in Hscan1 as (Hnd1 & Hv1 & Hk1); [|constructor|constructor].
    apply scan_mate_snps in Hscan2 as (Hnd & Hv & Hk); [|done|done].
    rewrite (scanned_size _ _ ps Hnd Hv Hps).
    + by rewrite decide_True.
    + intros p. rewrite Hk, Hk1, Hmem. split.
      * intros [[Hnil|[? ?]]|[? ?]]; [by apply elem_of_nil in Hnil|split..];
          [by left|done|by right|done].
      * intros [[?|?] ?]; [left; right|right]; by split.
  - intros read d pre read_pos p post Hpairs Hclean Hrange Hbig.
    unfold get_read_seqs. rewrite Hpairs.
    destruct (get_read_seqs_loop_prefix (seq read)
                (snp_chrom snp_dict (reference_name read))
                (indel_flag indel_dict (reference_name read))
                pre ((read_pos, Some p) :: post) [seq read] d)
      as [(d1 & Hb & Hrun & _)|(seqs' & d1 & Hb & Hlen & Hrun)].
    + intros q [rp Hq]. apply Hclean. exists rp. apply elem_of_app. by left.
    + done.
    + exists (incr "toss_manysnps" d1). split; [done|]. split.
      * by rewrite count_incr_eq, Hb.
      * intros k H1 H2 H3. rewrite count_incr_ne by done. by apply Hb.
    + exists (incr "toss_manysnps" d1). rewrite Hrun. cbn [get_read_seqs_loop].
      rewrite (Hclean p).
      2:{ exists read_pos. apply elem_of_app. right. by apply list_elem_of_singleton. }
      rewrite decide_True by (rewrite Hlen; cbn [length]; lia).
      split; [done|]. split.
      * by rewrite count_incr_eq, Hb.
      * intros k H1 H2 H3. rewrite count_incr_ne by done. by apply Hb.
Qed.

(** ** Reads on an indel-flagged position *)

Lemma get_dual_read_seqs_indel read1 read2 snp_dict indel_dict d p :
  covers (aligned_pairs read1) p ∨ covers (aligned_pairs read2) p →
  indel_flag indel_dict (reference_name read1) p = true →
  get_dual_read_seqs read1 read2 snp_dict indel_dict d
  = Some ([], [], incr "toss_indel" d).
Proof.
  intros Hcov Hflag. unfold get_dual_read_seqs.
  destruct (scan_mate false _ _ (aligned_pairs read1) _ _) as [[snps1 posns1]|] eqn:Hscan1;
    [|done].
  destruct (scan_mate true _ _ (aligned_pairs read2) _ _) as [[snps posns]|] eqn:Hscan2;
    [|done].
  destruct Hcov as [Hcov|Hcov].
  - by rewrite (scan_mate_indel _ _ _ _ _ _ p Hcov Hflag) in Hscan1.
  - by rewrite (scan_mate_indel _ _ _ _ _ _ p Hcov Hflag) in Hscan2.
Qed.

(** What the code does on an indel-flagged position. Paired input: when
    either mate covers an indel-flagged position (of mate 1's chromosome),
    the generator returns two empty lists and increments [toss_indel], and
    the step of [assign_reads] that completes the pair appends both original
    reads to the dropped file and writes nothing else. Single-end input: when the
    read meets its first indel-flagged position after pairs [pre] that index
    the read in range, the list returned is empty and exactly one of
    [toss_indel] and [toss_manysnps] is incremented; it is [toss_indel]
    whenever [pre] has not doubled the list beyond 1024 entries. *)
Theorem indel_tossed (snp_dict : SnpDict) (indel_dict : IndelDict) :
  (∀ read1 read2 d p,
     covers (aligned_pairs read1) p ∨ covers (aligned_pairs read2) p →
     indel_flag indel_dict (reference_name read1) p = true →
     get_dual_read_seqs read1 read2 snp_dict indel_dict d
     = Some ([], [], incr "toss_indel" d)
     ∧ ∀ st read other,
         is_proper_pair read = true →
         is_read1 read = negb (is_read2 read) →
         slot_get (is_read1 read) (unpaired_reads st) !! qname read = Some other →
         length (fastq_files st) = 2 →
         (read1, read2) = (if is_read2 read then (other, read) else (read, other)) →
         ∃ unpaired,
           assign_step snp_dict indel_dict true st read
           = Some (mkRun unpaired (incr "toss_indel" (read_results st)) (remap_num st)
                     (keep_file st) (remap_file st)
                     (dropped_bam st ++ [read1; read2]) (fastq_files st)))
  ∧
  (∀ read d pre read_pos p post,
     aligned_pairs read = pre ++ (read_pos, Some p) :: post →
     indel_flag indel_dict (reference_name read) p = true →
     (∀ q, covers pre q → indel_flag indel_dict (reference_name read) q = false) →
     (∀ rp q, (rp, Some q) ∈ pre → rp < length (seq read)) →
     ∃ d', get_read_seqs read snp_dict indel_dict d = Some ([], d')
           ∧ ((count d' "toss_indel" = S (count d "toss_indel")
               ∧ count d' "toss_manysnps" = count d "toss_manysnps")
              ∨ (count d' "toss_manysnps" = S (count d "toss_manysnps")
                 ∧ count d' "toss_indel" = count d "toss_indel"))
           ∧ (2 ^ doublings (seq read) (snp_chrom snp_dict (reference_name read)) pre
                ≤ MAX_SEQS_PER_READ →
              count d' "toss_indel" = S (count d "toss_indel"))).
Proof.
  split.
  - intros read1 read2 d p Hcov Hflag.
    split; [by eapply get_dual_read_seqs_indel|].
    intros st read other Hproper Hroles Hother Hfq Hmates.
    unfold assign_step. cbn [negb]. rewrite Hproper, Hother.
    rewrite Hroles in *.
    destruct (is_read2 read); cbn [negb slot_set slot_get fst snd mbind option_bind];
      simplify_eq;
      rewrite (get_dual_read_seqs_indel _ _ _ _ _ p Hcov Hflag);
      cbn [mbind option_bind]; unfold write_read_seqs;
      cbn [fmap list_fmap fst snd length fastqs dropped keep remap_bam];
      rewrite Hfq; cbn;
      (destruct (decide (2 = 2)); [|done]);
      (destruct (decide (0 = 0 ∨ _)) as [_|Hn]; [|exfalso; apply Hn; by left]);
      cbn; rewrite Nat.add_0_r; by eexists.
  - intros read d pre read_pos p post Hpairs Hflag Hclean Hrange.
    unfold get_read_seqs. rewrite Hpairs.
    destruct (get_read_seqs_loop_prefix (seq read)
                (snp_chrom snp_dict (reference_name read))
                (indel_flag indel_dict (reference_name read))
                pre ((read_pos, Some p) :: post) [seq read] d Hclean Hrange)
      as [(d1 & Hb & Hrun & Hbig)|(seqs' & d1 & Hb & Hlen & Hrun)].
    + exists (incr "toss_manysnps" d1). split; [done|]. split.
      * right. rewrite count_incr_eq, count_incr_ne by done. by rewrite !Hb.
      * cbn [length] in Hbig. lia.
    + exists (incr "toss_indel" d1). rewrite Hrun. cbn [get_read_seqs_loop].
      rewrite Hflag. split; [done|].
      assert (count (incr "toss_indel" d1) "toss_indel" = S (count d "toss_indel"))
        as Hcount by (by rewrite count_incr_eq, Hb).
      split; [|done]. left. split; [done|].
      rewrite count_incr_ne by done. by apply Hb.
Qed.

(** ** Mates that disagree on a shared position *)

Lemma read_posns_get_set slot k rp (read_posns : ReadPosns) k' :
  read_posns_get (read_posns_set slot k rp read_posns) k'
  = if decide (k = k') then slot_set slot (Some rp) (read_posns_get read_posns k)
    else read_posns_get read_posns k'.
Proof.
  unfold read_posns_set.
  destruct (read_posns_get read_posns k) as [p1 p2] eqn:Hget.
  unfold read_posns_get at 1. case_decide as Hk.
  - subst k'. rewrite lookup_insert_eq. by destruct slot.
  - by rewrite lookup_insert_ne.
Qed.

(** What a scan that meets no indel leaves in [read_posns]: the other
    mate's offsets are untouched; an offset recorded for this mate was there
    before or comes from one of its aligned pairs on a variant; every
    covered variant position has an offset, and none is lost. *)
Lemma scan_mate_posns slot snps_chrom indel pairs snps read_posns snps' read_posns' :
  scan_mate slot snps_chrom indel pairs snps read_posns = Some (snps', read_posns') →
  (∀ k, slot_get (negb slot) (read_posns_get read_posns' k)
        = slot_get (negb slot) (read_posns_get read_posns k))
  ∧ (∀ k rp, slot_get slot (read_posns_get read_posns' k) = Some rp →
       slot_get slot (read_posns_get read_posns k) = Some rp ∨ (rp, Some k) ∈ pairs)
  ∧ (∀ k, covers pairs k → is_Some (snps_chrom !! k) →
       is_Some (slot_get slot (read_posns_get read_posns' k)))
  ∧ (∀ k, is_Some (slot_get slot (read_posns_get read_posns k)) →
       is_Some (slot_get slot (read_posns_get read_posns' k))).
Proof.
  revert snps read_posns. induction pairs as [|[rp [q|]] rest IH];
    intros snps read_posns Hrun.
  - cbn in Hrun. simplify_eq. repeat split; try done.
    + intros k rp Hk. by left.
    + intros k [rp Hin]. by apply elem_of_nil in Hin.
  - cbn [scan_mate] in Hrun. destruct (indel q); [done|].
    destruct (snps_chrom !! q) as [alleles|] eqn:Hq.
    + apply IH in Hrun as (Hother & Hfrom & Hcov & Hkeep).
      assert (∀ k, is_Some (slot_get slot (read_posns_get read_posns k)) →
                   is_Some (slot_get slot
                              (read_posns_get (read_posns_set slot q rp read_posns) k)))
        as Hstep.
      { intros k Hk. rewrite read_posns_get_set. case_decide; [|done].
        by destruct slot. }
      repeat split.
      * intros k. rewrite Hother, read_posns_get_set. case_decide; [|done].
        subst k. by destruct slot.
      * intros k rp' Hk. apply Hfrom in Hk as [Hk|Hk].
        -- rewrite read_posns_get_set in Hk. case_decide.
           ++ subst k. right. apply elem_of_cons. left.
              destruct slot; cbn in Hk; by simplify_eq.
           ++ by left.
        -- right. apply elem_of_cons. by right.
      * intros k [rp' Hin] Hsome. apply elem_of_cons in Hin as [Heq|Hin].
        -- simplify_eq. apply Hkeep. rewrite read_posns_get_set.
           rewrite decide_True by done. by destruct slot.
        -- apply Hcov; [by exists rp'|done].
      * intros k Hk. by apply Hkeep, Hstep.
    + apply IH in Hrun as (Hother & Hfrom & Hcov & Hkeep). repeat split; [done| | |done].
      * intros k rp' Hk. apply Hfrom in Hk as [Hk|Hk]; [by left|].
        right. apply elem_of_cons. by right.
      * intros k [rp' Hin] Hsome. apply elem_of_cons in Hin as [Heq|Hin].
        -- simplify_eq. rewrite Hq in Hsome. by destruct Hsome.
        -- apply Hcov; [by exists rp'|done].
  - cbn [scan_mate] in Hrun.
    apply IH in Hrun as (Hother & Hfrom & Hcov & Hkeep). repeat split; [done| | |done].
    + intros k rp' Hk. apply Hfrom in Hk as [Hk|Hk]; [by left|].
      right. apply elem_of_cons. by right.
    + intros k [rp' Hin] Hsome. apply elem_of_cons in Hin as [Heq|Hin]; [done|].
      apply Hcov; [by exists rp'|done].
Qed.

Lemma allele_loop_total (P1 P2 : seq_t → Prop) observed f1 f2 zs alleles a :
  (∀ s1 s2, P1 s1 → P2 s2 → is_Some (observed s1 s2)) →
  Forall (λ z, P1 z.1 ∧ P2 z.2) zs →
  P1 (cur1 a) → P2 (cur2 a) →
  is_Some (allele_loop observed f1 f2 zs alleles a).
Proof.
  intros Hobs Hzs. revert a.
  induction alleles as [|allele rest IH]; intros a Hc1 Hc2; [done|].
  cbn [allele_loop]. destruct (Hobs _ _ Hc1 Hc2) as [base ->].
  cbn [mbind option_bind]. case_decide; [by apply IH|].
  assert (allele_inv P1 P2 (λ _, True) (λ _, True)
            (zip_loop (f1 allele) (f2 allele) zs a)) as (? & ? & _).
  { apply zip_loop_inv; [done|done|done|].
    repeat split; [done|done|by apply Forall_true..]. }
  by apply IH.
Qed.

(** The offsets that the entries of [snps] have in one mate. *)
Definition offsets (slot : bool) (read_posns : ReadPosns) (snps : list (Z * seq_t))
    : list nat :=
  omap (λ e, slot_get slot (read_posns_get read_posns e.1)) snps.

(** [x] is as long as [orig] and shows [orig]'s symbols at the offsets
    [offs]. *)
Definition agrees (orig : seq_t) (offs : list nat) (x : seq_t) : Prop :=
  length x = length orig ∧ ∀ r, r ∈ offs → x !! r = orig !! r.

(** The entry has an offset in some mate, and its offsets index the mates
    in range. *)
Definition entry_ok (read_posns : ReadPosns) (n1 n2 : nat) (e : Z * seq_t) : Prop :=
  (is_Some (read_posns_get read_posns e.1).1 ∨ is_Some (read_posns_get read_posns e.1).2)
  ∧ (∀ r, (read_posns_get read_posns e.1).1 = Some r → r < n1)
  ∧ (∀ r, (read_posns_get read_posns e.1).2 = Some r → r < n2).

Lemma subst_at_lookup_ne r i allele (x : seq_t) :
  r < length x → i ≠ r → subst_at r allele x !! i = x !! i.
Proof.
  intros Hlt Hne. unfold subst_at. rewrite <- insert_take_drop by done.
  by apply list_lookup_insert_ne.
Qed.

Lemma dual_inv_impl (P1 P2 P1' P2' : seq_t → Prop) st :
  (∀ x, P1 x → P1' x) → (∀ x, P2 x → P2' x) →
  dual_inv P1 P2 st → dual_inv P1' P2' st.
Proof.
  intros H1 H2 (? & ? & ? & ?). repeat split; [by apply H1|by apply H2| |].
  - by eapply Forall_impl.
  - by eapply Forall_impl.
Qed.

Lemma dual_step_total read_posns n1 n2 st entry :
  entry_ok read_posns n1 n2 entry →
  dual_inv (λ s, length s = n1) (λ s, length s = n2) st →
  is_Some (dual_step read_posns st entry).
Proof.
  destruct entry as [k v]. intros (Hsome & Hr1 & Hr2) Hinv. cbn in Hsome, Hr1, Hr2.
  assert (Forall (λ z : seq_t * seq_t, length z.1 = n1 ∧ length z.2 = n2)
            (zip (seqs1 st) (seqs2 st))) as Hzs.
  { destruct Hinv as (_ & _ & ? & ?).
    by apply (Forall_zip_both (λ s, length s = n1) (λ s, length s = n2)). }
  destruct Hinv as (Hc1 & Hc2 & _ & _).
  unfold dual_step.
  destruct (read_posns_get read_posns k) as [[p1|] [p2|]]; cbn in Hsome, Hr1, Hr2.
  - destruct (lookup_lt_is_Some_2 (seq1 st) p1) as [b1 ->];
      [rewrite Hc1; by apply Hr1|].
    destruct (lookup_lt_is_Some_2 (seq2 st) p2) as [b2 ->];
      [rewrite Hc2; by apply Hr2|].
    cbn [mbind option_bind]. case_decide; [|done].
    destruct (allele_loop_total (λ s, length s = n1) (λ s, length s = n2)
                (λ _ s2 : seq_t, s2 !! p2)
                (λ allele s, subst_at p1 allele s) (λ allele s, subst_at p2 allele s)
                (zip (seqs1 st) (seqs2 st)) v
                (mkAllele (seq1 st) (seq2 st) [] [])) as [a ->]; try done.
    intros s1 s2 _ Hs2. apply lookup_lt_is_Some_2. rewrite Hs2. by apply Hr2.
  - destruct (allele_loop_total (λ s, length s = n1) (λ s, length s = n2)
                (λ s1 _ : seq_t, s1 !! p1)
                (λ allele s, subst_at p1 allele s) (λ _ s, s)
                (zip (seqs1 st) (seqs2 st)) v
                (mkAllele (seq1 st) (seq2 st) [] [])) as [a ->]; try done.
    intros s1 s2 Hs1 _. apply lookup_lt_is_Some_2. rewrite Hs1. by apply Hr1.
  - destruct (allele_loop_total (λ s, length s = n1) (λ s, length s = n2)
                (λ _ s2 : seq_t, s2 !! p2)
                (λ _ s, s) (λ allele s, subst_at p2 allele s)
                (zip (seqs1 st) (seqs2 st)) v
                (mkAllele (seq1 st) (seq2 st) [] [])) as [a ->]; try done.
    intros s1 s2 _ Hs2. apply lookup_lt_is_Some_2. rewrite Hs2. by apply Hr2.
  - destruct Hsome as [[? ?]|[? ?]]; done.
Qed.

(** The loop over [snps] returns on the phase check when some entry has
    offsets in both mates at which the reads' own sequences differ, as long
    as no two entries share an offset in a mate: the sequences built so far
    still show the reads' own symbols at the offsets that remain. *)
Lemma dual_loop_anomalous read_posns orig1 orig2 snps st k v r1 r2 b1 b2 :
  NoDup (offsets false read_posns snps) →
  NoDup (offsets true read_posns snps) →
  Forall (entry_ok read_posns (length orig1) (length orig2)) snps →
  dual_inv (agrees orig1 (offsets false read_posns snps))
           (agrees orig2 (offsets true read_posns snps)) st →
  (k, v) ∈ snps →
  read_posns_get read_posns k = (Some r1, Some r2) →
  orig1 !! r1 = Some b1 → orig2 !! r2 = Some b2 → b1 ≠ b2 →
  dual_loop read_posns snps st = Some StepAnomalous.
Proof.
  intros Hnd1 Hnd2 Hok Hinv Hin Hposns Hb1 Hb2 Hne. revert st Hnd1 Hnd2 Hinv.
  induction Hok as [|[k0 v0] snps Hok0 Hok IH]; intros st Hnd1 Hnd2 Hinv.
  { by apply elem_of_nil in Hin. }
  cbn [dual_loop].
  apply elem_of_cons in Hin as [Heq|Hin].
  - simplify_eq. unfold dual_step. rewrite Hposns.
    destruct Hinv as ((_ & Ha1) & (_ & Ha2) & _).
    rewrite Ha1, Hb1.
    2:{ unfold offsets. cbn [omap list_omap fst]. rewrite Hposns. cbn.
        apply elem_of_cons. by left. }
    rewrite Ha2, Hb2.
    2:{ unfold offsets. cbn [omap list_omap fst]. rewrite Hposns. cbn.
        apply elem_of_cons. by left. }
    cbn [mbind option_bind]. by rewrite decide_False.
  - destruct (dual_step_total read_posns (length orig1) (length orig2) st (k0, v0) Hok0)
      as [[st'|] Hstep].
    { eapply dual_inv_impl; [| |exact Hinv]; by intros x [? _]. }
    2:{ by rewrite Hstep. }
    rewrite Hstep. cbn [mbind option_bind].
    unfold offsets in Hnd1, Hnd2, Hinv. cbn [omap list_omap fst] in Hnd1, Hnd2, Hinv.
    fold (offsets false read_posns snps) in Hnd1, Hinv.
    fold (offsets true read_posns snps) in Hnd2, Hinv.
    cbn [slot_get] in Hnd1, Hnd2, Hinv.
    eapply dual_step_inv in Hstep as [Hinv' _]; [| | | | |exact Hinv].
    + apply IH; [done| | |exact Hinv'].
      * destruct (read_posns_get read_posns k0).1; [by apply NoDup_cons in Hnd1 as [_ ?]|done].
      * destruct (read_posns_get read_posns k0).2; [by apply NoDup_cons in Hnd2 as [_ ?]|done].
    + intros x [Hlen Hx]. split; [done|]. intros r Hr. apply Hx.
      destruct (read_posns_get read_posns k0).1; [apply elem_of_cons; by right|done].
    + intros x [Hlen Hx]. split; [done|]. intros r Hr. apply Hx.
      destruct (read_posns_get read_posns k0).2; [apply elem_of_cons; by right|done].
    + intros p1 y b Hp1 [Hylen _] Hy%lookup_lt_Some allele x [Hlen Hx].
      rewrite Hp1 in Hnd1, Hx. apply NoDup_cons in Hnd1 as [Hfresh _].
      split; [rewrite length_subst_at; lia|].
      intros r Hr. rewrite subst_at_lookup_ne; [|lia|by intros ->].
      apply Hx. apply elem_of_cons. by right.
    + intros p2 y b Hp2 [Hylen _] Hy%lookup_lt_Some allele x [Hlen Hx].
      rewrite Hp2 in Hnd2, Hx. apply NoDup_cons in Hnd2 as [Hfresh _].
      split; [rewrite length_subst_at; lia|].
      intros r Hr. rewrite subst_at_lookup_ne; [|lia|by intros ->].
      apply Hx. apply elem_of_cons. by right.
Qed.

Lemma NoDup_fst_unique {A B : Type} (l : list (A * B)) a b b' :
  NoDup l.*1 → (a, b) ∈ l → (a, b') ∈ l → b = b'.
Proof.
  induction l as [|[a0 b0] l IH]; intros Hnd Hin Hin'.
  - by apply elem_of_nil in Hin.
  - change (((a0, b0) :: l).*1) with (a0 :: l.*1) in Hnd.
    apply NoDup_cons in Hnd as [Hfresh Hnd].
    apply elem_of_cons in Hin as [Heq|Hin]; apply elem_of_cons in Hin' as [Heq'|Hin'];
      simplify_eq.
    + done.
    + exfalso. apply Hfresh. apply list_elem_of_fmap. by exists (a0, b').
    + exfalso. apply Hfresh. apply list_elem_of_fmap. by exists (a0, b).
    + by apply IH.
Qed.

Lemma NoDup_omap_inj {A B : Type} (f : A → option B) (l : list A) :
  NoDup l →
  (∀ x y r, x ∈ l → y ∈ l → f x = Some r → f y = Some r → x = y) →
  NoDup (omap f l).
Proof.
  induction 1 as [|x l Hfresh Hnd IH]; intros Hinj; [constructor|].
  cbn [omap list_omap].
  assert (NoDup (omap f l)) as Hrest.
  { apply IH. intros y z r Hy Hz. apply Hinj; apply elem_of_cons; by right. }
  destruct (f x) as [r|] eqn:Hfx; [|done].
  apply NoDup_cons. split; [|done].
  intros Hr. apply list_elem_of_omap in Hr as (y & Hy & Hfy).
  assert (x = y) as ->; [|done].
  apply (Hinj x y r); [apply elem_of_cons; by left|apply elem_of_cons; by right|done..].
Qed.

(** The aligned pairs are those of an alignment: no query offset and no
    reference position occurs twice, and the offsets index the read. *)
Definition well_aligned (read_seq : seq_t) (pairs : list (nat * option Z)) : Prop :=
  NoDup pairs.*1
  ∧ NoDup (omap snd pairs)
  ∧ Forall (λ pair, pair.1 < length read_seq) pairs.

Lemma NoDup_omap_snd_unique (pairs : list (nat * option Z)) rp rp' q :
  NoDup (omap snd pairs) → (rp, Some q) ∈ pairs → (rp', Some q) ∈ pairs → rp = rp'.
Proof.
  induction pairs as [|[r0 [q0|]] pairs IH]; cbn [omap list_omap snd]; intros Hnd Hin Hin'.
  - by apply elem_of_nil in Hin.
  - apply NoDup_cons in Hnd as [Hfresh Hnd].
    assert (∀ r, (r, Some q0) ∈ pairs → False) as Hq0.
    { intros r Hr. apply Hfresh. apply list_elem_of_omap. by exists (r, Some q0). }
    apply elem_of_cons in Hin as [Heq|Hin]; apply elem_of_cons in Hin' as [Heq'|Hin'];
      simplify_eq.
    + done.
    + by destruct (Hq0 rp').
    + by destruct (Hq0 rp).
    + by apply IH.
  - apply elem_of_cons in Hin as [Heq|Hin]; [done|].
    apply elem_of_cons in Hin' as [Heq'|Hin']; [done|]. by apply IH.
Qed.

Lemma covers_omap (pairs : list (nat * option Z)) p :
  covers pairs p ↔ p ∈ omap snd pairs.
Proof.
  rewrite list_elem_of_omap. split.
  - intros [rp Hin]. by exists (rp, Some p).
  - intros ([rp q] & Hin & Hq). cbn in Hq. subst q. by exists rp.
Qed.

(** A test of [overlap_list] that computes. *)
Lemma overlap_list_check snps_chrom pairs1 pairs2 ps :
  NoDup ps →
  Forall (λ p, p ∈ omap snd (pairs1 ++ pairs2) ∧ is_Some (snps_chrom !! p)) ps →
  Forall (λ p, is_Some (snps_chrom !! p) → p ∈ ps) (omap snd (pairs1 ++ pairs2)) →
  overlap_list snps_chrom pairs1 pairs2 ps.
Proof.
  intros Hnd Hin Hall. split; [done|]. intros p.
  rewrite !covers_omap, <- elem_of_app, <- omap_app.
  rewrite Forall_forall in Hin. rewrite Forall_forall in Hall. split.
  - apply Hin.
  - intros [Hcov Hsome]. by apply Hall.
Qed.

(** C4, as the code has it: for a mate pair with well-formed alignments
    that covers no indel-flagged position and whose combinatorial size is
    within the cap, if both mates cover a variant position [p] and show
    different bases there, the generator returns two empty lists and
    increments [toss_anomalous_phase]. *)
Theorem phase_disagreement_tossed (snp_dict : SnpDict) (indel_dict : IndelDict)
    (read1 read2 : AlignedSegment) (d : Counter) (ps : list Z)
    (p : Z) (rp1 rp2 : nat) (b1 b2 : ascii)
    (Hwf1 : well_aligned (seq read1) (aligned_pairs read1))
    (Hwf2 : well_aligned (seq read2) (aligned_pairs read2))
    (Hclean : ∀ q, covers (aligned_pairs read1) q ∨ covers (aligned_pairs read2) q →
                   indel_flag indel_dict (reference_name read1) q = false)
    (Hps : overlap_list (snp_chrom snp_dict (reference_name read1))
             (aligned_pairs read1) (aligned_pairs read2) ps)
    (Hcap : combinatorial_size (snp_chrom snp_dict (reference_name read1)) ps
            ≤ MAX_SEQS_PER_READ)
    (Hp1 : (rp1, Some p) ∈ aligned_pairs read1)
    (Hp2 : (rp2, Some p) ∈ aligned_pairs read2)
    (Hvariant : is_Some (snp_chrom snp_dict (reference_name read1) !! p))
    (Hb1 : seq read1 !! rp1 = Some b1)
    (Hb2 : seq read2 !! rp2 = Some b2)
    (Hdiff : b1 ≠ b2) :
  get_dual_read_seqs read1 read2 snp_dict indel_dict d
  = Some ([], [], incr "toss_anomalous_phase" d).
Proof.
  destruct Hwf1 as (Hq1 & Href1 & Hin1). destruct Hwf2 as (Hq2 & Href2 & Hin2).
  pose proof (λ rp rp' q, NoDup_omap_snd_unique _ rp rp' q Href1) as Hfun1.
  pose proof (λ rp rp' q, NoDup_omap_snd_unique _ rp rp' q Href2) as Hfun2.
  rewrite Forall_forall in Hin1. rewrite Forall_forall in Hin2.
  destruct Hps as [Hpsnd Hpsmem].
  unfold get_dual_read_seqs.
  set (snps_chrom := snp_chrom snp_dict (reference_name read1)) in *.
  set (indel := indel_flag indel_dict (reference_name read1)) in *.
  destruct (scan_mate_clean false snps_chrom indel (aligned_pairs read1) [] ∅)
    as [[snps1 posns1] Hscan1].
  { intros q Hq. apply Hclean. by left. }
  rewrite Hscan1.
  destruct (scan_mate_clean true snps_chrom indel (aligned_pairs read2) snps1 posns1)
    as [[snps posns] Hscan2].
  { intros q Hq. apply Hclean. by right. }
  rewrite Hscan2.
  destruct (scan_mate_snps _ _ _ _ _ _ _ _ Hscan1) as (Hnd1 & Hv1 & Hk1);
    [constructor|constructor|].
  destruct (scan_mate_snps _ _ _ _ _ _ _ _ Hscan2) as (Hnd & Hv & Hk); [done|done|].
  destruct (scan_mate_posns _ _ _ _ _ _ _ _ Hscan1) as (Ho1 & Hf1 & Hc1 & _).
  destruct (scan_mate_posns _ _ _ _ _ _ _ _ Hscan2) as (Ho2 & Hf2 & Hc2 & _).
  cbn [negb slot_get] in Ho1, Hf1, Hc1, Ho2, Hf2, Hc2.
  assert (∀ k, k ∈ snps.*1 ↔ k ∈ ps) as Hkeys.
  { intros k. rewrite Hk, Hk1, Hpsmem. split.
    - intros [[Hnil|[? ?]]|[? ?]]; [by apply elem_of_nil in Hnil|split..];
        [by left|done|by right|done].
    - intros [[?|?] ?]; [left; right|right]; by split. }
  assert (∀ k rp, (read_posns_get posns k).1 = Some rp → (rp, Some k) ∈ aligned_pairs read1)
    as D1.
  { intros k rp Hrp. rewrite Ho2 in Hrp. by apply Hf1 in Hrp as [Hrp|Hrp]. }
  assert (∀ k rp, (read_posns_get posns k).2 = Some rp → (rp, Some k) ∈ aligned_pairs read2)
    as D2.
  { intros k rp Hrp. apply Hf2 in Hrp as [Hrp|Hrp]; [|done]. by rewrite Ho1 in Hrp. }
  rewrite (scanned_size snps_chrom snps ps Hnd Hv Hpsnd Hkeys).
  rewrite decide_False by lia.
  assert (p ∈ snps.*1) as Hpkey.
  { apply Hkeys, Hpsmem. split; [left; by exists rp1|done]. }
  apply list_elem_of_fmap in Hpkey as ([p' v] & Heq & Hpin). cbn in Heq. subst p'.
  destruct (Hc1 p) as [r1 Hr1]; [by exists rp1|done|]. rewrite <- Ho2 in Hr1.
  destruct (Hc2 p) as [r2 Hr2]; [by exists rp2|done|].
  assert (r1 = rp1) as -> by (eapply Hfun1; [by apply D1|done]).
  assert (r2 = rp2) as -> by (eapply Hfun2; [by apply D2|done]).
  assert (NoDup snps) as Hsnps by (by eapply NoDup_fmap_1).
  assert (∀ x y : Z * seq_t, x ∈ snps → y ∈ snps → x.1 = y.1 → x = y) as Hkeyinj.
  { intros [k1 v1] [k2 v2] Hx Hy Heq. cbn in Heq. subst k2. f_equal.
    by eapply NoDup_fst_unique. }
  rewrite (dual_loop_anomalous posns (seq read1) (seq read2) snps _ p v rp1 rp2 b1 b2);
    [done| | | | |done| |done|done|done].
  - apply NoDup_omap_inj; [done|]. intros x y r Hx Hy Hfx Hfy.
    apply Hkeyinj; [done|done|]. cbn [slot_get] in Hfx, Hfy.
    apply D1 in Hfx, Hfy.
    pose proof (NoDup_fst_unique _ _ _ _ Hq1 Hfx Hfy). by simplify_eq.
  - apply NoDup_omap_inj; [done|]. intros x y r Hx Hy Hfx Hfy.
    apply Hkeyinj; [done|done|]. cbn [slot_get] in Hfx, Hfy.
    apply D2 in Hfx, Hfy.
    pose proof (NoDup_fst_unique _ _ _ _ Hq2 Hfx Hfy). by simplify_eq.
  - apply Forall_forall. intros [k vk] Hkin. repeat split; cbn [fst].
    + assert (k ∈ ps) as Hkps.
      { apply Hkeys. apply list_elem_of_fmap. by exists (k, vk). }
      apply Hpsmem in Hkps as [[Hcov|Hcov] Hsome].
      * left. rewrite Ho2. by apply Hc1.
      * right. by apply Hc2.
    + intros r Hr. apply D1 in Hr. by apply Hin1 in Hr.
    + intros r Hr. apply D2 in Hr. by apply Hin2 in Hr.
  - repeat split; cbn; by repeat constructor.
  - by destruct (read_posns_get posns p) as [o1 o2]; cbn in *; subst.
Qed.

(** * Concrete runs *)

(** Decides a closed decidable proposition by computation. *)
Ltac by_compute :=
  match goal with |- ?P => apply (bool_decide_unpack P); vm_compute; exact I end.

(** Shows that concrete aligned pairs overlap no variant. *)
Ltac no_overlap :=
  let p := fresh "p" in let rp := fresh "rp" in
  let Hin := fresh "Hin" in let Hsome := fresh "Hsome" in let Heq := fresh "Heq" in
  intros (p & [rp Hin] & Hsome);
  repeat (apply elem_of_cons in Hin as [Heq|Hin];
          [simplify_eq; vm_compute in Hsome; by destruct Hsome|]);
  by apply elem_of_nil in Hin.

(** One SNP on [chr1], at position 99, with the alleles A and G. *)
Definition one_snp : SnpDict := {[ "chr1" := {[ 99%Z := str "AG" ]} ]}.

(** The same SNP and a deletion at position 98. *)
Definition snp_and_indel : SnpDict :=
  {[ "chr1" := {[ 99%Z := str "AG"; 98%Z := str "C-" ]} ]}.

Definition indel_at_98 : IndelDict := {[ "chr1" := {[ 98%Z := true ]} ]}.

(** Eleven SNPs with the alleles A and G, at positions 100 to 110, and a
    deletion at position 112. *)
Definition eleven : list Z := [100; 101; 102; 103; 104; 105; 106; 107; 108; 109; 110]%Z.

Definition eleven_snps : SnpDict :=
  {[ "chr1" := list_to_map (((λ p, (p, str "AG")) <$> eleven) ++ [(112%Z, str "T-")]) ]}.

Definition indel_at_112 : IndelDict := {[ "chr1" := {[ 112%Z := true ]} ]}.

Definition no_indels : IndelDict := ∅.
Definition fresh_counter : Counter := ∅.

(** A forward single-end read CCA on positions 97 to 99: it shows A on the
    SNP. *)
Definition snp_read : AlignedSegment :=
  mkRead "r1" (str "CCA") (str "III") "chr1" 97 false false false false
    [(0, Some 97%Z); (1, Some 98%Z); (2, Some 99%Z)].

(** A second single-end read on the SNP, on the reverse strand. *)
Definition snp_read_rev : AlignedSegment :=
  mkRead "r2" (str "CAT") (str "JJJ") "chr1" 98 true false false false
    [(0, Some 98%Z); (1, Some 99%Z); (2, Some 100%Z)].

(** A single-end read on positions 10 to 12, away from every variant. *)
Definition far_read : AlignedSegment :=
  mkRead "r3" (str "GGT") (str "III") "chr1" 10 false false false false
    [(0, Some 10%Z); (1, Some 11%Z); (2, Some 12%Z)].

Definition far_mate : AlignedSegment :=
  mkRead "r3" (str "TTC") (str "JJJ") "chr1" 20 true false true true
    [(0, Some 20%Z); (1, Some 21%Z); (2, Some 22%Z)].

(** A proper pair whose mates both cover the SNP and both show A there:
    mate 1 is CCA on 97 to 99, mate 2 is ATT on 99 to 101, reverse strand. *)
Definition mate1 : AlignedSegment :=
  mkRead "p1" (str "CCA") (str "III") "chr1" 97 false true false true
    [(0, Some 97%Z); (1, Some 98%Z); (2, Some 99%Z)].

Definition mate2 : AlignedSegment :=
  mkRead "p1" (str "ATT") (str "JJJ") "chr1" 99 true false true true
    [(0, Some 99%Z); (1, Some 100%Z); (2, Some 101%Z)].

(** A mate 2 that shows G on the SNP, against mate 1's A. *)
Definition mate2_G : AlignedSegment :=
  mkRead "p1" (str "GTT") (str "JJJ") "chr1" 99 true false true true
    [(0, Some 99%Z); (1, Some 100%Z); (2, Some 101%Z)].

(** Reads of A's over the eleven SNPs: the first ends on the last SNP, the
    second goes one position further, the third two positions further, onto
    the deletion at 112. *)
Definition crowded_pairs (n : nat) : list (nat * option Z) :=
  imap (λ i p, (i, Some p)) (take n (eleven ++ [111; 112]%Z)).

Definition crowded_read (n : nat) : AlignedSegment :=
  mkRead "r4" (replicate n "A"%char) (replicate n "I"%char) "chr1" 100
    false false false false (crowded_pairs n).

(** A mate 1 over the eleven SNPs and a mate 2 that shows G on the first of
    them. *)
Definition crowded_mate1 : AlignedSegment :=
  mkRead "p2" (replicate 11 "A"%char) (replicate 11 "I"%char) "chr1" 100
    false true false true (crowded_pairs 11).

Definition crowded_mate2_G : AlignedSegment :=
  mkRead "p2" (str "G") (str "J") "chr1" 100 true false true true [(0, Some 100%Z)].

Example get_indels_one_snp : get_indels one_snp = Some no_indels.
Proof. vm_compute. reflexivity. Qed.

Example get_indels_snp_and_indel : get_indels snp_and_indel = Some indel_at_98.
Proof. vm_compute. reflexivity. Qed.

Example get_indels_eleven_snps : get_indels eleven_snps = Some indel_at_112.
Proof. vm_compute. reflexivity. Qed.

(** The example of the specification: A on the SNP gives the read and its
    G variant. *)
Example get_read_seqs_snp_read :
  get_read_seqs snp_read one_snp no_indels fresh_counter
  = Some ([str "CCA"; str "CCG"], incr "has_snps" (incr "ref_match" fresh_counter)).
Proof. vm_compute. reflexivity. Qed.

(** The generator builds the two mates' lists in lockstep. *)
Example get_dual_read_seqs_mates :
  get_dual_read_seqs mate1 mate2 one_snp no_indels fresh_counter
  = Some ([str "CCA"; str "CCG"], [str "ATT"; str "GTT"], incr "has_snps" fresh_counter).
Proof. vm_compute. reflexivity. Qed.

(** ** Instances of the theorems *)

Lemma no_variant_single_candidate_witness :
  get_read_seqs far_read one_snp no_indels fresh_counter
  = Some ([str "GGT"], incr "no_snps" fresh_counter)
  ∧ get_dual_read_seqs far_read far_mate one_snp no_indels fresh_counter
    = Some ([str "GGT"], [str "TTC"], incr "no_snps" fresh_counter).
Proof.
  destruct (no_variant_single_candidate one_snp no_indels get_indels_one_snp)
    as [Hsingle Hpair].
  split.
  - apply (Hsingle far_read fresh_counter). no_overlap.
  - apply (Hpair far_read far_mate fresh_counter); no_overlap.
Defined.

Lemma one_biallelic_snp_two_candidates_witness :
  get_read_seqs snp_read one_snp no_indels fresh_counter
  = Some ([str "CCA"; str "CCG"], incr "has_snps" (incr "ref_match" fresh_counter)).
Proof.
  apply (one_biallelic_snp_two_candidates one_snp no_indels snp_read fresh_counter
           [(0, Some 97%Z); (1, Some 98%Z)] [] 2 99%Z (str "AG") "A"%char "G"%char).
  - exact get_indels_one_snp.
  - reflexivity.
  - no_overlap.
  - no_overlap.
  - vm_compute. reflexivity.
  - vm_compute. reflexivity.
  - reflexivity.
  - left. reflexivity.
  - by_compute.
Defined.

Lemma candidates_shaped_witness :
  [str "CCA"; str "CCG"] !! 0 = Some (str "CCA")
  ∧ Forall (λ s : seq_t, length s = 3) [str "CCA"; str "CCG"].
Proof.
  apply (proj1 candidates_shaped snp_read one_snp no_indels fresh_counter
           [str "CCA"; str "CCG"] (incr "has_snps" (incr "ref_match" fresh_counter))).
  - exact get_read_seqs_snp_read.
  - by_compute.
Defined.

(** The files of a paired run before anything is written, with the
    dropped file passed. *)
Definition empty_files : Files := mkFiles [] [] [[]; []] (Some []).

Lemma remap_emission_witness :
  ∃ loc_line,
    write_read_seqs [(mate1, [str "CCA"; str "CCG"]); (mate2, [str "ATT"; str "GTT"])]
      empty_files 1
    = Some (1, mkFiles [] [mate1; mate2]
                 [[mkFastq loc_line (str "CCA") (str "III");
                   mkFastq loc_line (str "CCG") (str "III");
                   mkFastq loc_line (str "CCG") (str "III")];
                  [mkFastq loc_line (str "AAC") (str "JJJ");
                   mkFastq loc_line (str "AAT") (str "JJJ");
                   mkFastq loc_line (str "AAC") (str "JJJ")]]
                 (Some []))
    ∧ loc_remap_num loc_line = 1
    ∧ loc_count loc_line = 3.
Proof.
  destruct (remap_emission
              [(mate1, [str "CCA"; str "CCG"]); (mate2, [str "ATT"; str "GTT"])]
              empty_files 1)
    as (loc_line & fqs & Hrun & Hnum & Hcount & Hlen & Hper).
  - reflexivity.
  - vm_compute. lia.
  - vm_compute. lia.
  - exists loc_line.
    destruct (Hper 0 mate1 [str "CCA"; str "CCG"] [] eq_refl eq_refl)
      as (chosen1 & Hf1 & _ & Hch1 & _).
    destruct (Hper 1 mate2 [str "ATT"; str "GTT"] [] eq_refl eq_refl)
      as (chosen2 & Hf2 & _ & Hch2 & _).
    cbn in Hch1, Hch2.
    apply Forall2_cons_inv_r in Hch1 as (a1 & r1 & Ha1 & Hch1 & ->).
    apply Forall2_cons_inv_r in Hch1 as (a2 & r2 & Ha2 & Hch1 & ->).
    apply Forall2_cons_inv_r in Hch1 as (a3 & r3 & Ha3 & Hch1 & ->).
    apply Forall2_nil_inv_r in Hch1 as ->.
    apply Forall2_cons_inv_r in Hch2 as (b1 & q1 & Hb1 & Hch2 & ->).
    apply Forall2_cons_inv_r in Hch2 as (b2 & q2 & Hb2 & Hch2 & ->).
    apply Forall2_cons_inv_r in Hch2 as (b3 & q3 & Hb3 & Hch2 & ->).
    apply Forall2_nil_inv_r in Hch2 as ->.
    cbn in Ha1, Ha2, Ha3, Hb1, Hb2, Hb3.
    injection Ha1 as <-. injection Ha2 as <-. injection Ha3 as <-.
    injection Hb1 as <-. injection Hb2 as <-. injection Hb3 as <-.
    destruct fqs as [|f1 [|f2 [|f3 fqs]]]; try discriminate Hlen.
    cbn in Hf1, Hf2. injection Hf1 as ->. injection Hf2 as ->.
    split; [exact Hrun|]. split; [exact Hnum|exact Hcount].
Defined.

(** Tests that compute, for hypotheses about every covered position. *)
Lemma covered_all (P : Z → Prop) (pairs : list (nat * option Z)) :
  Forall P (omap snd pairs) → ∀ p, covers pairs p → P p.
Proof. rewrite Forall_forall. intros HP p Hp. by apply HP, covers_omap. Qed.

Lemma covered_all_pair (P : Z → Prop) (pairs1 pairs2 : list (nat * option Z)) :
  Forall P (omap snd (pairs1 ++ pairs2)) → ∀ p, covers pairs1 p ∨ covers pairs2 p → P p.
Proof.
  rewrite Forall_forall. intros HP p Hp. apply HP.
  rewrite omap_app, elem_of_app, <- !covers_omap. done.
Qed.

Lemma in_range_all (n : nat) (pairs : list (nat * option Z)) :
  Forall (λ pair, pair.1 < n) pairs → ∀ rp q, (rp, Some q) ∈ pairs → rp < n.
Proof. rewrite Forall_forall. intros HP rp q Hin. by apply HP in Hin. Qed.

(** A mate 2 that runs over the deletion at 112. *)
Definition mate_on_deletion : AlignedSegment :=
  mkRead "p2" (str "TTT") (str "JJJ") "chr1" 111 true false true true
    [(0, Some 111%Z); (1, Some 112%Z); (2, Some 113%Z)].

(** C2 fails on the code. The read of eleven A's covers the eleven SNPs
    and nothing else, so its combinatorial size is 2048; the cap test of
    [get_read_seqs] runs at the head of each iteration, where the list has
    1024 entries at most, and the generator returns all 2048 candidates under
    [has_snps], with [toss_manysnps] untouched. And the pair of
    [crowded_mate1] with a mate on the deletion at 112 has size 4096, but the
    indel scan comes first: it is counted under [toss_indel]. *)
Lemma cap_counterexample :
  overlap_list (snp_chrom eleven_snps "chr1") (aligned_pairs (crowded_read 11)) [] eleven
  ∧ combinatorial_size (snp_chrom eleven_snps "chr1") eleven = 2048
  ∧ (r ← get_read_seqs (crowded_read 11) eleven_snps indel_at_112 fresh_counter;
     Some (length r.1, count r.2 "toss_manysnps", count r.2 "has_snps"))
    = Some (2048, 0, 1)
  ∧ overlap_list (snp_chrom eleven_snps "chr1")
      (aligned_pairs crowded_mate1) (aligned_pairs mate_on_deletion) (eleven ++ [112%Z])
  ∧ combinatorial_size (snp_chrom eleven_snps "chr1") (eleven ++ [112%Z]) = 4096
  ∧ (r ← get_dual_read_seqs crowded_mate1 mate_on_deletion eleven_snps indel_at_112
           fresh_counter;
     Some (r.1, count r.2 "toss_manysnps", count r.2 "toss_indel"))
    = Some ([], [], 0, 1).
Proof.
  split; [|split; [|split; [|split; [|split]]]].
  - apply overlap_list_check; by_compute.
  - vm_compute. reflexivity.
  - vm_compute. reflexivity.
  - apply overlap_list_check; by_compute.
  - vm_compute. reflexivity.
  - vm_compute. reflexivity.
Qed.

Lemma cap_enforced_witness :
  get_dual_read_seqs crowded_mate1 far_mate eleven_snps indel_at_112 fresh_counter
  = Some ([], [], incr "toss_manysnps" fresh_counter)
  ∧ ∃ d', get_read_seqs (crowded_read 12) eleven_snps indel_at_112 fresh_counter
          = Some ([], d')
          ∧ count d' "toss_manysnps" = 1.
Proof.
  destruct (cap_enforced eleven_snps indel_at_112) as [Hpair Hsingle].
  split.
  - apply (Hpair crowded_mate1 far_mate fresh_counter eleven).
    + apply covered_all_pair. by_compute.
    + apply overlap_list_check; by_compute.
    + vm_compute. lia.
  - destruct (Hsingle (crowded_read 12) fresh_counter (crowded_pairs 11) 11 111%Z [])
      as (d' & Hrun & Hcount & _).
    + reflexivity.
    + apply covered_all. by_compute.
    + apply in_range_all. by_compute.
    + vm_compute. lia.
    + exists d'. split; [exact Hrun|exact Hcount].
Defined.

(** Two single-end runs on an indel-flagged position. The single-end path
    of [assign_reads] passes no dropped file: the read on the deletion at 98
    is counted under [toss_indel] and written nowhere. And the read that runs
    over the eleven SNPs, one plain position and then the deletion at 112 is
    stopped by the cap test at the plain position, before the indel test can
    see position 112: it is counted under [toss_manysnps]. *)
Lemma indel_counterexample :
  (1, Some 98%Z) ∈ aligned_pairs snp_read
  ∧ indel_flag indel_at_98 "chr1" 98 = true
  ∧ (st ← assign_reads [snp_read] snp_and_indel indel_at_98 false;
     Some (count (read_results st) "toss_indel",
           keep_file st, remap_file st, dropped_bam st))
    = Some (1, [], [], [])
  ∧ (12, Some 112%Z) ∈ aligned_pairs (crowded_read 13)
  ∧ indel_flag indel_at_112 "chr1" 112 = true
  ∧ (r ← get_read_seqs (crowded_read 13) eleven_snps indel_at_112 fresh_counter;
     Some (r.1, count r.2 "toss_indel", count r.2 "toss_manysnps"))
    = Some ([], 0, 1).
Proof.
  repeat split; try by_compute; vm_compute; reflexivity.
Qed.

(** The state of a paired run in which [mate1] waits for its mate. *)
Definition mate1_waiting : RunState := mkRun ({[ "p1" := mate1 ]}, ∅) ∅ 1 [] [] [] [[]; []].

Lemma indel_tossed_witness :
  get_dual_read_seqs mate1 mate2 snp_and_indel indel_at_98 fresh_counter
  = Some ([], [], incr "toss_indel" fresh_counter)
  ∧ (∃ unpaired,
       assign_step snp_and_indel indel_at_98 true mate1_waiting mate2
       = Some (mkRun unpaired (incr "toss_indel" fresh_counter) 1 [] [] [mate1; mate2]
                 [[]; []]))
  ∧ ∃ d', get_read_seqs snp_read snp_and_indel indel_at_98 fresh_counter = Some ([], d')
          ∧ count d' "toss_indel" = 1.
Proof.
  destruct (indel_tossed snp_and_indel indel_at_98) as [Hpair Hsingle].
  destruct (Hpair mate1 mate2 fresh_counter 98%Z) as [Hgen Hstep].
  { left. apply covers_omap. by_compute. }
  { vm_compute. reflexivity. }
  split; [exact Hgen|]. split.
  - apply (Hstep mate1_waiting mate2 mate1); reflexivity.
  - destruct (Hsingle snp_read fresh_counter [(0, Some 97%Z)] 1 98%Z [(2, Some 99%Z)])
      as (d' & Hrun & _ & Hindel).
    + reflexivity.
    + vm_compute. reflexivity.
    + apply covered_all. by_compute.
    + apply in_range_all. by_compute.
    + exists d'. split; [exact Hrun|]. apply Hindel. vm_compute. lia.
Defined.

(** C4 fails on the code, twice. Mates that show A and G on the SNP at
    99 while mate 1 also covers the deletion at 98 are counted under
    [toss_indel]; mates that show A and G on the SNP at 100 while mate 1
    covers eleven SNPs are counted under [toss_manysnps]. In both runs
    [toss_anomalous_phase] stays at 0. *)
Lemma phase_counterexample :
  (2, Some 99%Z) ∈ aligned_pairs mate1
  ∧ (0, Some 99%Z) ∈ aligned_pairs mate2_G
  ∧ seq mate1 !! 2 = Some "A"%char
  ∧ seq mate2_G !! 0 = Some "G"%char
  ∧ (r ← get_dual_read_seqs mate1 mate2_G snp_and_indel indel_at_98 fresh_counter;
     Some (r.1, count r.2 "toss_anomalous_phase", count r.2 "toss_indel"))
    = Some ([], [], 0, 1)
  ∧ (0, Some 100%Z) ∈ aligned_pairs crowded_mate1
  ∧ (0, Some 100%Z) ∈ aligned_pairs crowded_mate2_G
  ∧ seq crowded_mate1 !! 0 = Some "A"%char
  ∧ seq crowded_mate2_G !! 0 = Some "G"%char
  ∧ (r ← get_dual_read_seqs crowded_mate1 crowded_mate2_G eleven_snps indel_at_112
           fresh_counter;
     Some (r.1, count r.2 "toss_anomalous_phase", count r.2 "toss_manysnps"))
    = Some ([], [], 0, 1).
Proof.
  repeat split; try by_compute; vm_compute; reflexivity.
Qed.

Lemma phase_disagreement_tossed_witness :
  get_dual_read_seqs mate1 mate2_G one_snp no_indels fresh_counter
  = Some ([], [], incr "toss_anomalous_phase" fresh_counter).
Proof.
  apply (phase_disagreement_tossed one_snp no_indels mate1 mate2_G fresh_counter
           [99%Z] 99%Z 2 0 "A"%char "G"%char).
  - repeat split; by_compute.
  - repeat split; by_compute.
  - apply covered_all_pair. by_compute.
  - apply overlap_list_check; by_compute.
  - vm_compute. lia.
  - by_compute.
  - by_compute.
  - by_compute.
  - reflexivity.
  - reflexivity.
  - by_compute.
Defined.

(** ** Where the code departs from its own description *)

(** C1: the generator builds the two mates' lists entry for entry, as its
    docstring says (overlapping mates get the same substitution), but
    [write_read_seqs] walks [itertools.product] of the two lists and skips
    only the first combination. For the pair [mate1], [mate2] on the SNP at
    99 the lists are [CCA; CCG] and [ATT; GTT]; the run writes three records
    per mate: entry 0 with entry 1, entry 1 with entry 0, entry 1 with entry
    1 (mate 2 is on the reverse strand, so its records are reverse
    complements). The first two pair entries of different index. *)
Theorem cross_paired_emission :
  get_dual_read_seqs mate1 mate2 one_snp no_indels fresh_counter
  = Some ([str "CCA"; str "CCG"], [str "ATT"; str "GTT"], incr "has_snps" fresh_counter)
  ∧ (st ← assign_reads [mate1; mate2] one_snp no_indels true;
     Some (map (map fq_seq) (fastq_files st)))
    = Some [[str "CCA"; str "CCG"; str "CCG"];
            [reverse_complement (str "GTT"); reverse_complement (str "ATT");
             reverse_complement (str "GTT")]].
Proof. split; vm_compute; reflexivity. Qed.

(** A second pair on the SNP, for a run of two pairs. *)
Definition mate1b : AlignedSegment :=
  mkRead "p3" (str "CCA") (str "III") "chr1" 97 false true false true
    [(0, Some 97%Z); (1, Some 98%Z); (2, Some 99%Z)].

Definition mate2b : AlignedSegment :=
  mkRead "p3" (str "ATT") (str "JJJ") "chr1" 99 true false true true
    [(0, Some 99%Z); (1, Some 100%Z); (2, Some 101%Z)].

(** The batch numbers of the records in each FASTQ file of a run. *)
Definition batch_numbers (st : RunState) : list (list nat) :=
  map (map (λ r, loc_remap_num (fq_loc r))) (fastq_files st).

(** The paired path passes [remap_num] and adds the returned 1 to it: the
    two pairs' batches are numbered 1 and 2. *)
Example paired_batches_numbered :
  batch_numbers <$> assign_reads [mate1; mate2; mate1b; mate2b] one_snp no_indels true
  = Some [[1; 1; 1; 2; 2; 2]; [1; 1; 1; 2; 2; 2]].
Proof. vm_compute. reflexivity. Qed.

(** C9: the single-end path calls [write_read_seqs] without [remap_num]
    and drops its result, so every batch carries the default 0: two reads
    on the SNP, both sent to remapping, give two records numbered 0 and 0,
    where the paired path numbers its batches 1, 2, .. *)
Theorem single_end_batches_all_zero :
  (st ← assign_reads [snp_read; snp_read_rev] one_snp no_indels false;
   Some (batch_numbers st, remap_file st, remap_num st))
  = Some ([[0; 0]], [snp_read; snp_read_rev], 1).
Proof. vm_compute. reflexivity. Qed.

(** C3: a read on an indel-flagged position is to be tossed under
    [toss_indel] and its record written to the dropped file. The generator
    does its part on the single-end read [snp_read], which covers the
    deletion at 98: the list is empty and [toss_indel] is counted. But the
    single-end call of [write_read_seqs] in [assign_reads] passes no dropped
    file, although [assign_reads] opens one in every mode, so the record is
    written to no file at all; the paired call passes it, and the pair
    [mate1], [mate2] on the same deletion lands in the dropped file. *)
Theorem single_end_indel_read_not_dropped :
  (1, Some 98%Z) ∈ aligned_pairs snp_read
  ∧ indel_flag indel_at_98 "chr1" 98 = true
  ∧ get_read_seqs snp_read snp_and_indel indel_at_98 fresh_counter
    = Some ([], incr "toss_indel" fresh_counter)
  ∧ (st ← assign_reads [snp_read] snp_and_indel indel_at_98 false;
     Some (count (read_results st) "toss_indel",
           keep_file st, remap_file st, dropped_bam st))
    = Some (1, [], [], [])
  ∧ (st ← assign_reads [mate1; mate2] snp_and_indel indel_at_98 true;
     Some (count (read_results st) "toss_indel",
           keep_file st, remap_file st, dropped_bam st))
    = Some (1, [], [], [mate1; mate2]).
Proof.
  split; [by_compute|]. repeat split; vm_compute; reflexivity.
Qed.

(** * Further properties of the code *)

(** ** What get_indels flags, and when it raises *)

Lemma indel_test_cases (alleles : seq_t) :
  indel_test alleles
  = if bool_decide ("-"%char ∈ alleles) then Some true
    else if decide (alleles = []) then None else Some false.
Proof.
  unfold indel_test. case_bool_decide; [done|].
  destruct alleles as [|a rest]; [done|]. rewrite decide_False by done.
  f_equal. apply Nat.ltb_ge.
  generalize (a :: rest). intros l. induction l as [|x l IH]; cbn; [lia|].
  cbn in IH. lia.
Qed.

Lemma indel_flag_set_iff (chrom c : string) (p q : Z) (ind : IndelDict) :
  indel_flag (indel_set chrom p ind) c q = true
  ↔ (c = chrom ∧ q = p) ∨ indel_flag ind c q = true.
Proof.
  split; [apply indel_flag_set|].
  unfold indel_flag, indel_set. intros [[-> ->]|Hold].
  - by rewrite lookup_insert_eq; cbn; rewrite lookup_insert_eq.
  - destruct (decide (chrom = c)) as [->|Hc]; [|by rewrite lookup_insert_ne].
    rewrite lookup_insert_eq. cbn.
    destruct (decide (p = q)) as [->|Hq]; [by rewrite lookup_insert_eq|].
    by rewrite lookup_insert_ne.
Qed.

Lemma get_indels_items_run chrom items ind :
  (Forall (λ e : Z * seq_t, e.2 ≠ []) items →
   ∃ ind', get_indels_items chrom items ind = Some ind'
     ∧ ∀ c q, indel_flag ind' c q = true
              ↔ indel_flag ind c q = true
                ∨ (c = chrom ∧ ∃ alleles, (q, alleles) ∈ items ∧ "-"%char ∈ alleles))
  ∧ (Exists (λ e : Z * seq_t, e.2 = []) items →
     get_indels_items chrom items ind = None).
Proof.
  revert ind. induction items as [|[p alleles] rest IH]; intros ind.
  - split.
    + intros _. exists ind. split; [done|]. intros c q. split; [by left|].
      intros [?|[_ (al & Hin & _)]]; [done|]. by apply elem_of_nil in Hin.
    + intros H. by apply Exists_nil in H.
  - cbn [get_indels_items]. rewrite indel_test_cases. split.
    + intros Hall. apply Forall_cons in Hall as [Hne Hall]. cbn in Hne.
      case_bool_decide as Hdash; cbn [mbind option_bind].
      * destruct (proj1 (IH (indel_set chrom p ind)) Hall) as (ind' & -> & Hflags).
        exists ind'. split; [done|]. intros c q.
        rewrite Hflags, indel_flag_set_iff. split.
        -- intros [[[-> ->]|?]|[-> (al & Hin & Hal)]].
           ++ right. split; [done|]. exists alleles. split; [|done].
              apply elem_of_cons. by left.
           ++ by left.
           ++ right. split; [done|]. exists al. split; [|done].
              apply elem_of_cons. by right.
        -- intros [?|[-> (al & Hin & Hal)]]; [left; by right|].
           apply elem_of_cons in Hin as [Heq|Hin].
           ++ simplify_eq. left. left. done.
           ++ right. split; [done|]. by exists al.
      * rewrite decide_False by done. cbn [mbind option_bind].
        destruct (proj1 (IH ind) Hall) as (ind' & -> & Hflags).
        exists ind'. split; [done|]. intros c q. rewrite Hflags. split.
        -- intros [?|[-> (al & Hin & Hal)]]; [by left|].
           right. split; [done|]. exists al. split; [|done].
           apply elem_of_cons. by right.
        -- intros [?|[-> (al & Hin & Hal)]]; [by left|].
           apply elem_of_cons in Hin as [Heq|Hin]; [by simplify_eq|].
           right. split; [done|]. by exists al.
    + intros Hex. apply Exists_cons in Hex as [Hempty|Hex].
      * cbn in Hempty. subst alleles. rewrite bool_decide_eq_false_2; [done|].
        apply not_elem_of_nil.
      * case_bool_decide; [|case_decide; [done|]]; cbn [mbind option_bind];
          by apply IH.
Qed.

Lemma get_indels_chroms_run chroms ind :
  (Forall (λ cm : string * gmap Z seq_t,
             Forall (λ e : Z * seq_t, e.2 ≠ []) (map_to_list cm.2)) chroms →
   ∃ ind', get_indels_chroms chroms ind = Some ind'
     ∧ ∀ c q, indel_flag ind' c q = true
              ↔ indel_flag ind c q = true
                ∨ ∃ m alleles, (c, m) ∈ chroms ∧ m !! q = Some alleles
                               ∧ "-"%char ∈ alleles)
  ∧ (Exists (λ cm : string * gmap Z seq_t,
               Exists (λ e : Z * seq_t, e.2 = []) (map_to_list cm.2)) chroms →
     get_indels_chroms chroms ind = None).
Proof.
  revert ind. induction chroms as [|[chrom m] rest IH]; intros ind.
  - split.
    + intros _. exists ind. split; [done|]. intros c q. split; [by left|].
      intros [?|(m & al & Hin & _)]; [done|]. by apply elem_of_nil in Hin.
    + intros H. by apply Exists_nil in H.
  - cbn [get_indels_chroms]. split.
    + intros Hall. apply Forall_cons in Hall as [Hm Hall]. cbn in Hm.
      destruct (proj1 (get_indels_items_run chrom (map_to_list m) ind) Hm)
        as (ind1 & -> & Hflags1).
      cbn [mbind option_bind].
      destruct (proj1 (IH ind1) Hall) as (ind' & -> & Hflags).
      exists ind'. split; [done|]. intros c q. rewrite Hflags, Hflags1. split.
      * intros [[?|[-> (al & Hin & Hal)]]|(m' & al & Hin & Hq & Hal)].
        -- by left.
        -- right. exists m, al. apply elem_of_map_to_list in Hin.
           split; [apply elem_of_cons; by left|done].
        -- right. exists m', al. split; [apply elem_of_cons; by right|done].
      * intros [?|(m' & al & Hin & Hq & Hal)]; [left; by left|].
        apply elem_of_cons in Hin as [Heq|Hin].
        -- simplify_eq. left. right. split; [done|]. exists al.
           split; [by apply elem_of_map_to_list|done].
        -- right. by exists m', al.
    + intros Hex. apply Exists_cons in Hex as [Hm|Hex].
      * cbn in Hm. by rewrite (proj2 (get_indels_items_run chrom (map_to_list m) ind) Hm).
      * destruct (get_indels_items chrom (map_to_list m) ind); [|done].
        cbn [mbind option_bind]. by apply IH.
Qed.

Lemma snp_chrom_lookup (snp_dict : SnpDict) chrom p alleles :
  snp_chrom snp_dict chrom !! p = Some alleles
  ↔ ∃ m, snp_dict !! chrom = Some m ∧ m !! p = Some alleles.
Proof.
  unfold snp_chrom. destruct (snp_dict !! chrom) as [m|]; cbn.
  - split; [by exists m|]. by intros (m' & ? & ?); simplify_eq.
  - rewrite lookup_empty. split; [done|]. by intros (? & ? & ?).
Qed.

Lemma no_empty_alleles_dec (snp_dict : SnpDict) :
  Forall (λ cm : string * gmap Z seq_t,
            Forall (λ e : Z * seq_t, e.2 ≠ []) (map_to_list cm.2))
         (map_to_list snp_dict)
  ∨ Exists (λ cm : string * gmap Z seq_t,
              Exists (λ e : Z * seq_t, e.2 = []) (map_to_list cm.2))
           (map_to_list snp_dict).
Proof.
  induction (map_to_list snp_dict) as [|[c m] l [IH|IH]].
  - left. constructor.
  - assert (Forall (λ e : Z * seq_t, e.2 ≠ []) (map_to_list m)
            ∨ Exists (λ e : Z * seq_t, e.2 = []) (map_to_list m)) as [Hm|Hm].
    { induction (map_to_list m) as [|[p al] l' [IH'|IH']].
      - left. constructor.
      - destruct (decide (al = [])) as [->|Hne].
        + right. by left.
        + left. by constructor.
      - right. by right. }
    + left. by constructor.
    + right. by left.
  - right. by right.
Qed.

(** X1: the table [get_indels] returns flags a position exactly when its
    allele string holds the symbol [-]. (The second test of the source,
    an allele longer than one symbol, walks the symbols of a string, each of
    length 1, and flags nothing.) *)
Theorem get_indels_flags_deletions (snp_dict : SnpDict) (indel_dict : IndelDict)
    (Hrun : get_indels snp_dict = Some indel_dict) (chrom : string) (p : Z) :
  indel_flag indel_dict chrom p = true
  ↔ ∃ alleles, snp_chrom snp_dict chrom !! p = Some alleles ∧ "-"%char ∈ alleles.
Proof.
  unfold get_indels in Hrun.
  destruct (no_empty_alleles_dec snp_dict) as [Hall|Hex].
  - destruct (proj1 (get_indels_chroms_run (map_to_list snp_dict) ∅) Hall)
      as (ind' & Hrun' & Hflags).
    rewrite Hrun in Hrun'. simplify_eq. rewrite Hflags, indel_flag_empty. split.
    + intros [?|(m & al & Hin & Hq & Hal)]; [done|].
      exists al. split; [|done]. apply snp_chrom_lookup. exists m.
      split; [by apply elem_of_map_to_list|done].
    + intros (al & Hq & Hal). apply snp_chrom_lookup in Hq as (m & Hm & Hq).
      right. exists m, al. split; [by apply elem_of_map_to_list|done].
  - by rewrite (proj2 (get_indels_chroms_run (map_to_list snp_dict) ∅) Hex) in Hrun.
Qed.

(** X2: [get_indels] raises (the [ValueError] of [max] on nothing) exactly
    when some position of the variant dict carries an empty allele string. *)
Theorem get_indels_raises_on_empty_alleles (snp_dict : SnpDict) :
  get_indels snp_dict = None ↔ ∃ chrom p, snp_chrom snp_dict chrom !! p = Some [].
Proof.
  unfold get_indels. split.
  - intros Hrun. destruct (no_empty_alleles_dec snp_dict) as [Hall|Hex].
    + destruct (proj1 (get_indels_chroms_run (map_to_list snp_dict) ∅) Hall)
        as (ind' & Hrun' & _). by rewrite Hrun in Hrun'.
    + apply Exists_exists in Hex as ([c m] & Hc & Hm).
      apply Exists_exists in Hm as ([p al] & Hp & Hal). cbn in *. subst al.
      exists c, p. apply snp_chrom_lookup. exists m.
      split; by apply elem_of_map_to_list.
  - intros (c & p & Hq). apply snp_chrom_lookup in Hq as (m & Hm & Hq).
    apply get_indels_chroms_run. apply Exists_exists. exists (c, m).
    split; [by apply elem_of_map_to_list|]. apply Exists_exists. exists (p, []).
    split; [by apply elem_of_map_to_list|done].
Qed.

(** ** reverse_complement on lengths and concatenations *)

Lemma length_reverse_complement (s : seq_t) : length (reverse_complement s) = length s.
Proof. unfold reverse_complement. by rewrite length_reverse, length_fmap. Qed.

(** X3: the reverse complement of a concatenation is the concatenation of
    the reverse complements in the opposite order, and a reverse complement is
    as long as its argument. *)
Theorem reverse_complement_app (s t : seq_t) :
  reverse_complement (s ++ t) = reverse_complement t ++ reverse_complement s
  ∧ length (reverse_complement s) = length s.
Proof.
  split; [|apply length_reverse_complement].
  unfold reverse_complement. by rewrite fmap_app, reverse_app.
Qed.

(** ** get_read_seqs: outcome, errors, size and content *)

Lemma expand_alleles_nonempty read_pos base alleles seqs :
  seqs ≠ [] → expand_alleles read_pos base alleles seqs ≠ [].
Proof.
  intros Hne Hnil. apply (f_equal length) in Hnil.
  rewrite length_expand_alleles in Hnil. cbn in Hnil.
  apply Nat.eq_mul_0 in Hnil as [Hnil|Hnil].
  - by destruct seqs.
  - by apply Nat.pow_nonzero in Hnil.
Qed.

Lemma get_read_seqs_loop_outcome read_seq snps indel pairs seqs d l d' :
  seqs ≠ [] →
  get_read_seqs_loop read_seq snps indel pairs seqs d = Some (l, d') →
  ∃ k d1, d' = incr k d1 ∧ bookkeeping d d1
    ∧ ((k = "toss_indel" ∧ l = []) ∨ (k = "toss_manysnps" ∧ l = [])
       ∨ (k = "no_snps" ∧ length l = 1) ∨ (k = "has_snps" ∧ 1 < length l)).
Proof.
  revert seqs d. induction pairs as [|[read_pos [p|]] rest IH]; intros seqs d Hne Hrun.
  - cbn in Hrun. case_decide; simplify_eq.
    + exists "no_snps", d. split; [done|]. split; [apply bookkeeping_refl|]. tauto.
    + exists "has_snps", d. split; [done|]. split; [apply bookkeeping_refl|].
      do 3 right. split; [done|]. destruct l as [|? [|? ?]]; cbn in *; [done|done|lia].
  - cbn [get_read_seqs_loop] in Hrun.
    destruct (indel p).
    { simplify_eq. exists "toss_indel", d. split; [done|].
      split; [apply bookkeeping_refl|]. tauto. }
    case_decide.
    { simplify_eq. exists "toss_manysnps", d. split; [done|].
      split; [apply bookkeeping_refl|]. tauto. }
    destruct (snps !! p) as [alleles|]; [|by eapply IH].
    destruct (read_seq !! read_pos) as [base|]; [|done].
    cbn [mbind option_bind] in Hrun. case_bool_decide.
    + apply IH in Hrun as (k & d1 & ? & Hb & ?); [|by apply expand_alleles_nonempty].
      exists k, d1. split; [done|]. split; [by apply bookkeeping_ref_match|done].
    + apply IH in Hrun as (k & d1 & ? & Hb & ?); [|done].
      exists k, d1. split; [done|]. split; [by apply bookkeeping_no_match|done].
  - cbn [get_read_seqs_loop] in Hrun. by eapply IH.
Qed.

(** X4: a call of [get_read_seqs] that returns counts the read under
    exactly one of four outcome tags, and the tag tells the list returned:
    [toss_indel] or [toss_manysnps] with the empty list, [no_snps] with a
    list of one entry, [has_snps] with a longer list. Apart from that one
    increment only [ref_match] and [no_match] can have moved. *)
Theorem get_read_seqs_outcome (read : AlignedSegment) (snp_dict : SnpDict)
    (indel_dict : IndelDict) (d d' : Counter) (l : list seq_t)
    (Hrun : get_read_seqs read snp_dict indel_dict d = Some (l, d')) :
  ∃ k d1, d' = incr k d1
    ∧ (∀ tag, tag ≠ "ref_match" → tag ≠ "no_match" → count d1 tag = count d tag)
    ∧ ((k = "toss_indel" ∧ l = []) ∨ (k = "toss_manysnps" ∧ l = [])
       ∨ (k = "no_snps" ∧ length l = 1) ∨ (k = "has_snps" ∧ 1 < length l)).
Proof.
  unfold get_read_seqs in Hrun.
  by apply get_read_seqs_loop_outcome in Hrun.
Qed.

Lemma get_read_seqs_outcome_witness :
  ∃ k d1, incr "has_snps" (incr "ref_match" fresh_counter) = incr k d1
    ∧ (∀ tag, tag ≠ "ref_match" → tag ≠ "no_match" →
              count d1 tag = count fresh_counter tag)
    ∧ ((k = "toss_indel" ∧ [str "CCA"; str "CCG"] = [])
       ∨ (k = "toss_manysnps" ∧ [str "CCA"; str "CCG"] = [])
       ∨ (k = "no_snps" ∧ length [str "CCA"; str "CCG"] = 1)
       ∨ (k = "has_snps" ∧ 1 < length [str "CCA"; str "CCG"])).
Proof.
  exact (get_read_seqs_outcome snp_read one_snp no_indels fresh_counter _ _
           get_read_seqs_snp_read).
Defined.

Lemma get_read_seqs_loop_total read_seq snps indel pairs seqs d :
  Forall (λ pair : nat * option Z, pair.1 < length read_seq) pairs →
  is_Some (get_read_seqs_loop read_seq snps indel pairs seqs d).
Proof.
  intros Hrange. revert seqs d.
  induction Hrange as [|[read_pos [p|]] rest Hlt _ IH]; intros seqs d.
  - cbn. by case_decide.
  - cbn [get_read_seqs_loop]. destruct (indel p); [done|]. case_decide; [done|].
    destruct (snps !! p); [|apply IH].
    destruct (lookup_lt_is_Some_2 read_seq read_pos Hlt) as [base ->].
    cbn [mbind option_bind]. case_bool_decide; apply IH.
  - cbn [get_read_seqs_loop]. apply IH.
Qed.

(** X5: [get_read_seqs] raises nothing on a read whose aligned pairs index
    its sequence in range. *)
Theorem get_read_seqs_returns (read : AlignedSegment) (snp_dict : SnpDict)
    (indel_dict : IndelDict) (d : Counter)
    (Hrange : Forall (λ pair : nat * option Z, pair.1 < length (seq read))
                (aligned_pairs read)) :
  is_Some (get_read_seqs read snp_dict indel_dict d).
Proof. unfold get_read_seqs. by apply get_read_seqs_loop_total. Qed.

Lemma get_read_seqs_returns_witness :
  is_Some (get_read_seqs snp_read one_snp no_indels fresh_counter).
Proof. apply get_read_seqs_returns. by_compute. Defined.

(** X6: [get_read_seqs] raises [IndexError] when the first aligned pair
    that lies on a variant (no indel-flagged position before it or on it)
    has an offset behind the end of the read's sequence. *)
Theorem get_read_seqs_index_error (read : AlignedSegment) (snp_dict : SnpDict)
    (indel_dict : IndelDict) (d : Counter)
    (pre post : list (nat * option Z)) (read_pos : nat) (p : Z)
    (Hpairs : aligned_pairs read = pre ++ (read_pos, Some p) :: post)
    (Hpre : ∀ q, covers pre q →
              snp_chrom snp_dict (reference_name read) !! q = None
              ∧ indel_flag indel_dict (reference_name read) q = false)
    (Hvariant : is_Some (snp_chrom snp_dict (reference_name read) !! p))
    (Heligible : indel_flag indel_dict (reference_name read) p = false)
    (Hbeyond : length (seq read) ≤ read_pos) :
  get_read_seqs read snp_dict indel_dict d = None.
Proof.
  unfold get_read_seqs. rewrite Hpairs.
  rewrite get_read_seqs_loop_app_plain;
    [|done|cbn; unfold MAX_SEQS_PER_READ; lia].
  cbn [get_read_seqs_loop]. rewrite Heligible.
  rewrite decide_False by (cbn; unfold MAX_SEQS_PER_READ; lia).
  destruct Hvariant as [alleles ->].
  by rewrite (lookup_ge_None_2 (seq read) read_pos Hbeyond).
Qed.

(** A read whose alignment reaches the SNP at an offset its two-symbol
    sequence does not have. *)
Definition short_read : AlignedSegment :=
  mkRead "r5" (str "CC") (str "II") "chr1" 97 false false false false
    [(0, Some 97%Z); (1, Some 98%Z); (2, Some 99%Z)].

Lemma get_read_seqs_index_error_witness :
  get_read_seqs short_read one_snp no_indels fresh_counter = None.
Proof.
  apply (get_read_seqs_index_error short_read one_snp no_indels fresh_counter
           [(0, Some 97%Z); (1, Some 98%Z)] [] 2 99%Z).
  - reflexivity.
  - apply covered_all. by_compute.
  - by_compute.
  - reflexivity.
  - vm_compute. lia.
Defined.

Lemma subst_at_lookup r i allele (x : seq_t) :
  r < length x →
  subst_at r allele x !! i = if decide (i = r) then Some allele else x !! i.
Proof.
  intros Hlt. case_decide as Hi.
  - subst i. unfold subst_at. rewrite <- insert_take_drop by done.
    by apply list_lookup_insert_eq.
  - by apply subst_at_lookup_ne.
Qed.

(** [s] is as long as [orig] and departs from it only where [allowed]
    permits the symbol. *)
Definition edited (orig : seq_t) (allowed : nat → ascii → Prop) (s : seq_t) : Prop :=
  length s = length orig
  ∧ ∀ i c, s !! i = Some c → orig !! i = Some c ∨ allowed i c.

Lemma expand_alleles_edited orig allowed read_pos base alleles seqs :
  read_pos < length orig →
  Forall (λ allele, allowed read_pos allele) alleles →
  Forall (edited orig allowed) seqs →
  Forall (edited orig allowed) (expand_alleles read_pos base alleles seqs).
Proof.
  intros Hlt Halleles. unfold expand_alleles. revert seqs.
  induction Halleles as [|allele rest Hallele _ IH]; intros seqs Hseqs; [done|].
  cbn [foldl]. apply IH. case_decide; [done|].
  apply Forall_app. split; [done|]. apply Forall_fmap.
  eapply Forall_impl; [exact Hseqs|]. intros s [Hlen Hs]. split.
  - rewrite length_subst_at; lia.
  - intros i c. rewrite subst_at_lookup by lia. case_decide.
    + intros ?; simplify_eq. by right.
    + apply Hs.
Qed.

Lemma get_read_seqs_loop_edited read_seq snps indel (allowed : nat → ascii → Prop)
    pairs seqs d l d' :
  (∀ read_pos p alleles c,
     (read_pos, Some p) ∈ pairs → snps !! p = Some alleles → c ∈ alleles →
     allowed read_pos c) →
  Forall (edited read_seq allowed) seqs →
  get_read_seqs_loop read_seq snps indel pairs seqs d = Some (l, d') →
  Forall (edited read_seq allowed) l.
Proof.
  revert seqs d. induction pairs as [|[read_pos [p|]] rest IH];
    intros seqs d Hallowed Hseqs Hrun.
  - cbn in Hrun. case_decide; by simplify_eq.
  - assert (∀ rp q alleles c, (rp, Some q) ∈ rest → snps !! q = Some alleles →
              c ∈ alleles → allowed rp c) as Hallowed'.
    { intros rp q al c Hin. apply Hallowed. apply elem_of_cons. by right. }
    cbn [get_read_seqs_loop] in Hrun.
    destruct (indel p); [by simplify_eq|]. case_decide; [by simplify_eq|].
    destruct (snps !! p) as [alleles|] eqn:Hp; [|by eapply IH].
    destruct (read_seq !! read_pos) as [base|] eqn:Hbase; [|done].
    cbn [mbind option_bind] in Hrun. case_bool_decide; [|by eapply IH].
    eapply IH; [done| |done].
    apply expand_alleles_edited; [by apply lookup_lt_Some in Hbase| |done].
    apply Forall_forall. intros c Hc. apply (Hallowed read_pos p alleles c); [|done..].
    apply elem_of_cons. by left.
  - cbn [get_read_seqs_loop] in Hrun. eapply IH; [|done|done].
    intros rp q al c Hin. apply Hallowed. apply elem_of_cons. by right.
Qed.

(** X7: a candidate that [get_read_seqs] returns shows, at every offset,
    either the read's own symbol or an allele of a variant position that an
    aligned pair ties to that offset: nothing away from the variants is ever
    changed, and nothing but a known allele is ever written. *)
Theorem get_read_seqs_edits_variants_only (read : AlignedSegment) (snp_dict : SnpDict)
    (indel_dict : IndelDict) (d d' : Counter) (l : list seq_t)
    (Hrun : get_read_seqs read snp_dict indel_dict d = Some (l, d'))
    (s : seq_t) (i : nat) (c : ascii)
    (Hs : s ∈ l) (Hc : s !! i = Some c) :
  seq read !! i = Some c
  ∨ ∃ p alleles,
      (i, Some p) ∈ aligned_pairs read
      ∧ snp_chrom snp_dict (reference_name read) !! p = Some alleles
      ∧ c ∈ alleles.
Proof.
  unfold get_read_seqs in Hrun.
  eapply (get_read_seqs_loop_edited _ _ _
            (λ i c, ∃ p alleles,
               (i, Some p) ∈ aligned_pairs read
               ∧ snp_chrom snp_dict (reference_name read) !! p = Some alleles
               ∧ c ∈ alleles)) in Hrun.
  - rewrite Forall_forall in Hrun. destruct (Hrun s Hs) as [_ Hedit]. by apply Hedit.
  - intros rp p alleles a Hin Hp Ha. by exists p, alleles.
  - apply Forall_singleton. split; [done|]. intros j a Hj. by left.
Qed.

Lemma get_read_seqs_edits_variants_only_witness :
  seq snp_read !! 2 = Some "G"%char
  ∨ ∃ p alleles,
      (2, Some p) ∈ aligned_pairs snp_read
      ∧ snp_chrom one_snp (reference_name snp_read) !! p = Some alleles
      ∧ "G"%char ∈ alleles.
Proof.
  apply (get_read_seqs_edits_variants_only snp_read one_snp no_indels fresh_counter
           _ _ get_read_seqs_snp_read (str "CCG")).
  - by_compute.
  - reflexivity.
Defined.

Lemma get_read_seqs_loop_size read_seq snps indel pairs seqs d l d' :
  get_read_seqs_loop read_seq snps indel pairs seqs d = Some (l, d') →
  l = [] ∨ length l = length seqs * 2 ^ doublings read_seq snps pairs.
Proof.
  revert seqs d. induction pairs as [|[read_pos [p|]] rest IH]; intros seqs d Hrun.
  - cbn in Hrun. right. case_decide; simplify_eq; cbn; lia.
  - cbn [get_read_seqs_loop doublings] in *.
    destruct (indel p); [left; by simplify_eq|].
    case_decide; [left; by simplify_eq|].
    destruct (snps !! p) as [alleles|]; [|by apply IH in Hrun].
    destruct (read_seq !! read_pos) as [base|]; [|done].
    cbn [mbind option_bind] in Hrun. case_bool_decide; [|by apply IH in Hrun].
    apply IH in Hrun as [?|Hlen]; [by left|right].
    rewrite Hlen, length_expand_alleles, Nat.pow_add_r. lia.
  - cbn [get_read_seqs_loop doublings] in *. by apply IH in Hrun.
Qed.

(** X8: the number of candidates [get_read_seqs] returns is a power of
    two: the list doubles once for every allele that differs from the read's
    base, at every covered variant position whose allele string holds that
    base (so a position with three alleles yields four entries, two of them
    equal), and a position whose alleles do not hold the read's base adds
    nothing. *)
Theorem get_read_seqs_size (read : AlignedSegment) (snp_dict : SnpDict)
    (indel_dict : IndelDict) (d d' : Counter) (l : list seq_t)
    (Hrun : get_read_seqs read snp_dict indel_dict d = Some (l, d'))
    (Hne : l ≠ []) :
  length l
  = 2 ^ doublings (seq read) (snp_chrom snp_dict (reference_name read))
          (aligned_pairs read).
Proof.
  unfold get_read_seqs in Hrun.
  apply get_read_seqs_loop_size in Hrun as [?|Hlen]; [done|].
  rewrite Hlen. cbn [length]. lia.
Qed.

(** A position with three alleles under a read that shows the first. *)
Definition triallelic_snp : SnpDict := {[ "chr1" := {[ 99%Z := str "ACG" ]} ]}.

Example get_read_seqs_triallelic :
  get_read_seqs snp_read triallelic_snp no_indels fresh_counter
  = Some ([str "CCA"; str "CCC"; str "CCG"; str "CCG"],
          incr "has_snps" (incr "ref_match" fresh_counter)).
Proof. vm_compute. reflexivity. Qed.

Lemma get_read_seqs_size_witness :
  length [str "CCA"; str "CCC"; str "CCG"; str "CCG"]
  = 2 ^ doublings (seq snp_read) (snp_chrom triallelic_snp (reference_name snp_read))
          (aligned_pairs snp_read).
Proof.
  apply (get_read_seqs_size snp_read triallelic_snp no_indels fresh_counter _ _
           get_read_seqs_triallelic).
  by_compute.
Defined.

Lemma get_indels_flags_deletions_witness :
  indel_flag indel_at_98 "chr1" 98 = true
  ↔ ∃ alleles, snp_chrom snp_and_indel "chr1" !! 98%Z = Some alleles
               ∧ "-"%char ∈ alleles.
Proof.
  exact (get_indels_flags_deletions snp_and_indel indel_at_98
           get_indels_snp_and_indel "chr1" 98%Z).
Defined.

(** ** get_dual_read_seqs: lockstep and outcome *)

Lemma zip_loop_lengths f1 f2 zs a :
  length (new_seqs1 (zip_loop f1 f2 zs a)) = length (new_seqs1 a) + length zs
  ∧ length (new_seqs2 (zip_loop f1 f2 zs a)) = length (new_seqs2 a) + length zs.
Proof.
  unfold zip_loop. revert a. induction zs as [|[s1 s2] zs IH]; intros a.
  - cbn. lia.
  - cbn [foldl]. destruct (IH (mkAllele s1 s2 (new_seqs1 a ++ [f1 s1])
                                 (new_seqs2 a ++ [f2 s2]))) as [-> ->].
    cbn. rewrite !length_app. cbn. lia.
Qed.

Lemma allele_loop_lockstep observed f1 f2 zs alleles a a' :
  length (new_seqs1 a) = length (new_seqs2 a) →
  allele_loop observed f1 f2 zs alleles a = Some a' →
  length (new_seqs1 a') = length (new_seqs2 a').
Proof.
  revert a. induction alleles as [|allele rest IH]; intros a Hlen Hrun.
  - cbn in Hrun. by simplify_eq.
  - cbn [allele_loop] in Hrun.
    destruct (observed (cur1 a) (cur2 a)); [|done].
    cbn [mbind option_bind] in Hrun. case_decide; [by eapply IH|].
    eapply IH; [|done].
    destruct (zip_loop_lengths (f1 allele) (f2 allele) zs a) as [-> ->]. lia.
Qed.

Lemma dual_step_lockstep read_posns st entry st' :
  length (seqs1 st) = length (seqs2 st) →
  dual_step read_posns st entry = Some (StepNext st') →
  length (seqs1 st') = length (seqs2 st').
Proof.
  intros Hlen Hstep. destruct entry as [ref_pos alleles]. unfold dual_step in Hstep.
  assert (∀ a, length (new_seqs1 a) = length (new_seqs2 a) →
               length (seqs1 (extend_state st a)) = length (seqs2 (extend_state st a)))
    as Hext.
  { intros a Ha. cbn. rewrite !length_app. lia. }
  destruct (read_posns_get read_posns ref_pos) as [[p1|] [p2|]].
  - destruct (seq1 st !! p1) as [b1|]; [|done].
    destruct (seq2 st !! p2) as [b2|]; [|done].
    cbn [mbind option_bind] in Hstep. case_decide; [|done].
    destruct (allele_loop _ _ _ _ _ _) as [a|] eqn:Hloop; [|done].
    cbn in Hstep. simplify_eq. apply Hext.
    by apply allele_loop_lockstep in Hloop.
  - destruct (allele_loop _ _ _ _ _ _) as [a|] eqn:Hloop; [|done].
    cbn in Hstep. simplify_eq. apply Hext.
    by apply allele_loop_lockstep in Hloop.
  - destruct (allele_loop _ _ _ _ _ _) as [a|] eqn:Hloop; [|done].
    cbn in Hstep. simplify_eq. apply Hext.
    by apply allele_loop_lockstep in Hloop.
  - destruct (allele_loop _ _ _ _ _ _) as [a|] eqn:Hloop; [|done].
    cbn in Hstep. simplify_eq. apply Hext.
    by apply allele_loop_lockstep in Hloop.
Qed.

Lemma dual_loop_lockstep read_posns snps st st' :
  length (seqs1 st) = length (seqs2 st) →
  dual_loop read_posns snps st = Some (StepNext st') →
  length (seqs1 st') = length (seqs2 st').
Proof.
  revert st. induction snps as [|entry rest IH]; intros st Hlen Hrun.
  - cbn in Hrun. by simplify_eq.
  - cbn [dual_loop] in Hrun.
    destruct (dual_step read_posns st entry) as [[st1|]|] eqn:Hstep; [|done|done].
    cbn [mbind option_bind] in Hrun. eapply IH; [|done].
    by eapply dual_step_lockstep.
Qed.

(** X9: the two lists [get_dual_read_seqs] returns always have the same
    number of entries: every step of the expansion appends to both. *)
Theorem get_dual_read_seqs_lockstep (read1 read2 : AlignedSegment)
    (snp_dict : SnpDict) (indel_dict : IndelDict) (d d' : Counter)
    (l1 l2 : list seq_t)
    (Hrun : get_dual_read_seqs read1 read2 snp_dict indel_dict d = Some (l1, l2, d')) :
  length l1 = length l2.
Proof.
  unfold get_dual_read_seqs in Hrun.
  destruct (scan_mate false _ _ _ _ _) as [[snps1 posns1]|]; [|by simplify_eq].
  destruct (scan_mate true _ _ _ _ _) as [[snps posns]|]; [|by simplify_eq].
  case_decide; [by simplify_eq|].
  destruct (dual_loop _ _ _) as [[st|]|] eqn:Hloop;
    cbn [mbind option_bind] in Hrun; [|by simplify_eq|done].
  apply dual_loop_lockstep in Hloop; [|done].
  case_decide; by simplify_eq.
Qed.

Lemma get_dual_read_seqs_lockstep_witness :
  length [str "CCA"; str "CCG"] = length [str "ATT"; str "GTT"].
Proof.
  exact (get_dual_read_seqs_lockstep mate1 mate2 one_snp no_indels fresh_counter
           _ _ _ get_dual_read_seqs_mates).
Defined.

(** X10: a call of [get_dual_read_seqs] that returns increments exactly
    one tag and leaves every other count alone (the paired generator never
    counts [ref_match] or [no_match]): one of the three toss tags with two
    empty lists, [no_snps] with one entry for mate 1, [has_snps] with more. *)
Theorem get_dual_read_seqs_outcome (read1 read2 : AlignedSegment)
    (snp_dict : SnpDict) (indel_dict : IndelDict) (d d' : Counter)
    (l1 l2 : list seq_t)
    (Hrun : get_dual_read_seqs read1 read2 snp_dict indel_dict d = Some (l1, l2, d')) :
  (l1 = [] ∧ l2 = []
   ∧ (d' = incr "toss_indel" d ∨ d' = incr "toss_manysnps" d
      ∨ d' = incr "toss_anomalous_phase" d))
  ∨ (length l1 = 1 ∧ d' = incr "no_snps" d)
  ∨ (1 < length l1 ∧ d' = incr "has_snps" d).
Proof.
  unfold get_dual_read_seqs in Hrun.
  destruct (scan_mate false _ _ _ _ _) as [[snps1 posns1]|];
    [|simplify_eq; left; tauto].
  destruct (scan_mate true _ _ _ _ _) as [[snps posns]|];
    [|simplify_eq; left; tauto].
  case_decide; [simplify_eq; left; tauto|].
  destruct (dual_loop _ _ _) as [[st|]|] eqn:Hloop;
    cbn [mbind option_bind] in Hrun; [|simplify_eq; left; tauto|done].
  apply (dual_loop_shaped _ (seq read1) (seq read2)) in Hloop
    as [[Hhd _] _]; [|done|done|split; [done|by repeat constructor]..].
  apply lookup_lt_Some in Hhd.
  case_decide; simplify_eq; right; [left|right]; split; try done. lia.
Qed.

Lemma get_dual_read_seqs_outcome_witness :
  ([str "CCA"; str "CCG"] = [] ∧ [str "ATT"; str "GTT"] = []
   ∧ (incr "has_snps" fresh_counter = incr "toss_indel" fresh_counter
      ∨ incr "has_snps" fresh_counter = incr "toss_manysnps" fresh_counter
      ∨ incr "has_snps" fresh_counter = incr "toss_anomalous_phase" fresh_counter))
  ∨ (length [str "CCA"; str "CCG"] = 1
     ∧ incr "has_snps" fresh_counter = incr "no_snps" fresh_counter)
  ∨ (1 < length [str "CCA"; str "CCG"]
     ∧ incr "has_snps" fresh_counter = incr "has_snps" fresh_counter).
Proof.
  exact (get_dual_read_seqs_outcome mate1 mate2 one_snp no_indels fresh_counter
           _ _ _ get_dual_read_seqs_mates).
Defined.

(** ** One SNP under a mate pair *)

Lemma scan_mate_app_plain slot snps_chrom indel pre rest snps read_posns :
  (∀ p, covers pre p → snps_chrom !! p = None ∧ indel p = false) →
  scan_mate slot snps_chrom indel (pre ++ rest) snps read_posns
  = scan_mate slot snps_chrom indel rest snps read_posns.
Proof.
  intros Hplain. induction pre as [|[read_pos [p|]] pre IH]; [done| |].
  - destruct (Hplain p (covers_here _ _ _)) as [Hsnp Hind].
    cbn [app scan_mate]. rewrite Hind, Hsnp.
    apply IH. intros q Hq. apply Hplain. by apply covers_cons_inv.
  - cbn [app scan_mate].
    apply IH. intros q Hq. apply Hplain. by apply covers_cons_inv.
Qed.

(** The scan of a mate that meets the variant dict at one pair only. *)
Lemma scan_mate_one slot snps_chrom indel pre post read_pos p alleles snps read_posns :
  (∀ q, covers pre q → snps_chrom !! q = None ∧ indel q = false) →
  (∀ q, covers post q → snps_chrom !! q = None ∧ indel q = false) →
  snps_chrom !! p = Some alleles → indel p = false →
  scan_mate slot snps_chrom indel (pre ++ (read_pos, Some p) :: post) snps read_posns
  = Some (dict_set p alleles snps, read_posns_set slot p read_pos read_posns).
Proof.
  intros Hpre Hpost Hp Hind. rewrite scan_mate_app_plain by done.
  cbn [scan_mate]. rewrite Hind, Hp. by apply scan_mate_plain.
Qed.

(** X11: a mate pair whose mates both cover one SNP-eligible position, and
    no other variant, and both show the same base there, one of the
    position's two different alleles: each mate's list is its own sequence
    followed by that sequence with the other allele at its offset, the two
    new entries at the same index, and [has_snps] is incremented. *)
Theorem shared_snp_lockstep (snp_dict : SnpDict) (indel_dict : IndelDict)
    (read1 read2 : AlignedSegment) (d : Counter)
    (pre1 post1 pre2 post2 : list (nat * option Z)) (rp1 rp2 : nat) (p : Z)
    (alleles : seq_t) (base other : ascii)
    (Hpairs1 : aligned_pairs read1 = pre1 ++ (rp1, Some p) :: post1)
    (Hpairs2 : aligned_pairs read2 = pre2 ++ (rp2, Some p) :: post2)
    (Hplain : ∀ q, covers (pre1 ++ post1 ++ pre2 ++ post2) q →
                snp_chrom snp_dict (reference_name read1) !! q = None
                ∧ indel_flag indel_dict (reference_name read1) q = false)
    (Hsnp : snp_chrom snp_dict (reference_name read1) !! p = Some alleles)
    (Heligible : indel_flag indel_dict (reference_name read1) p = false)
    (Hb1 : seq read1 !! rp1 = Some base)
    (Hb2 : seq read2 !! rp2 = Some base)
    (Htwo : alleles = [base; other] ∨ alleles = [other; base])
    (Hdiff : base ≠ other) :
  get_dual_read_seqs read1 read2 snp_dict indel_dict d
  = Some ([seq read1; subst_at rp1 other (seq read1)],
          [seq read2; subst_at rp2 other (seq read2)],
          incr "has_snps" d).
Proof.
  assert (∀ part, (∀ q, covers part q → covers (pre1 ++ post1 ++ pre2 ++ post2) q) →
            ∀ q, covers part q →
              snp_chrom snp_dict (reference_name read1) !! q = None
              ∧ indel_flag indel_dict (reference_name read1) q = false) as Hpart.
  { intros part Hsub q Hq. by apply Hplain, Hsub. }
  assert (∀ l1 l2 q, covers l2 q → covers (l1 ++ l2) q) as Hr.
  { intros l1 l2 q [rp Hin]. exists rp. apply elem_of_app. by right. }
  assert (∀ l1 l2 q, covers l1 q → covers (l1 ++ l2) q) as Hl.
  { intros l1 l2 q [rp Hin]. exists rp. apply elem_of_app. by left. }
  pose proof (Hpart pre1 (λ q Hq, Hl _ _ q Hq)) as Hpre1.
  pose proof (Hpart post1 (λ q Hq, Hr _ _ q (Hl _ _ q Hq))) as Hpost1.
  pose proof (Hpart pre2 (λ q Hq, Hr _ _ q (Hr _ _ q (Hl _ _ q Hq)))) as Hpre2.
  pose proof (Hpart post2 (λ q Hq, Hr _ _ q (Hr _ _ q (Hr _ _ q Hq)))) as Hpost2.
  unfold get_dual_read_seqs. rewrite Hpairs1, Hpairs2.
  rewrite (scan_mate_one false _ _ pre1 post1 rp1 p alleles) by done.
  rewrite (scan_mate_one true _ _ pre2 post2 rp2 p alleles) by done.
  assert (dict_set p alleles (dict_set p alleles []) = [(p, alleles)]) as ->
    by (cbn [dict_set]; by rewrite decide_True).
  assert (product (length <$> [(p, alleles)].*2) = 2) as ->
    by (by destruct Htwo as [-> | ->]).
  rewrite decide_False by (unfold MAX_SEQS_PER_READ; lia).
  assert (read_posns_get (read_posns_set true p rp2 (read_posns_set false p rp1 ∅)) p
          = (Some rp1, Some rp2)) as Hget.
  { rewrite !read_posns_get_set, !decide_True by done.
    unfold read_posns_get. by rewrite lookup_empty. }
  cbn [dual_loop]. unfold dual_step. rewrite Hget.
  cbn [seq1 seq2 seqs1 seqs2]. rewrite Hb1, Hb2. cbn [mbind option_bind].
  rewrite decide_True by done.
  destruct Htwo as [-> | ->]; cbn [allele_loop cur1 cur2 zip zip_with zip_loop foldl];
    rewrite ?Hb2; cbn [mbind option_bind cur1 cur2];
    rewrite ?(decide_True (P := base = base)) by done;
    rewrite ?(decide_False (P := other = base)) by congruence;
    cbn [allele_loop cur1 cur2 zip_loop foldl]; rewrite ?Hb2;
    cbn [mbind option_bind]; rewrite ?(decide_True (P := base = base)) by done;
    reflexivity.
Qed.

Lemma shared_snp_lockstep_witness :
  get_dual_read_seqs mate1 mate2 one_snp no_indels fresh_counter
  = Some ([str "CCA"; str "CCG"], [str "ATT"; str "GTT"], incr "has_snps" fresh_counter).
Proof.
  apply (shared_snp_lockstep one_snp no_indels mate1 mate2 fresh_counter
           [(0, Some 97%Z); (1, Some 98%Z)] []
           [] [(1, Some 100%Z); (2, Some 101%Z)] 2 0 99%Z
           (str "AG") "A"%char "G"%char).
  - reflexivity.
  - reflexivity.
  - apply covered_all. by_compute.
  - vm_compute. reflexivity.
  - vm_compute. reflexivity.
  - reflexivity.
  - reflexivity.
  - left. reflexivity.
  - by_compute.
Defined.

(** ** write_read_seqs: triage and errors *)

Lemma product_zero (l : list nat) : 0 ∈ l → product l = 0.
Proof.
  induction l as [|x l IH]; intros Hin; [by apply elem_of_nil in Hin|].
  rewrite product_cons. apply elem_of_cons in Hin as [<-|Hin]; [done|].
  rewrite IH by done. lia.
Qed.

Lemma product_one (l : list nat) : product l = 1 ↔ Forall (λ n, n = 1) l.
Proof.
  induction l as [|x l IH]; [by split; [constructor|]|].
  rewrite product_cons, Forall_cons, <- IH. split.
  - intros H. by apply Nat.eq_mul_1 in H.
  - intros [-> ->]. done.
Qed.

(** The three ways a call of [write_read_seqs] can end when it returns:
    dropped, kept, or sent to remapping with the records of every
    combination but the first. *)
Lemma write_read_seqs_cases both_read_seqs fl remap_num k fl' :
  write_read_seqs both_read_seqs fl remap_num = Some (k, fl') →
  let n := product (length <$> both_read_seqs.*2) in
  both_read_seqs ≠ [] ∧ length both_read_seqs.*1 = length (fastqs fl)
  ∧ (((n = 0 ∨ MAX_SEQS_PER_READ < n) ∧ k = 0
      ∧ fl' = mkFiles (keep fl) (remap_bam fl) (fastqs fl)
                ((λ ds, ds ++ both_read_seqs.*1) <$> dropped fl))
     ∨ (n = 1 ∧ k = 0
        ∧ fl' = mkFiles (keep fl ++ both_read_seqs.*1) (remap_bam fl) (fastqs fl)
                  (dropped fl))
     ∨ (1 < n ∧ n ≤ MAX_SEQS_PER_READ ∧ k = 1
        ∧ ∃ loc_line,
            loc_remap_num loc_line = remap_num
            ∧ fl' = mkFiles (keep fl) (remap_bam fl ++ both_read_seqs.*1)
                      (foldl (λ fqs c, write_combo loc_line c both_read_seqs.*1 fqs)
                         (fastqs fl) (drop 1 (it_product both_read_seqs.*2)))
                      (dropped fl))).
Proof.
  intros Hrun n. subst n. unfold write_read_seqs in Hrun.
  destruct both_read_seqs as [|first_pair other_pairs] eqn:Hbrs; [done|].
  rewrite <- Hbrs in *. split; [by rewrite Hbrs|].
  destruct (decide (length both_read_seqs.*1 = length (fastqs fl))) as [Hlen|]; [|done].
  split; [done|].
  destruct (decide (_ ∨ _)) as [Hout|Hin].
  - left. destruct fl as [kp rm fq [ds|]]; cbn in *; by simplify_eq.
  - destruct (decide (_ = 1)) as [Hone|Hmore].
    + right. left. by simplify_eq.
    + right. right. simplify_eq. split; [lia|]. split; [lia|]. split; [done|].
      by eexists (mkLoc remap_num _ _ _ _).
Qed.

(** X12: as soon as one read's candidate list is empty, [write_read_seqs]
    writes the original reads to the dropped file when one is passed, and
    nowhere when none is; it writes no FASTQ record and returns 0. *)
Theorem empty_list_drops (both_read_seqs : list (AlignedSegment * list seq_t))
    (fl : Files) (remap_num : nat)
    (Hfiles : length both_read_seqs = length (fastqs fl))
    (Hempty : [] ∈ both_read_seqs.*2) :
  write_read_seqs both_read_seqs fl remap_num
  = Some (0, mkFiles (keep fl) (remap_bam fl) (fastqs fl)
               ((λ ds, ds ++ both_read_seqs.*1) <$> dropped fl)).
Proof.
  unfold write_read_seqs.
  destruct both_read_seqs as [|first_pair other_pairs] eqn:Hbrs;
    [by apply elem_of_nil in Hempty|].
  rewrite <- Hbrs in *.
  rewrite decide_True by (by rewrite length_fmap).
  assert (product (length <$> both_read_seqs.*2) = 0) as ->.
  { apply product_zero. apply list_elem_of_fmap. by exists []. }
  rewrite decide_True by (by left).
  by destruct fl as [kp rm fq [ds|]].
Qed.

Lemma empty_list_drops_witness :
  write_read_seqs [(mate1, []); (mate2, [])] empty_files 1
  = Some (0, mkFiles [] [] [[]; []] (Some [mate1; mate2])).
Proof.
  apply (empty_list_drops [(mate1, []); (mate2, [])] empty_files 1).
  - reflexivity.
  - by_compute.
Defined.

(** X13: [write_read_seqs] keeps the reads exactly when every read has
    one candidate: then the originals go to the keep file, no FASTQ record
    is written and 0 is returned; and a call that makes the keep file grow
    had one candidate per read. *)
Theorem kept_iff_single_candidates (both_read_seqs : list (AlignedSegment * list seq_t))
    (fl : Files) (remap_num : nat)
    (Hfiles : length both_read_seqs = length (fastqs fl))
    (Hne : both_read_seqs ≠ []) :
  (Forall (λ seqs : list seq_t, length seqs = 1) both_read_seqs.*2 →
   write_read_seqs both_read_seqs fl remap_num
   = Some (0, mkFiles (keep fl ++ both_read_seqs.*1) (remap_bam fl) (fastqs fl)
                (dropped fl)))
  ∧ (∀ k fl', write_read_seqs both_read_seqs fl remap_num = Some (k, fl') →
              keep fl' ≠ keep fl →
              Forall (λ seqs : list seq_t, length seqs = 1) both_read_seqs.*2).
Proof.
  split.
  - intros Hone. unfold write_read_seqs.
    destruct both_read_seqs as [|first_pair other_pairs] eqn:Hbrs; [done|].
    rewrite <- Hbrs in *.
    rewrite decide_True by (by rewrite length_fmap).
    assert (product (length <$> both_read_seqs.*2) = 1) as ->.
    { apply product_one. by apply Forall_fmap. }
    rewrite decide_False by (unfold MAX_SEQS_PER_READ; lia).
    by rewrite decide_True.
  - intros k fl' Hrun Hgrew.
    apply write_read_seqs_cases in Hrun
      as (_ & _ & [(_ & _ & ->)|[(Hone & _ & ->)|(_ & _ & _ & loc & _ & ->)]]);
      [done| |done].
    apply product_one in Hone. by apply Forall_fmap in Hone.
Qed.

Lemma kept_iff_single_candidates_witness :
  write_read_seqs [(far_read, [str "GGT"])] (mkFiles [] [] [[]] None) 0
  = Some (0, mkFiles [far_read] [] [[]] None).
Proof.
  apply (proj1 (kept_iff_single_candidates [(far_read, [str "GGT"])]
                  (mkFiles [] [] [[]] None) 0 eq_refl ltac:(by_compute))).
  by_compute.
Defined.

(** X14: [write_read_seqs] raises exactly when it is given no read at all
    (the unpacking of the transposed list fails) or not one FASTQ file per
    read (the assertion fails). *)
Theorem write_read_seqs_raises (both_read_seqs : list (AlignedSegment * list seq_t))
    (fl : Files) (remap_num : nat) :
  write_read_seqs both_read_seqs fl remap_num = None
  ↔ both_read_seqs = [] ∨ length both_read_seqs ≠ length (fastqs fl).
Proof.
  unfold write_read_seqs.
  destruct both_read_seqs as [|first_pair other_pairs] eqn:Hbrs; [by split; [left|]|].
  rewrite <- Hbrs in *. rewrite length_fmap.
  destruct (decide (length both_read_seqs = length (fastqs fl))).
  - split; [|by intros [?|?]; simplify_eq].
    intros Hrun. repeat case_decide; [by destruct (dropped fl)|done|done].
  - split; [by right|done].
Qed.

(** X15: with a dropped file passed, a call of [write_read_seqs] that
    returns appends the original reads to exactly one of the keep, remap and
    dropped files and leaves the other two as they were; it writes FASTQ
    records and returns 1 only when it is the remap file, and returns 0
    otherwise. *)
Theorem write_read_seqs_partitions (both_read_seqs : list (AlignedSegment * list seq_t))
    (fl fl' : Files) (remap_num k : nat) (ds : list AlignedSegment)
    (Hdropped : dropped fl = Some ds)
    (Hrun : write_read_seqs both_read_seqs fl remap_num = Some (k, fl')) :
  (k = 0 ∧ fastqs fl' = fastqs fl
   ∧ keep fl' = keep fl ++ both_read_seqs.*1
   ∧ remap_bam fl' = remap_bam fl ∧ dropped fl' = Some ds)
  ∨ (k = 1
     ∧ keep fl' = keep fl
     ∧ remap_bam fl' = remap_bam fl ++ both_read_seqs.*1 ∧ dropped fl' = Some ds)
  ∨ (k = 0 ∧ fastqs fl' = fastqs fl
     ∧ keep fl' = keep fl
     ∧ remap_bam fl' = remap_bam fl ∧ dropped fl' = Some (ds ++ both_read_seqs.*1)).
Proof.
  apply write_read_seqs_cases in Hrun
    as (_ & _ & [(_ & -> & ->)|[(_ & -> & ->)|(_ & _ & -> & loc & _ & ->)]]); cbn.
  - right. right. by rewrite Hdropped.
  - by left.
  - right. by left.
Qed.

Lemma write_read_seqs_partitions_witness :
  (0 = 0 ∧ [[]; []] = fastqs empty_files
   ∧ [] = keep empty_files ++ [mate1; mate2]
   ∧ [] = remap_bam empty_files ∧ Some [mate1; mate2] = Some [])
  ∨ (0 = 1
     ∧ [] = keep empty_files
     ∧ [] = remap_bam empty_files ++ [mate1; mate2] ∧ Some [mate1; mate2] = Some [])
  ∨ (0 = 0 ∧ [[]; []] = fastqs empty_files
     ∧ [] = keep empty_files
     ∧ [] = remap_bam empty_files ∧ Some [mate1; mate2] = Some ([] ++ [mate1; mate2])).
Proof.
  exact (write_read_seqs_partitions [(mate1, []); (mate2, [])] empty_files
           (mkFiles [] [] [[]; []] (Some [mate1; mate2])) 1 0 [] eq_refl eq_refl).
Defined.

(** X16: the triage multiplies the lengths of the two mates' lists, which
    the generator built entry for entry: a pair whose lists have more than 32
    entries each is over the cap of 1024 and is written to the dropped file,
    with no FASTQ record. *)
Theorem long_lockstep_lists_dropped (read1 read2 : AlignedSegment)
    (l1 l2 : list seq_t) (fl : Files) (remap_num : nat)
    (Hfiles : length (fastqs fl) = 2)
    (Hlockstep : length l1 = length l2)
    (Hlong : 32 < length l1) :
  write_read_seqs [(read1, l1); (read2, l2)] fl remap_num
  = Some (0, mkFiles (keep fl) (remap_bam fl) (fastqs fl)
               ((λ ds, ds ++ [read1; read2]) <$> dropped fl)).
Proof.
  unfold write_read_seqs. cbn [fmap list_fmap fst snd length].
  rewrite Hfiles, decide_True by done.
  assert (MAX_SEQS_PER_READ < product [length l1; length l2]) as Hover.
  { rewrite !product_cons. unfold MAX_SEQS_PER_READ, product. cbn [foldl].
    rewrite <- Hlockstep. nia. }
  rewrite decide_True by (by right).
  by destruct fl as [kp rm fq [ds|]].
Qed.

Lemma long_lockstep_lists_dropped_witness :
  write_read_seqs [(mate1, replicate 33 (str "CCA")); (mate2, replicate 33 (str "ATT"))]
    empty_files 1
  = Some (0, mkFiles [] [] [[]; []] (Some [mate1; mate2])).
Proof.
  apply (long_lockstep_lists_dropped mate1 mate2 (replicate 33 (str "CCA"))
           (replicate 33 (str "ATT")) empty_files 1).
  - reflexivity.
  - reflexivity.
  - vm_compute. lia.
Defined.

(** ** Whole runs of assign_reads *)

Lemma assign_reads_from_None snp_dict indel_dict is_paired insam :
  foldl (λ st read, st ← st; assign_step snp_dict indel_dict is_paired st read)
        None insam = None.
Proof. by induction insam. Qed.

(** What every state of a run satisfies, once the first state does and the
    loop body keeps it. *)
Lemma assign_reads_inv (I : RunState → Prop) snp_dict indel_dict is_paired insam st :
  I (init_state is_paired) →
  (∀ st0 read st1, read ∈ insam → I st0 →
     assign_step snp_dict indel_dict is_paired st0 read = Some st1 → I st1) →
  assign_reads insam snp_dict indel_dict is_paired = Some st →
  I st.
Proof.
  unfold assign_reads. generalize (init_state is_paired).
  induction insam as [|read rest IH]; intros st0 Hinit Hstep Hrun.
  - cbn in Hrun. by simplify_eq.
  - cbn [foldl mbind option_bind] in Hrun.
    destruct (assign_step snp_dict indel_dict is_paired st0 read) as [st1|] eqn:Hst1.
    + apply (IH st1); [| |done].
      * apply (Hstep st0 read); [apply elem_of_cons; by left|done|done].
      * intros sa r sb Hr. apply Hstep. apply elem_of_cons. by right.
    + by rewrite assign_reads_from_None in Hrun.
Qed.

(** The single-end body of the loop, taken apart. *)
Lemma assign_step_single snp_dict indel_dict st read st' :
  assign_step snp_dict indel_dict false st read = Some st' →
  ∃ read_seqs results k fl',
    get_read_seqs read snp_dict indel_dict (read_results st) = Some (read_seqs, results)
    ∧ write_read_seqs [(read, read_seqs)]
        (mkFiles (keep_file st) (remap_file st) (fastq_files st) None) 0
      = Some (k, fl')
    ∧ st' = mkRun (unpaired_reads st) results (remap_num st)
              (keep fl') (remap_bam fl') (dropped_bam st) (fastqs fl').
Proof.
  unfold assign_step. cbn [negb]. intros Hrun.
  destruct (get_read_seqs _ _ _ _) as [[read_seqs results]|]; [|done].
  cbn [mbind option_bind] in Hrun.
  destruct (write_read_seqs _ _ _) as [[k fl']|] eqn:Hwrite; [|done].
  cbn [mbind option_bind] in Hrun. simplify_eq.
  exists read_seqs, results, k, fl'. by rewrite Hwrite.
Qed.

(** The paired body of the loop, taken apart: the read is not of a proper
    pair and is counted; or it waits for its mate; or its mate waited, and the
    two are expanded and written, mate 1 first. *)
Lemma assign_step_paired snp_dict indel_dict st read st' :
  assign_step snp_dict indel_dict true st read = Some st' →
  (is_proper_pair read = false
   ∧ st' = mkRun (unpaired_reads st) (incr "not_proper_pair" (read_results st))
             (remap_num st) (keep_file st) (remap_file st) (dropped_bam st)
             (fastq_files st))
  ∨ (is_proper_pair read = true
     ∧ slot_get (is_read1 read) (unpaired_reads st) !! qname read = None
     ∧ st' = mkRun
               (slot_set (is_read2 read)
                  (<[qname read := read]> (slot_get (is_read2 read) (unpaired_reads st)))
                  (unpaired_reads st))
               (read_results st) (remap_num st)
               (keep_file st) (remap_file st) (dropped_bam st) (fastq_files st))
  ∨ (∃ other read1 read2 l1 l2 results k fl',
       is_proper_pair read = true
       ∧ slot_get (is_read1 read) (unpaired_reads st) !! qname read = Some other
       ∧ (read1 = read ∨ read1 = other) ∧ (read2 = read ∨ read2 = other)
       ∧ get_dual_read_seqs read1 read2 snp_dict indel_dict (read_results st)
         = Some (l1, l2, results)
       ∧ write_read_seqs [(read1, l1); (read2, l2)]
           (mkFiles (keep_file st) (remap_file st) (fastq_files st)
              (Some (dropped_bam st)))
           (remap_num st)
         = Some (k, fl')
       ∧ st' = mkRun
                 (slot_set (is_read1 read)
                    (delete (qname read) (slot_get (is_read1 read) (unpaired_reads st)))
                    (unpaired_reads st))
                 results (remap_num st + k)
                 (keep fl') (remap_bam fl') (default (dropped_bam st) (dropped fl'))
                 (fastqs fl')).
Proof.
  unfold assign_step. cbn [negb].
  destruct (is_proper_pair read); [|intros ?; simplify_eq; by left].
  destruct (slot_get (is_read1 read) (unpaired_reads st) !! qname read) as [other|] eqn:Hother;
    [|intros ?; simplify_eq; right; by left].
  intros Hrun. right. right.
  destruct (slot_set (is_read1 read) (Some other)
              (slot_set (is_read2 read) (Some read) (None, None))) as [o1 o2] eqn:Hboth.
  cbn [fst snd] in Hrun.
  destruct o1 as [read1|]; [|done]. destruct o2 as [read2|]; [|done].
  cbn [mbind option_bind] in Hrun.
  destruct (get_dual_read_seqs _ _ _ _ _) as [[[l1 l2] results]|] eqn:Hgen; [|done].
  cbn [mbind option_bind] in Hrun.
  destruct (write_read_seqs _ _ _) as [[k fl']|] eqn:Hwrite; [|done].
  cbn [mbind option_bind] in Hrun. simplify_eq.
  exists other, read1, read2, l1, l2, results, k, fl'.
  repeat split; try done.
  - destruct (is_read1 read), (is_read2 read); cbn in Hboth; simplify_eq; auto.
  - destruct (is_read1 read), (is_read2 read); cbn in Hboth; simplify_eq; auto.
Qed.

(** Every record a combination writes satisfies [P], when [P] holds of the
    record of each of its sequences with the read at the same place. *)
Lemma write_combo_Forall (P : FastqRecord → Prop) loc_line c reads fqs :
  (∀ i s read, c !! i = Some s → reads !! i = Some read →
     P (fastq_record loc_line s read)) →
  Forall (Forall P) fqs →
  Forall (Forall P) (write_combo loc_line c reads fqs).
Proof.
  revert reads fqs. induction c as [|s c IH]; intros [|read reads] [|fq fqs] HP Hfqs;
    cbn [write_combo]; try done.
  apply Forall_cons in Hfqs as [Hfq Hfqs]. constructor.
  - apply Forall_app. split; [done|]. apply Forall_singleton. by apply (HP 0).
  - apply IH; [|done]. intros i s' read' Hs Hr. by apply (HP (S i)).
Qed.

Lemma write_combos_Forall (P : FastqRecord → Prop) loc_line combos reads fqs :
  (∀ c i s read, c ∈ combos → c !! i = Some s → reads !! i = Some read →
     P (fastq_record loc_line s read)) →
  Forall (Forall P) fqs →
  Forall (Forall P) (foldl (λ fqs c, write_combo loc_line c reads fqs) fqs combos).
Proof.
  revert fqs. induction combos as [|c combos IH]; intros fqs HP Hfqs; [done|].
  cbn [foldl]. apply IH.
  - intros c' i s read Hc. apply HP. apply elem_of_cons. by right.
  - apply write_combo_Forall; [|done]. intros i s read. apply HP.
    apply elem_of_cons. by left.
Qed.

(** Every file after a combination is the file before it with records of
    identifier [loc_line] appended. *)
Lemma write_combo_appends loc_line c reads fqs :
  Forall2 (λ old new, ∃ added, new = old ++ added
                               ∧ Forall (λ r, fq_loc r = loc_line) added)
          fqs (write_combo loc_line c reads fqs).
Proof.
  assert (∀ l : list (list FastqRecord),
            Forall2 (λ old new, ∃ added, new = old ++ added
                                         ∧ Forall (λ r, fq_loc r = loc_line) added) l l)
    as Hrefl.
  { intros l. apply Forall2_same_length_lookup_2; [done|].
    intros i x y Hx Hy. simplify_eq. exists []. by rewrite app_nil_r. }
  revert reads fqs. induction c as [|s c IH]; intros [|read reads] [|fq fqs];
    cbn [write_combo]; try apply Hrefl.
  constructor; [|apply IH]. eexists. split; [done|]. by apply Forall_singleton.
Qed.

Lemma write_combos_appends loc_line combos reads fqs :
  Forall2 (λ old new, ∃ added, new = old ++ added
                               ∧ Forall (λ r, fq_loc r = loc_line) added)
          fqs (foldl (λ fqs c, write_combo loc_line c reads fqs) fqs combos).
Proof.
  revert fqs. induction combos as [|c combos IH]; intros fqs.
  - apply Forall2_same_length_lookup_2; [done|].
    intros i x y Hx Hy. cbn in Hy. simplify_eq. exists []. by rewrite app_nil_r.
  - cbn [foldl].
    pose proof (write_combo_appends loc_line c reads fqs) as Hfirst.
    pose proof (IH (write_combo loc_line c reads fqs)) as Hrest.
    apply Forall2_same_length_lookup_2.
    { apply Forall2_length in Hfirst, Hrest. lia. }
    intros i x z Hx Hz.
    destruct (Forall2_lookup_l _ _ _ _ _ Hfirst Hx) as (y & Hy & added1 & -> & Ha1).
    destruct (Forall2_lookup_l _ _ _ _ _ Hrest Hy) as (z' & Hz' & added2 & -> & Ha2).
    simplify_eq. exists (added1 ++ added2). split; [by rewrite app_assoc|].
    by apply Forall_app.
Qed.

(** The files after a call of [write_read_seqs] that returns are the files
    before it with records appended that carry the batch number passed. *)
Lemma write_read_seqs_appends both_read_seqs fl remap_num k fl' :
  write_read_seqs both_read_seqs fl remap_num = Some (k, fl') →
  Forall2 (λ old new, ∃ added, new = old ++ added
             ∧ Forall (λ r, loc_remap_num (fq_loc r) = remap_num) added)
          (fastqs fl) (fastqs fl')
  ∧ (k = 0 ∧ fastqs fl' = fastqs fl ∨ k = 1).
Proof.
  intros Hrun.
  assert (Forall2 (λ old new : list FastqRecord, ∃ added, new = old ++ added
             ∧ Forall (λ r, loc_remap_num (fq_loc r) = remap_num) added)
            (fastqs fl) (fastqs fl)) as Hrefl.
  { apply Forall2_same_length_lookup_2; [done|].
    intros i x y Hx Hy. simplify_eq. exists []. by rewrite app_nil_r. }
  apply write_read_seqs_cases in Hrun
    as (_ & _ & [(_ & -> & ->)|[(_ & -> & ->)|(_ & _ & -> & loc & Hloc & ->)]]);
    cbn [fastqs]; [split; [done|by left]..|].
  split; [|by right].
  eapply Forall2_impl; [apply write_combos_appends|].
  intros old new (added & -> & Hadded). exists added. split; [done|].
  eapply Forall_impl; [exact Hadded|]. intros r Hr. cbn in Hr. by rewrite Hr.
Qed.

(** X17: a single-end run never writes the dropped file, never buffers a
    read, leaves the batch counter at its start value 1, and labels every
    FASTQ record it writes with batch number 0. *)
Theorem single_end_run (insam : list AlignedSegment) (snp_dict : SnpDict)
    (indel_dict : IndelDict) (st : RunState)
    (Hrun : assign_reads insam snp_dict indel_dict false = Some st) :
  dropped_bam st = []
  ∧ unpaired_reads st = (∅, ∅)
  ∧ remap_num st = 1
  ∧ ∃ fq, fastq_files st = [fq] ∧ Forall (λ r, loc_remap_num (fq_loc r) = 0) fq.
Proof.
  apply (assign_reads_inv
           (λ st, dropped_bam st = [] ∧ unpaired_reads st = (∅, ∅) ∧ remap_num st = 1
                  ∧ ∃ fq, fastq_files st = [fq]
                          ∧ Forall (λ r, loc_remap_num (fq_loc r) = 0) fq)
           snp_dict indel_dict false insam); [| |exact Hrun].
  - repeat split. exists []. by split.
  - intros st0 read st1 _ (Hdropped & Hbuf & Hnum & fq & Hfq & Hzero) Hstep.
    apply assign_step_single in Hstep
      as (read_seqs & results & k & fl' & _ & Hwrite & ->).
    cbn. repeat split; try done.
    apply write_read_seqs_appends in Hwrite as [Happ _]. cbn [fastqs] in Happ.
    rewrite Hfq in Happ.
    apply Forall2_cons_inv_l in Happ as (new & rest & (added & -> & Hadded) & Hrest & ->).
    apply Forall2_nil_inv_l in Hrest as ->.
    eexists. split; [done|]. by apply Forall_app.
Qed.

Lemma single_end_run_witness :
  ∃ st, assign_reads [snp_read; far_read] one_snp no_indels false = Some st
        ∧ dropped_bam st = []
        ∧ unpaired_reads st = (∅, ∅)
        ∧ remap_num st = 1
        ∧ ∃ fq, fastq_files st = [fq] ∧ Forall (λ r, loc_remap_num (fq_loc r) = 0) fq.
Proof.
  destruct (assign_reads [snp_read; far_read] one_snp no_indels false) as [st|] eqn:Hrun;
    [|by vm_compute in Hrun].
  exists st. split; [done|].
  exact (single_end_run [snp_read; far_read] one_snp no_indels st Hrun).
Defined.

Lemma assign_reads_snoc insam read snp_dict indel_dict is_paired :
  assign_reads (insam ++ [read]) snp_dict indel_dict is_paired
  = st ← assign_reads insam snp_dict indel_dict is_paired;
    assign_step snp_dict indel_dict is_paired st read.
Proof. unfold assign_reads. by rewrite foldl_app. Qed.

(** What one paired step does to the FASTQ files and the batch counter:
    it leaves both alone, or appends records that carry the counter and
    moves the counter up by one. *)
Lemma assign_step_paired_batches snp_dict indel_dict st read st' :
  assign_step snp_dict indel_dict true st read = Some st' →
  Forall2 (λ old new, ∃ added, new = old ++ added
             ∧ Forall (λ r, loc_remap_num (fq_loc r) = remap_num st) added)
          (fastq_files st) (fastq_files st')
  ∧ ((remap_num st' = remap_num st ∧ fastq_files st' = fastq_files st)
     ∨ remap_num st' = S (remap_num st)).
Proof.
  intros Hstep.
  assert (Forall2 (λ old new : list FastqRecord, ∃ added, new = old ++ added
             ∧ Forall (λ r, loc_remap_num (fq_loc r) = remap_num st) added)
            (fastq_files st) (fastq_files st)) as Hrefl.
  { apply Forall2_same_length_lookup_2; [done|].
    intros i x y Hx Hy. simplify_eq. exists []. by rewrite app_nil_r. }
  apply assign_step_paired in Hstep
    as [[_ ->]|[(_ & _ & ->)|(other & read1 & read2 & l1 & l2 & results & k & fl'
                               & _ & _ & _ & _ & _ & Hwrite & ->)]];
    cbn [fastq_files remap_num]; [split; [done|by left]..|].
  apply write_read_seqs_appends in Hwrite as [Happ [[Hk Hsame]|Hk]];
    subst k; cbn [fastqs] in *.
  - split; [done|]. left. split; [lia|done].
  - split; [done|]. right. lia.
Qed.

Lemma paired_numbers_bounded insam snp_dict indel_dict st :
  assign_reads insam snp_dict indel_dict true = Some st →
  Forall (Forall (λ r, loc_remap_num (fq_loc r) < remap_num st)) (fastq_files st).
Proof.
  apply (assign_reads_inv
           (λ st, Forall (Forall (λ r, loc_remap_num (fq_loc r) < remap_num st))
                    (fastq_files st))).
  - by repeat constructor.
  - intros st0 read st1 _ Hinv Hstep.
    apply assign_step_paired_batches in Hstep as [Happ Hnum].
    apply Forall_forall. intros new Hnew.
    apply list_elem_of_lookup in Hnew as [i Hnew].
    destruct (Forall2_lookup_r _ _ _ _ _ Happ Hnew) as (old & Hold & added & -> & Hadded).
    rewrite Forall_forall in Hinv.
    assert (Forall (λ r, loc_remap_num (fq_loc r) < remap_num st0) old) as Hbound.
    { apply Hinv. apply list_elem_of_lookup. by exists i. }
    destruct Hnum as [[Hsame Hfiles]|Hnext].
    + rewrite Hsame. apply Hinv. rewrite <- Hfiles.
      apply list_elem_of_lookup. by exists i.
    + rewrite Hnext. apply Forall_app. split.
      * eapply Forall_impl; [exact Hbound|]. intros r Hr. cbn in Hr. lia.
      * eapply Forall_impl; [exact Hadded|]. intros r Hr. cbn in Hr. lia.
Qed.

(** X18: in a paired run the batch number grows. Whatever the last read
    of a run adds to a FASTQ file carries the value the counter had before
    that read, every record written before carries a smaller value, and the
    read that adds records moves the counter up by one. *)
Theorem paired_batches_increase (insam : list AlignedSegment) (read : AlignedSegment)
    (snp_dict : SnpDict) (indel_dict : IndelDict) (st' : RunState)
    (Hrun : assign_reads (insam ++ [read]) snp_dict indel_dict true = Some st') :
  ∃ st, assign_reads insam snp_dict indel_dict true = Some st
    ∧ Forall2 (λ old new, ∃ added, new = old ++ added
                 ∧ Forall (λ r, loc_remap_num (fq_loc r) < remap_num st) old
                 ∧ Forall (λ r, loc_remap_num (fq_loc r) = remap_num st) added)
              (fastq_files st) (fastq_files st')
    ∧ ((remap_num st' = remap_num st ∧ fastq_files st' = fastq_files st)
       ∨ remap_num st' = S (remap_num st)).
Proof.
  rewrite assign_reads_snoc in Hrun.
  destruct (assign_reads insam snp_dict indel_dict true) as [st|] eqn:Hprefix; [|done].
  cbn [mbind option_bind] in Hrun. exists st. split; [done|].
  pose proof (paired_numbers_bounded _ _ _ _ Hprefix) as Hbound.
  apply assign_step_paired_batches in Hrun as [Happ Hnum]. split; [|done].
  apply Forall2_same_length_lookup_2; [by eapply Forall2_length|].
  intros i old new Hold Hnew.
  destruct (Forall2_lookup_l _ _ _ _ _ Happ Hold) as (new' & Hnew' & added & -> & Hadded).
  simplify_eq. exists added. split; [done|]. split; [|done].
  rewrite Forall_forall in Hbound. apply Hbound. apply list_elem_of_lookup. by exists i.
Qed.

Lemma paired_batches_increase_witness :
  ∃ st, assign_reads [mate1; mate2; mate1b] one_snp no_indels true = Some st
    ∧ remap_num st = 2.
Proof.
  destruct (assign_reads ([mate1; mate2; mate1b] ++ [mate2b]) one_snp no_indels true)
    as [st'|] eqn:Hrun; [|by vm_compute in Hrun].
  destruct (paired_batches_increase [mate1; mate2; mate1b] mate2b one_snp no_indels st' Hrun)
    as (st & Hprefix & _ & _).
  exists st. split; [exact Hprefix|].
  vm_compute in Hprefix. by simplify_eq.
Defined.

Lemma write_combos_two loc_line read1 read2 combos f1 f2 :
  Forall (λ c : list seq_t, length c = 2) combos →
  ∃ a1 a2,
    foldl (λ fqs c, write_combo loc_line c [read1; read2] fqs) [f1; f2] combos
    = [f1 ++ a1; f2 ++ a2]
    ∧ fq_loc <$> a1 = fq_loc <$> a2.
Proof.
  intros Hw. revert f1 f2. induction Hw as [|c combos Hc _ IH]; intros f1 f2.
  - exists [], []. by rewrite !app_nil_r.
  - destruct c as [|s1 [|s2 [|? ?]]]; try done. cbn [foldl write_combo].
    destruct (IH (f1 ++ [fastq_record loc_line s1 read1])
                 (f2 ++ [fastq_record loc_line s2 read2])) as (a1 & a2 & -> & Hloc).
    exists (fastq_record loc_line s1 read1 :: a1), (fastq_record loc_line s2 read2 :: a2).
    rewrite <- !app_assoc. split; [done|]. cbn. by rewrite Hloc.
Qed.

(** X19: in a paired run the two FASTQ files stay in step: they hold the
    same number of records, and the records at the same place carry the same
    identifier. *)
Theorem paired_fastqs_in_step (insam : list AlignedSegment) (snp_dict : SnpDict)
    (indel_dict : IndelDict) (st : RunState)
    (Hrun : assign_reads insam snp_dict indel_dict true = Some st) :
  ∃ f1 f2, fastq_files st = [f1; f2] ∧ fq_loc <$> f1 = fq_loc <$> f2.
Proof.
  apply (assign_reads_inv
           (λ st, ∃ f1 f2, fastq_files st = [f1; f2] ∧ fq_loc <$> f1 = fq_loc <$> f2)
           snp_dict indel_dict true insam); [| |exact Hrun].
  - by exists [], [].
  - intros st0 read st1 _ (f1 & f2 & Hfiles & Hloc) Hstep.
    apply assign_step_paired in Hstep
      as [[_ ->]|[(_ & _ & ->)|(other & read1 & read2 & l1 & l2 & results & k & fl'
                                 & _ & _ & _ & _ & _ & Hwrite & ->)]];
      cbn [fastq_files]; [by exists f1, f2..|].
    apply write_read_seqs_cases in Hwrite
      as (_ & _ & [(_ & _ & ->)|[(_ & _ & ->)|(_ & _ & _ & loc & _ & ->)]]);
      cbn [fastqs]; [by exists f1, f2..|].
    rewrite Hfiles.
    destruct (write_combos_two loc read1 read2
                (drop 1 (it_product [(read1, l1); (read2, l2)].*2)) f1 f2)
      as (a1 & a2 & Hfold & Ha).
    { apply Forall_drop. apply (it_product_widths [l1; l2]). }
    exists (f1 ++ a1), (f2 ++ a2). split; [exact Hfold|].
    by rewrite !fmap_app, Hloc, Ha.
Qed.

Lemma paired_fastqs_in_step_witness :
  ∃ st f1 f2, assign_reads [mate1; mate2] one_snp no_indels true = Some st
    ∧ fastq_files st = [f1; f2] ∧ fq_loc <$> f1 = fq_loc <$> f2.
Proof.
  destruct (assign_reads [mate1; mate2] one_snp no_indels true) as [st|] eqn:Hrun;
    [|by vm_compute in Hrun].
  destruct (paired_fastqs_in_step [mate1; mate2] one_snp no_indels st Hrun)
    as (f1 & f2 & Hfiles & Hloc).
  by exists st, f1, f2.
Defined.

(** ** FASTQ records are well formed *)

(** The sequence line and the quality line of a record have the same
    length. *)
Definition record_ok (r : FastqRecord) : Prop := length (fq_seq r) = length (fq_qual r).

(** The read carries one quality symbol per base. *)
Definition read_ok (read : AlignedSegment) : Prop := length (seq read) = length (qual read).

Lemma fastq_record_ok loc_line s read :
  length s = length (qual read) → record_ok (fastq_record loc_line s read).
Proof.
  intros Hlen. unfold record_ok, fastq_record. cbn.
  destruct (is_reverse read); [by rewrite length_reverse_complement|done].
Qed.

Lemma write_read_seqs_ok both_read_seqs fl remap_num k fl' :
  Forall (λ rs : AlignedSegment * list seq_t,
            Forall (λ s, length s = length (qual rs.1)) rs.2) both_read_seqs →
  Forall (Forall record_ok) (fastqs fl) →
  write_read_seqs both_read_seqs fl remap_num = Some (k, fl') →
  Forall (Forall record_ok) (fastqs fl').
Proof.
  intros Hlens Hfqs Hrun.
  apply write_read_seqs_cases in Hrun
    as (_ & _ & [(_ & _ & ->)|[(_ & _ & ->)|(_ & _ & _ & loc & _ & ->)]]);
    cbn [fastqs]; [done..|].
  apply write_combos_Forall; [|done].
  intros c i s read Hc Hs Hread. apply fastq_record_ok.
  apply (subseteq_drop 1) in Hc.
  pose proof (it_product_entries both_read_seqs.*2) as Hentries.
  rewrite Forall_forall in Hentries. apply Hentries in Hc.
  destruct (Forall2_lookup_l _ _ _ _ _ Hc Hs) as (seqs & Hseqs & Hin).
  rewrite list_lookup_fmap in Hread. rewrite list_lookup_fmap in Hseqs.
  destruct (both_read_seqs !! i) as [[read' seqs']|] eqn:Hi; [|done].
  cbn in Hread, Hseqs. simplify_eq.
  rewrite Forall_forall in Hlens.
  apply list_elem_of_lookup_2 in Hi. apply Hlens in Hi. cbn in Hi.
  rewrite Forall_forall in Hi. by apply Hi.
Qed.

Lemma get_read_seqs_lengths read snp_dict indel_dict d l d' :
  get_read_seqs read snp_dict indel_dict d = Some (l, d') →
  Forall (λ s, length s = length (seq read)) l.
Proof.
  unfold get_read_seqs. intros Hrun.
  apply get_read_seqs_loop_shaped in Hrun as [->|[_ ?]]; [done|done|].
  split; [done|]. by repeat constructor.
Qed.

Lemma get_dual_read_seqs_lengths read1 read2 snp_dict indel_dict d l1 l2 d' :
  get_dual_read_seqs read1 read2 snp_dict indel_dict d = Some (l1, l2, d') →
  Forall (λ s, length s = length (seq read1)) l1
  ∧ Forall (λ s, length s = length (seq read2)) l2.
Proof.
  unfold get_dual_read_seqs. intros Hrun.
  destruct (scan_mate false _ _ _ _ _) as [[snps1 posns1]|]; [|by simplify_eq].
  destruct (scan_mate true _ _ _ _ _) as [[snps posns]|]; [|by simplify_eq].
  case_decide; [by simplify_eq|].
  destruct (dual_loop _ _ _) as [[st|]|] eqn:Hloop;
    cbn [mbind option_bind] in Hrun; [|by simplify_eq|done].
  apply (dual_loop_shaped _ (seq read1) (seq read2)) in Hloop
    as [[_ Hsh1] [_ Hsh2]]; [|done|done|split; [done|by repeat constructor]..].
  case_decide; by simplify_eq.
Qed.

(** X20: when every input read carries one quality symbol per base,
    every FASTQ record of a run, single-end or paired, has a sequence line
    and a quality line of the same length: the candidates are as long as the
    read, and the reverse complement keeps the length. *)
Theorem fastq_records_ok (insam : list AlignedSegment) (snp_dict : SnpDict)
    (indel_dict : IndelDict) (is_paired : bool) (st : RunState)
    (Hreads : Forall read_ok insam)
    (Hrun : assign_reads insam snp_dict indel_dict is_paired = Some st) :
  Forall (Forall record_ok) (fastq_files st).
Proof.
  rewrite Forall_forall in Hreads.
  assert (∀ read1 read2 l1 l2 d d',
            read_ok read1 → read_ok read2 →
            get_dual_read_seqs read1 read2 snp_dict indel_dict d = Some (l1, l2, d') →
            Forall (λ rs : AlignedSegment * list seq_t,
                      Forall (λ s, length s = length (qual rs.1)) rs.2)
                   [(read1, l1); (read2, l2)]) as Hpair.
  { intros read1 read2 l1 l2 d d' Hok1 Hok2 Hgen.
    apply get_dual_read_seqs_lengths in Hgen as [H1 H2].
    unfold read_ok in Hok1, Hok2. rewrite Hok1 in H1. rewrite Hok2 in H2.
    by repeat constructor. }
  apply (assign_reads_inv
           (λ st, Forall (Forall record_ok) (fastq_files st)
                  ∧ map_Forall (λ _ r, read_ok r) (unpaired_reads st).1
                  ∧ map_Forall (λ _ r, read_ok r) (unpaired_reads st).2)
           snp_dict indel_dict is_paired insam st); [| |exact Hrun].
  - split; [destruct is_paired; by repeat constructor|].
    split; apply map_Forall_empty.
  - intros st0 read st1 Hread (Hfqs & Hbuf1 & Hbuf2) Hstep.
    apply Hreads in Hread. destruct is_paired.
    + apply assign_step_paired in Hstep
        as [[_ ->]|[(_ & _ & ->)|(other & read1 & read2 & l1 & l2 & results & k & fl'
                                   & _ & Hother & Hr1 & Hr2 & Hgen & Hwrite & ->)]];
        cbn [fastq_files unpaired_reads]; [done| |].
      * split; [done|].
        destruct (is_read2 read); cbn [slot_get slot_set fst snd];
          (split; [|by try apply map_Forall_insert_2]);
          by try apply map_Forall_insert_2.
      * assert (read_ok other) as Hok.
        { destruct (is_read1 read); cbn [slot_get] in Hother;
            [by apply Hbuf2 in Hother|by apply Hbuf1 in Hother]. }
        split.
        -- eapply write_read_seqs_ok; [| |exact Hwrite]; [|exact Hfqs].
           eapply Hpair; [| |exact Hgen].
           ++ by destruct Hr1 as [-> | ->].
           ++ by destruct Hr2 as [-> | ->].
        -- destruct (is_read1 read); cbn [slot_get slot_set fst snd];
             (split; [|by try apply map_Forall_delete]);
             by try apply map_Forall_delete.
    + apply assign_step_single in Hstep
        as (read_seqs & results & k & fl' & Hgen & Hwrite & ->).
      cbn [fastq_files unpaired_reads]. split; [|done].
      eapply write_read_seqs_ok; [| |exact Hwrite]; [|exact Hfqs].
      apply Forall_singleton. cbn.
      apply get_read_seqs_lengths in Hgen. unfold read_ok in Hread.
      by rewrite Hread in Hgen.
Qed.

Lemma fastq_records_ok_witness :
  ∃ st, assign_reads [mate1; mate2] one_snp no_indels true = Some st
        ∧ Forall (Forall record_ok) (fastq_files st).
Proof.
  destruct (assign_reads [mate1; mate2] one_snp no_indels true) as [st|] eqn:Hrun;
    [|by vm_compute in Hrun].
  exists st. split; [done|].
  apply (fastq_records_ok [mate1; mate2] one_snp no_indels true st); [|exact Hrun].
  by_compute.
Defined.

(** ** The buffer of reads that wait for their mate *)

(** X21: in a paired run, the first read of a proper pair whose name is
    in neither buffer is stored under its name and role, and nothing is
    written or counted; when its mate arrives next and the step returns, the
    stored read is taken out again and the buffers are what they were
    before the pair. *)
Theorem mate_pair_round_trip (snp_dict : SnpDict) (indel_dict : IndelDict)
    (st : RunState) (first second : AlignedSegment)
    (Hproper1 : is_proper_pair first = true)
    (Hproper2 : is_proper_pair second = true)
    (Hname : qname second = qname first)
    (Hroles1 : is_read1 first = negb (is_read2 first))
    (Hroles2 : is_read1 second = is_read2 first ∧ is_read2 second = is_read1 first)
    (Hfresh1 : (unpaired_reads st).1 !! qname first = None)
    (Hfresh2 : (unpaired_reads st).2 !! qname first = None) :
  ∃ st1,
    assign_step snp_dict indel_dict true st first = Some st1
    ∧ slot_get (is_read2 first) (unpaired_reads st1) !! qname first = Some first
    ∧ (read_results st1, remap_num st1, keep_file st1, remap_file st1,
       dropped_bam st1, fastq_files st1)
      = (read_results st, remap_num st, keep_file st, remap_file st,
         dropped_bam st, fastq_files st)
    ∧ ∀ st2, assign_step snp_dict indel_dict true st1 second = Some st2 →
             unpaired_reads st2 = unpaired_reads st.
Proof.
  destruct Hroles2 as [Hr21 Hr22].
  eexists. split.
  { unfold assign_step. cbn [negb]. rewrite Hproper1.
    assert (slot_get (is_read1 first) (unpaired_reads st) !! qname first = None) as ->
      by (by destruct (is_read1 first)).
    reflexivity. }
  cbn [unpaired_reads read_results remap_num keep_file remap_file dropped_bam fastq_files].
  split; [by destruct (is_read2 first); cbn; rewrite lookup_insert_eq|].
  split; [done|].
  intros st2 Hstep.
  apply assign_step_paired in Hstep
    as [[Hnot _]|[(_ & Hnone & _)|(other & read1 & read2 & l1 & l2 & results & k & fl'
                                   & _ & _ & _ & _ & _ & _ & ->)]].
  - by rewrite Hproper2 in Hnot.
  - rewrite Hr21, Hname in Hnone. cbn [unpaired_reads] in Hnone.
    destruct (is_read2 first); cbn in Hnone; by rewrite lookup_insert_eq in Hnone.
  - cbn [unpaired_reads]. rewrite Hr21, Hname.
    destruct (unpaired_reads st) as [m1 m2]. cbn [fst snd] in *.
    destruct (is_read2 first); cbn [slot_get slot_set fst snd];
      by rewrite delete_insert_id.
Qed.

Lemma mate_pair_round_trip_witness :
  ∃ st1,
    assign_step one_snp no_indels true (init_state true) mate1 = Some st1
    ∧ slot_get (is_read2 mate1) (unpaired_reads st1) !! qname mate1 = Some mate1
    ∧ (read_results st1, remap_num st1, keep_file st1, remap_file st1,
       dropped_bam st1, fastq_files st1)
      = (read_results (init_state true), remap_num (init_state true),
         keep_file (init_state true), remap_file (init_state true),
         dropped_bam (init_state true), fastq_files (init_state true))
    ∧ ∀ st2, assign_step one_snp no_indels true st1 mate2 = Some st2 →
             unpaired_reads st2 = unpaired_reads (init_state true).
Proof.
  apply (mate_pair_round_trip one_snp no_indels (init_state true) mate1 mate2);
    try reflexivity.
  split; reflexivity.
Defined.

(** ** The combination that is skipped *)

Lemma it_product_nonempty {A : Type} (ls : list (list A)) hs :
  Forall2 (λ l h, l !! 0 = Some h) ls hs → it_product ls !! 0 = Some hs.
Proof.
  induction 1 as [|l h ls hs Hh _ IH]; [done|].
  cbn [it_product]. destruct l as [|x l]; [done|]. cbn in Hh. simplify_eq.
  cbn [mbind list_bind]. rewrite lookup_app_l.
  - by rewrite list_lookup_fmap, IH.
  - rewrite length_fmap. by apply lookup_lt_Some in IH.
Qed.

(** X22: when every read has a candidate, the combination that
    [write_read_seqs] skips (the first of [itertools.product]) is the one
    made of entry 0 of every list, and all others follow it. *)
Theorem skipped_combination_is_entries_0 (seqs : list (list seq_t)) (heads : list seq_t)
    (Hheads : Forall2 (λ l h, l !! 0 = Some h) seqs heads) :
  it_product seqs = heads :: drop 1 (it_product seqs).
Proof.
  apply it_product_nonempty in Hheads.
  destruct (it_product seqs) as [|c combos]; [done|]. cbn in Hheads. by simplify_eq.
Qed.

Lemma skipped_combination_is_entries_0_witness :
  it_product [[str "CCA"; str "CCG"]; [str "ATT"; str "GTT"]]
  = [str "CCA"; str "ATT"]
      :: drop 1 (it_product [[str "CCA"; str "CCG"]; [str "ATT"; str "GTT"]]).
Proof.
  apply (skipped_combination_is_entries_0
           [[str "CCA"; str "CCG"]; [str "ATT"; str "GTT"]] [str "CCA"; str "ATT"]).
  repeat constructor.
Defined.

(** ** A variant position that only mate 1 covers *)

Lemma allele_loop_single observed f1 f2 (s1 s2 : seq_t) base alleles a :
  observed s1 s2 = Some base →
  cur1 a = s1 → cur2 a = s2 →
  allele_loop observed f1 f2 [(s1, s2)] alleles a
  = Some (mkAllele s1 s2
            (new_seqs1 a ++ ((λ allele, f1 allele s1) <$> filter (λ x, x ≠ base) alleles))
            (new_seqs2 a ++ ((λ allele, f2 allele s2) <$> filter (λ x, x ≠ base) alleles))).
Proof.
  intros Hobs. revert a. induction alleles as [|allele rest IH]; intros a Hc1 Hc2.
  - cbn. rewrite !app_nil_r. destruct a. cbn in *. by subst.
  - cbn [allele_loop]. rewrite Hc1, Hc2, Hobs. cbn [mbind option_bind].
    rewrite filter_cons. destruct (decide (allele = base)) as [->|Hne].
    + rewrite decide_False by (by intros []). by apply IH.
    + rewrite decide_True by done. rewrite IH by done.
      cbn [zip_loop foldl new_seqs1 new_seqs2 fmap list_fmap].
      by rewrite <- !app_assoc.
Qed.

(** X23: a variant position that mate 1 alone covers, with no other
    variant under the pair. Mate 1's list is its sequence followed by one
    substitution for every allele that differs from the base mate 1 shows
    (whether or not that base is among the alleles); mate 2's list is its
    sequence followed by as many unchanged copies. The list grows by
    addition here, where [get_read_seqs] doubles its list. *)
Theorem mate1_only_snp (snp_dict : SnpDict) (indel_dict : IndelDict)
    (read1 read2 : AlignedSegment) (d : Counter)
    (pre post : list (nat * option Z)) (rp1 : nat) (p : Z)
    (alleles : seq_t) (base : ascii)
    (Hpairs1 : aligned_pairs read1 = pre ++ (rp1, Some p) :: post)
    (Hplain : ∀ q, covers (pre ++ post ++ aligned_pairs read2) q →
                snp_chrom snp_dict (reference_name read1) !! q = None
                ∧ indel_flag indel_dict (reference_name read1) q = false)
    (Hsnp : snp_chrom snp_dict (reference_name read1) !! p = Some alleles)
    (Heligible : indel_flag indel_dict (reference_name read1) p = false)
    (Hcap : length alleles ≤ MAX_SEQS_PER_READ)
    (Hb1 : seq read1 !! rp1 = Some base) :
  get_dual_read_seqs read1 read2 snp_dict indel_dict d
  = Some (seq read1 :: ((λ allele, subst_at rp1 allele (seq read1))
                          <$> filter (λ x, x ≠ base) alleles),
          seq read2 :: ((λ _, seq read2) <$> filter (λ x, x ≠ base) alleles),
          if decide (filter (λ x, x ≠ base) alleles = [])
          then incr "no_snps" d else incr "has_snps" d).
Proof.
  assert (∀ l1 l2 q, covers l2 q → covers (l1 ++ l2) q) as Hr.
  { intros l1 l2 q [rp Hin]. exists rp. apply elem_of_app. by right. }
  assert (∀ l1 l2 q, covers l1 q → covers (l1 ++ l2) q) as Hl.
  { intros l1 l2 q [rp Hin]. exists rp. apply elem_of_app. by left. }
  unfold get_dual_read_seqs. rewrite Hpairs1.
  rewrite (scan_mate_one false _ _ pre post rp1 p alleles);
    [|intros q Hq; by apply Hplain, Hl|intros q Hq; by apply Hplain, Hr, Hl|done|done].
  rewrite scan_mate_plain by (intros q Hq; by apply Hplain, Hr, Hr).
  cbn [dict_set].
  assert (product (length <$> [(p, alleles)].*2) = length alleles) as ->
    by (unfold product; cbn; lia).
  rewrite decide_False by lia.
  assert (read_posns_get (read_posns_set false p rp1 ∅) p = (Some rp1, None)) as Hget.
  { rewrite read_posns_get_set, decide_True by done.
    unfold read_posns_get. by rewrite lookup_empty. }
  cbn [dual_loop]. unfold dual_step. rewrite Hget.
  cbn [seq1 seq2 seqs1 seqs2 zip zip_with].
  rewrite (allele_loop_single _ _ _ (seq read1) (seq read2) base) by done.
  cbn [mbind option_bind extend_state new_seqs1 new_seqs2 cur1 cur2 seqs1 seqs2 app].
  destruct (filter (λ x, x ≠ base) alleles) as [|x rest]; cbn; [done|].
  by rewrite decide_False.
Qed.

Lemma mate1_only_snp_witness :
  get_dual_read_seqs mate1 far_mate one_snp no_indels fresh_counter
  = Some ([str "CCA"; str "CCG"], [str "TTC"; str "TTC"], incr "has_snps" fresh_counter).
Proof.
  apply (mate1_only_snp one_snp no_indels mate1 far_mate fresh_counter
           [(0, Some 97%Z); (1, Some 98%Z)] [] 2 99%Z (str "AG") "A"%char).
  - reflexivity.
  - apply covered_all. by_compute.
  - vm_compute. reflexivity.
  - vm_compute. reflexivity.
  - vm_compute. lia.
  - reflexivity.
Defined.
